(** * System identification notebook (demo_system_id): a verified model

    The notebook's numeric routines are embedded over numpy-like arrays
    ([ndarray]: 0-, 1- and 2-dimensional arrays with numpy's broadcasting
    rules and shape errors).  float64 arithmetic is idealised as exact
    arithmetic in an ordered field [F]; the linear-algebra primitives of
    numpy ([lstsq], [inv]) are given by their mathematical contract on
    MathComp matrices. *)

From HB Require Import structures.
From Stdlib Require Import String Lia.
From mathcomp Require Import boot order algebra.

Set Implicit Arguments.
Unset Strict Implicit.
Unset Printing Implicit Defensive.

Import Order.Theory GRing.Theory Num.Theory.
Local Open Scope ring_scope.

(** ** Python exceptions and the error monad *)

Inductive pyerror :=
| AssertionError of string
| ValueError
| IndexError
| LinAlgError.

Inductive result (T : Type) :=
| Ok of T
| Raise of pyerror.
Arguments Raise {T} e.

Definition bind T U (r : result T) (k : T -> result U) : result U :=
  match r with
  | Ok x => k x
  | Raise e => Raise e
  end.

Notation "x <- r ;; k" := (bind r (fun x => k))
  (at level 100, r at next level, right associativity).
Notation "'let*' ' p ':=' r 'in' k" := (bind r (fun p => k))
  (at level 100, p pattern, r at next level, right associativity).

(** [mapM f s] runs [f] on every element, stopping at the first error. *)
Fixpoint mapM T U (f : T -> result U) (s : seq T) : result (seq U) :=
  match s with
  | [::] => Ok [::]
  | x :: s' => y <- f x ;; ys <- mapM f s' ;; Ok (y :: ys)
  end.

(** [foldM] is a [for] loop over [s] threading the loop state. *)
Fixpoint foldM T S (f : S -> T -> result S) (st : S) (s : seq T) : result S :=
  match s with
  | [::] => Ok st
  | x :: s' => st' <- f st x ;; foldM f st' s'
  end.

Definition is_assertion (e : pyerror) : bool :=
  if e is AssertionError _ then true else false.

Definition raises_assertion T (r : result T) : bool :=
  if r is Raise e then is_assertion e else false.

(** ** Complex numbers over [F] (numpy's complex128) *)

Record complex (F : Type) := Complex { np_real : F; np_imag : F }.
Arguments Complex {F} _ _.

Section ComplexRing.

Variable F : realFieldType.
Local Notation C := (complex F).

Definition complex_pair (z : C) : F * F := (np_real z, np_imag z).
Definition pair_complex (p : F * F) : C := Complex p.1 p.2.

Lemma complex_pairK : cancel complex_pair pair_complex.
Proof. by case. Qed.

HB.instance Definition _ := Choice.copy C (can_type complex_pairK).

Definition addc (z w : C) : C :=
  Complex (np_real z + np_real w) (np_imag z + np_imag w).
Definition oppc (z : C) : C := Complex (- np_real z) (- np_imag z).
Definition mulc (z w : C) : C :=
  Complex (np_real z * np_real w - np_imag z * np_imag w)
    (np_real z * np_imag w + np_imag z * np_real w).
Definition of_real (x : F) : C := Complex x 0.

Lemma complex_eq (z w : C) :
  np_real z = np_real w -> np_imag z = np_imag w -> z = w.
Proof. by case: z w => [a b] [c d] /= -> ->. Qed.

Lemma addcA : associative addc.
Proof. by move=> x y z; apply: complex_eq; rewrite /= addrA. Qed.

Lemma addcC : commutative addc.
Proof. by move=> x y; apply: complex_eq; rewrite /= addrC. Qed.

Lemma add0c : left_id (of_real 0) addc.
Proof. by move=> x; apply: complex_eq; rewrite /= add0r. Qed.

Lemma addNc : left_inverse (of_real 0) oppc addc.
Proof. by move=> x; apply: complex_eq; rewrite /= addNr. Qed.

HB.instance Definition _ := GRing.isZmodule.Build C addcA addcC add0c addNc.

Lemma mulcA : associative mulc.
Proof. by move=> x y z; apply: complex_eq => /=; ring. Qed.

Lemma mulcC : commutative mulc.
Proof. by move=> x y; apply: complex_eq => /=; ring. Qed.

Lemma mul1c : left_id (of_real 1) mulc.
Proof. by move=> x; apply: complex_eq => /=; ring. Qed.

Lemma mulcDl : left_distributive mulc addc.
Proof. by move=> x y z; apply: complex_eq => /=; ring. Qed.

Lemma onec_neq0 : of_real 1 != of_real 0 :> C.
Proof. by apply/eqP => -[] /eqP; rewrite oner_eq0. Qed.

HB.instance Definition _ :=
  GRing.Zmodule_isComNzRing.Build C mulcA mulcC mul1c mulcDl onec_neq0.

End ComplexRing.

(** ** roots2coeffs *)

(** itertools.combinations(s, k): the [k]-element subsequences of [s], in
    lexicographic order of positions. *)
Fixpoint combinations (T : Type) (s : seq T) (k : nat) : seq (seq T) :=
  match k, s with
  | 0, _ => [:: [::]]
  | _.+1, [::] => [::]
  | k'.+1, x :: s' =>
      [seq x :: c | c <- combinations s' k'] ++ combinations s' k
  end.

Section Roots2Coeffs.

Variable R : comNzRingType.

(** The body of the loop, for one [i]. *)
Definition vieta_step (roots coeffs : seq R) (i : nat) : seq R :=
  let a := combinations roots i in
  let prods := [seq \prod_(x <- c) x | c <- a] in
  let s := \sum_(p <- prods) p in
  set_nth 0 coeffs i.-1 ((-1) ^+ i * s).

Definition roots2coeffs (roots : seq R) : seq R :=
  let n := size roots in
  foldl (vieta_step roots) (nseq n 0) (iota 1 n).

(** The elementary symmetric polynomial of degree [k], the way the spec
    words it: the sum over all [k]-element subsets of the product. *)
Definition elem_sym (k : nat) (roots : seq R) : R :=
  \sum_(c <- combinations roots k) \prod_(x <- c) x.

End Roots2Coeffs.

(** ** numpy arrays of dimension at most two *)

Section Numpy.

Variable F : realFieldType.

(** [Arr2 c rows] has shape [(size rows, c)]: the column count is kept
    apart because an array may have no row. *)
Inductive ndarray :=
| Arr0 of F
| Arr1 of seq F
| Arr2 of nat & seq (seq F).

Definition shape (a : ndarray) : seq nat :=
  match a with
  | Arr0 _ => [::]
  | Arr1 v => [:: size v]
  | Arr2 c rows => [:: size rows; c]
  end.

(** Every row of a 2-d array has the declared length. *)
Definition wf_rows (c : nat) (rows : seq (seq F)) : bool :=
  all (fun r => size r == c) rows.

Definition wf (a : ndarray) : bool :=
  if a is Arr2 c rows then wf_rows c rows else true.

(** [is_mat m n a]: [a] is a well-formed array of shape [(m, n)]. *)
Definition is_mat (m n : nat) (a : ndarray) : bool :=
  if a is Arr2 c rows then [&& c == n, size rows == m & wf_rows n rows]
  else false.

Definition zeros1 (n : nat) : seq F := nseq n 0.
Definition zeros2 (m n : nat) : seq (seq F) := nseq m (zeros1 n).

(** np.shape(a)[0] *)
Definition shape0 (a : ndarray) : result nat :=
  match a with
  | Arr0 _ => Raise IndexError
  | Arr1 v => Ok (size v)
  | Arr2 _ rows => Ok (size rows)
  end.

(** a[i] for an index known to be in range *)
Definition getitem (a : ndarray) (i : nat) : result ndarray :=
  match a with
  | Arr0 _ => Raise IndexError
  | Arr1 v => if (i < size v)%N then Ok (Arr0 (nth 0 v i)) else Raise IndexError
  | Arr2 _ rows =>
      if (i < size rows)%N then Ok (Arr1 (nth [::] rows i))
      else Raise IndexError
  end.

(** *** Broadcasting *)

(** Broadcast of two axis lengths. *)
Definition bdim (c k : nat) : result nat :=
  if c == k then Ok c
  else if c == 1%N then Ok k
  else if k == 1%N then Ok c
  else Raise ValueError.

(** Elementwise operation on two 1-d arrays. *)
Definition bcast1 (op : F -> F -> F) (v w : seq F) : result (seq F) :=
  if size v == size w then Ok [seq op p.1 p.2 | p <- zip v w]
  else if size v == 1%N then Ok [seq op (head 0 v) y | y <- w]
  else if size w == 1%N then Ok [seq op x (head 0 w) | x <- v]
  else Raise ValueError.

(** The same along the first axis of two 2-d arrays. *)
Definition bcast_rows (op : F -> F -> F) (r1 r2 : seq (seq F))
  : result (seq (seq F)) :=
  if size r1 == size r2 then mapM (fun p => bcast1 op p.1 p.2) (zip r1 r2)
  else if size r1 == 1%N then mapM (bcast1 op (head [::] r1)) r2
  else if size r2 == 1%N then mapM (fun r => bcast1 op r (head [::] r2)) r1
  else Raise ValueError.

(** Elementwise binary operation with numpy's broadcasting. *)
Definition broadcast (op : F -> F -> F) (a b : ndarray) : result ndarray :=
  match a, b with
  | Arr0 x, Arr0 y => Ok (Arr0 (op x y))
  | Arr0 x, Arr1 w => Ok (Arr1 [seq op x y | y <- w])
  | Arr1 v, Arr0 y => Ok (Arr1 [seq op x y | x <- v])
  | Arr0 x, Arr2 c rows => Ok (Arr2 c [seq [seq op x y | y <- r] | r <- rows])
  | Arr2 c rows, Arr0 y => Ok (Arr2 c [seq [seq op x y | x <- r] | r <- rows])
  | Arr1 v, Arr1 w => r <- bcast1 op v w ;; Ok (Arr1 r)
  | Arr2 c rows, Arr1 w =>
      c' <- bdim c (size w) ;;
      rows' <- mapM (fun r => bcast1 op r w) rows ;;
      Ok (Arr2 c' rows')
  | Arr1 v, Arr2 c rows =>
      c' <- bdim (size v) c ;;
      rows' <- mapM (bcast1 op v) rows ;;
      Ok (Arr2 c' rows')
  | Arr2 c1 rows1, Arr2 c2 rows2 =>
      c' <- bdim c1 c2 ;;
      rows' <- bcast_rows op rows1 rows2 ;;
      Ok (Arr2 c' rows')
  end.

Definition np_mul := broadcast *%R.
Definition np_add := broadcast +%R.

(** a.squeeze(): drop the axes of length one. *)
Definition squeeze (a : ndarray) : ndarray :=
  match a with
  | Arr0 x => Arr0 x
  | Arr1 v => if size v == 1%N then Arr0 (head 0 v) else Arr1 v
  | Arr2 c rows =>
      if size rows == 1%N then
        if c == 1%N then Arr0 (head 0 (head [::] rows))
        else Arr1 (head [::] rows)
      else if c == 1%N then Arr1 [seq head 0 r | r <- rows]
      else Arr2 c rows
  end.

Definition dot (v w : seq F) : F := \sum_(p <- zip v w) p.1 * p.2.

(** a @ x for a 1-d right operand. *)
Definition matmul_vec (a : ndarray) (x : seq F) : result ndarray :=
  match a with
  | Arr0 _ => Raise ValueError
  | Arr1 v => if size v == size x then Ok (Arr0 (dot v x)) else Raise ValueError
  | Arr2 c rows =>
      if c == size x then Ok (Arr1 [seq dot r x | r <- rows])
      else Raise ValueError
  end.

(** The value stored by [arr[i] = val] into a row of length [n]: [val] is
    broadcast to shape [(n,)], leading axes of length one being dropped. *)
Definition broadcast_to_row (n : nat) (val : ndarray) : result (seq F) :=
  let from1 (w : seq F) :=
    if size w == n then Ok w
    else if size w == 1%N then Ok (nseq n (head 0 w))
    else Raise ValueError in
  match val with
  | Arr0 x => Ok (nseq n x)
  | Arr1 w => from1 w
  | Arr2 c rows =>
      if size rows == 1%N then from1 (head [::] rows) else Raise ValueError
  end.

(** ** make_state_trace *)

(** One iteration of the loop body, on the rows of [state_trace]. *)
Definition trace_step (n_states : nat) (a_matrix b_matrix inpt : ndarray)
    (state_trace : seq (seq F)) (i : nat) : result (seq (seq F)) :=
  ax <- matmul_vec a_matrix (nth [::] state_trace i) ;;
  u <- getitem inpt i ;;
  bu <- np_mul b_matrix u ;;
  s <- np_add ax (squeeze bu) ;;
  r <- broadcast_to_row n_states s ;;
  Ok (set_nth [::] state_trace i.+1 r).

Definition make_state_trace (a_matrix b_matrix inpt : ndarray)
    (initial_state : option ndarray) : result ndarray :=
  n_states <- shape0 a_matrix ;;
  n_timesteps <- shape0 inpt ;;
  let state_trace := zeros2 n_timesteps.+1 n_states in
  x0 <- broadcast_to_row n_states
          (if initial_state is Some x then x else Arr1 (zeros1 n_states)) ;;
  let state_trace := set_nth [::] state_trace 0 x0 in
  rows <- foldM (trace_step n_states a_matrix b_matrix inpt)
            state_trace (iota 0 n_timesteps) ;;
  Ok (Arr2 n_states rows).

(** The recurrence x[i+1] = A x[i] + B u[i] written on rows: the spec's
    reading of the simulator, to be compared with [make_state_trace]. *)
Definition next_state (rowsA rowsB : seq (seq F)) (x u : seq F) : seq F :=
  [seq dot p.1 x + dot p.2 u | p <- zip rowsA rowsB].

Fixpoint linear_recurrence (rowsA rowsB : seq (seq F)) (x : seq F)
    (us : seq (seq F)) : seq (seq F) :=
  x :: (if us is u :: us' then
          linear_recurrence rowsA rowsB (next_state rowsA rowsB x u) us'
        else [::]).

(** *** Transposition and general matrix product *)

(** The columns of a 2-d array with [c] columns. *)
Definition transpose (c : nat) (rows : seq (seq F)) : seq (seq F) :=
  mkseq (fun j => [seq nth 0 r j | r <- rows]) c.

(** a.T *)
Definition np_T (a : ndarray) : ndarray :=
  if a is Arr2 c rows then Arr2 (size rows) (transpose c rows) else a.

(** a @ b *)
Definition matmul (a b : ndarray) : result ndarray :=
  match b with
  | Arr0 _ => Raise ValueError
  | Arr1 x => matmul_vec a x
  | Arr2 c rows =>
      match a with
      | Arr0 _ => Raise ValueError
      | Arr1 v =>
          if size v == size rows then
            Ok (Arr1 [seq dot v col | col <- transpose c rows])
          else Raise ValueError
      | Arr2 c1 rows1 =>
          if c1 == size rows then
            Ok (Arr2 c [seq [seq dot r col | col <- transpose c rows]
                       | r <- rows1])
          else Raise ValueError
      end
  end.

(** np.identity(n) *)
Definition identity (n : nat) : ndarray :=
  Arr2 n (mkseq (fun i => mkseq (fun j => (i == j)%:R : F) n) n).

(** np.shape(a)[1] *)
Definition shape1 (a : ndarray) : result nat :=
  if a is Arr2 c _ then Ok c else Raise IndexError.

(** np.concatenate((a, b), axis=1) *)
Definition concatenate_axis1 (a b : ndarray) : result ndarray :=
  match a, b with
  | Arr2 c1 rows1, Arr2 c2 rows2 =>
      if size rows1 == size rows2 then
        Ok (Arr2 (c1 + c2) [seq p.1 ++ p.2 | p <- zip rows1 rows2])
      else Raise ValueError
  | _, _ => Raise ValueError
  end.

(** a[:n] and a[n:] along the first axis *)
Definition slice_to (n : nat) (a : ndarray) : result ndarray :=
  match a with
  | Arr0 _ => Raise IndexError
  | Arr1 v => Ok (Arr1 (take n v))
  | Arr2 c rows => Ok (Arr2 c (take n rows))
  end.

Definition slice_from (n : nat) (a : ndarray) : result ndarray :=
  match a with
  | Arr0 _ => Raise IndexError
  | Arr1 v => Ok (Arr1 (drop n v))
  | Arr2 c rows => Ok (Arr2 c (drop n rows))
  end.

(** ** Arrays as matrices, and the linear-algebra primitives *)

Definition mx_of_rows (m n : nat) (rows : seq (seq F)) : 'M[F]_(m, n) :=
  \matrix_(i, j) nth 0 (nth [::] rows i) j.

Definition rows_of_mx (m n : nat) (M : 'M[F]_(m, n)) : seq (seq F) :=
  [seq [seq M i j | j <- enum 'I_n] | i <- enum 'I_m].

(** Squared Frobenius norm. *)
Definition frob2 m n (M : 'M[F]_(m, n)) : F := \sum_i \sum_j M i j ^+ 2.

(** The Moore-Penrose pseudo-inverse of [C *m R], for [C] of full column
    rank and [R] of full row rank. *)
Definition pinv_of m r n (C : 'M[F]_(m, r)) (R : 'M[F]_(r, n)) : 'M[F]_(n, m) :=
  R^T *m invmx (R *m R^T) *m invmx (C^T *m C) *m C^T.

(** Every matrix has the rank factorisation
    [A = col_base A *m row_base A]. *)
Definition pinv m n (A : 'M[F]_(m, n)) : 'M[F]_(n, m) :=
  pinv_of (col_base A) (row_base A).

(** numpy.linalg.lstsq(a, b, rcond=None)[0] in exact arithmetic: the
    least-squares solution of minimum norm, [pinv a @ b]. *)
Definition lstsq_mx m n k (A : 'M[F]_(m, n)) (B : 'M[F]_(m, k))
  : 'M[F]_(n, k) :=
  pinv A *m B.

Definition lstsq (a b : ndarray) : result ndarray :=
  match a, b with
  | Arr2 n rowsA, Arr2 k rowsB =>
      if size rowsA == size rowsB then
        let m := size rowsA in
        Ok (Arr2 k (rows_of_mx
                      (lstsq_mx (mx_of_rows m n rowsA) (mx_of_rows m k rowsB))))
      else Raise LinAlgError
  | Arr2 n rowsA, Arr1 v =>
      if size rowsA == size v then
        let m := size rowsA in
        Ok (Arr1 [seq head 0 r
                 | r <- rows_of_mx
                          (lstsq_mx (mx_of_rows m n rowsA)
                             (mx_of_rows m 1 [seq [:: y] | y <- v]))])
      else Raise LinAlgError
  | _, _ => Raise LinAlgError
  end.

(** numpy.linalg.inv *)
Definition np_inv (a : ndarray) : result ndarray :=
  match a with
  | Arr2 c rows =>
      if c == size rows then
        let M := mx_of_rows c c rows in
        if M \in unitmx then Ok (Arr2 c (rows_of_mx (invmx M)))
        else Raise LinAlgError
      else Raise LinAlgError
  | _ => Raise LinAlgError
  end.

(** ** identify_system *)

Definition identify_system (state_trace inpt : ndarray)
  : result (ndarray * ndarray) :=
  n_states <- shape1 state_trace ;;
  match state_trace with
  | Arr2 c rows =>
      let lsq_b := Arr2 c (behead rows) in
      lsq_a <- concatenate_axis1 (Arr2 c (take (size rows).-1 rows)) inpt ;;
      ab_identified <- lstsq lsq_a lsq_b ;;
      a_identified <- slice_to n_states ab_identified ;;
      b_identified <- slice_from n_states ab_identified ;;
      Ok (a_identified, b_identified)
  | _ => Raise IndexError
  end.

(** The regression problem set up by [identify_system] for a trace [X]
    with [T] steps and an input [U]: design matrix [[X[0..T-1] | U]],
    target [X[1..T]], and the squared residual of a coefficient block. *)
Definition regressors T n p (X U : seq (seq F)) : 'M[F]_(T, n + p) :=
  row_mx (mx_of_rows T n X) (mx_of_rows T p U).

Definition targets T n (X : seq (seq F)) : 'M[F]_(T, n) :=
  mx_of_rows T n (behead X).

Definition residual2 T n p (X U : seq (seq F)) (M : 'M[F]_(n + p, n)) : F :=
  frob2 (regressors T n p X U *m M - targets T n X).

(** The rows of a 2-d array, and the array read as an [m] x [n] matrix. *)
Definition rows_of (a : ndarray) : seq (seq F) :=
  if a is Arr2 _ rows then rows else [::].

Definition as_mx (m n : nat) (a : ndarray) : 'M[F]_(m, n) :=
  mx_of_rows m n (rows_of a).

(** The residual in the words of the spec: the sum over the steps [i] of
    the squared norm of [X[i+1] - (Ahat X[i] + Bhat U[i])]. *)
Definition recurrence_residual2 T n p (X U : seq (seq F))
    (Ahat : 'M[F]_(n, n)) (Bhat : 'M[F]_(n, p)) : F :=
  \sum_(i < T) \sum_(j < n)
    (nth 0 (nth [::] X i.+1) j
     - (\sum_(k < n) Ahat j k * nth 0 (nth [::] X i) k
        + \sum_(l < p) Bhat j l * nth 0 (nth [::] U i) l)) ^+ 2.

(** ** Controllable canonical form *)

(** a[i, j] = v on the rows of a 2-d array *)
Definition set2 (rows : seq (seq F)) (i j : nat) (v : F) : seq (seq F) :=
  set_nth [::] rows i (set_nth 0 (nth [::] rows i) j v).

Definition make_ccf_system_from_eigenvalues (eigvals : seq (complex F))
  : result (ndarray * ndarray) :=
  let n_states := size eigvals in
  let a_matrix := zeros2 n_states n_states in
  let coeffs := roots2coeffs eigvals in
  let a_matrix :=
    foldl (fun a i => set2 a i i.+1 1) a_matrix (iota 0 n_states.-1) in
  let a_matrix :=
    foldl (fun a i =>
             set2 a n_states.-1 (n_states.-1 - i) (- np_real (nth 0 coeffs i)))
      a_matrix (iota 0 n_states) in
  let b_matrix := zeros2 n_states 1 in
  if n_states == 0%N then Raise IndexError
  else
    let b_matrix := set2 b_matrix n_states.-1 0 1 in
    Ok (Arr2 n_states a_matrix, Arr2 1 b_matrix).

(** A loop of writes [a[pos k] = val k] for [k] in [s]. *)
Definition writes (pos : nat -> nat * nat) (val : nat -> F)
    (a : seq (seq F)) (s : seq nat) : seq (seq F) :=
  foldl (fun a k => set2 a (pos k).1 (pos k).2 (val k)) a s.

(** The controllable canonical form built from the coefficients
    [a_1 .. a_n]: ones on the super-diagonal, the last row equal to the
    negated coefficients in reverse order, zeros elsewhere, and the input
    matrix selecting the last state. *)
Definition companion_form (coeffs : seq (complex F))
    (a_matrix b_matrix : ndarray) : Prop :=
  let n := size coeffs in
  [/\ is_mat n n a_matrix /\ is_mat n 1 b_matrix,
      forall i, (i.+1 < n)%N -> nth 0 (nth [::] (rows_of a_matrix) i) i.+1 = 1,
      forall i j, (i.+1 < n)%N -> j != i.+1 ->
        nth 0 (nth [::] (rows_of a_matrix) i) j = 0,
      forall i, (i < n)%N ->
        nth 0 (nth [::] (rows_of a_matrix) n.-1) (n.-1 - i)
        = - np_real (nth 0 coeffs i)
    & forall j, (j < n)%N ->
        nth 0 (nth [::] (rows_of b_matrix) j) 0 = (j == n.-1)%:R].

(** ** Randomised routines

    The ambient random generator is an explicit state [rng]; a draw
    returns the sample and the next state. *)

Section Random.

Variable rng : Type.
Variable next_uniform : rng -> F * rng.  (* one sample of U[0,1) *)
Variable next_normal : rng -> F * rng.   (* one sample of N(0,1) *)
Variables (sqrt cos sin : F -> F) (pi : F).

Fixpoint draws (next : rng -> F * rng) (k : nat) (g : rng) : seq F * rng :=
  if k is k'.+1 then
    let: (x, g1) := next g in
    let: (xs, g2) := draws next k' g1 in
    (x :: xs, g2)
  else ([::], g).

Fixpoint draws2 (next : rng -> F * rng) (m n : nat) (g : rng)
  : seq (seq F) * rng :=
  if m is m'.+1 then
    let: (r, g1) := draws next n g in
    let: (rs, g2) := draws2 next m' n g1 in
    (r :: rs, g2)
  else ([::], g).

(** np.random.rand(k) and np.random.rand(m, n) *)
Definition rand := draws next_uniform.
Definition rand2 := draws2 next_uniform.

(** np.random.normal(loc, scale, size=(m, n)) *)
Definition normal2 (loc scale : F) (m n : nat) (g : rng) : seq (seq F) * rng :=
  let: (zs, g') := draws2 next_normal m n g in
  ([seq [seq loc + scale * z | z <- r] | r <- zs], g').


Definition transform_state_trace (state_trace : ndarray)
    (transformation_matrix : option ndarray) (g : rng)
  : result (ndarray * rng) :=
  n_states <- shape1 state_trace ;;
  let* '(t_mat, g') :=
    if transformation_matrix is Some t then Ok (t, g)
    else
      let: (r, g') := rand2 n_states n_states g in
      t <- np_add (Arr2 n_states r) (identity n_states) ;; Ok (t, g') in
  transformed_state_trace <- matmul state_trace (np_T t_mat) ;;
  Ok (transformed_state_trace, g').

Definition corrupt_state_trace (state_trace : ndarray) (noise_std : F)
    (g : rng) : result (ndarray * rng) :=
  let: (noise, g') :=
    match state_trace with
    | Arr0 _ =>
        let: (z, g') := next_normal g in (Arr0 (0 + noise_std * z), g')
    | Arr1 v =>
        let: (zs, g') := draws next_normal (size v) g in
        (Arr1 [seq 0 + noise_std * z | z <- zs], g')
    | Arr2 c rows =>
        let: (zs, g') := normal2 0 noise_std (size rows) c g in
        (Arr2 c zs, g')
    end in
  corrupted_state_trace <- np_add state_trace noise ;;
  Ok (corrupted_state_trace, g').

(** scipy.linalg.block_diag: every block is first made 2-d. *)
Definition atleast_2d (a : ndarray) : nat * seq (seq F) :=
  match a with
  | Arr0 x => (1%N, [:: [:: x]])
  | Arr1 v => (size v, [:: v])
  | Arr2 c rows => (c, rows)
  end.

Fixpoint block_diag_rows (total left : nat) (blocks : seq (nat * seq (seq F)))
  : seq (seq F) :=
  if blocks is (c, rows) :: blocks' then
    [seq nseq left 0 ++ r ++ nseq (total - left - c) 0 | r <- rows]
    ++ block_diag_rows total (left + c) blocks'
  else [::].

Definition block_diag (blocks : seq ndarray) : ndarray :=
  if blocks is [::] then Arr2 0 [:: [::]]
  else
    let bs := [seq atleast_2d b | b <- blocks] in
    let total := sumn [seq b.1 | b <- bs] in
    Arr2 total (block_diag_rows total 0 bs).

Definition make_random_system_from_eigenvalues (eigvals_real : seq F)
    (eigvals_complex : seq (complex F)) (n_inputs : nat) (g : rng)
  : result (ndarray * ndarray * rng) :=
  let n_states := (size eigvals_real + 2 * size eigvals_complex)%N in
  let diag_blocks :=
    [seq Arr2 1 [:: [:: z]] | z <- eigvals_real]
    ++ [seq (let a := np_real z in let b := np_imag z in
             Arr2 2 [:: [:: a; b]; [:: - b; a]]) | z <- eigvals_complex] in
  let mcf_mat := block_diag diag_blocks in
  let: (r, g1) := rand2 n_states n_states g in
  t_mat <- np_add (Arr2 n_states r) (identity n_states) ;;
  t_inv <- np_inv t_mat ;;
  m <- matmul t_inv mcf_mat ;;
  a_matrix <- matmul m t_mat ;;
  let: (rb, g2) := rand2 n_states n_inputs g1 in
  let b_matrix := Arr2 n_inputs rb in
  Ok (a_matrix, b_matrix, g2).

(** np.exp(1j * theta) *)
Definition exp_i (theta : F) : complex F := Complex (cos theta) (sin theta).

Definition make_random_system (n_states n_inputs : nat) (z_min z_max : F)
    (must_have_real_eigenvalues : seq F)
    (must_have_complex_eigenvalues : seq (complex F)) (ccf : bool) (g : rng)
  : result (ndarray * ndarray * rng) :=
  let n_random : int :=
    n_states%:Z - (size must_have_real_eigenvalues)%:Z
    - 2 * (size must_have_complex_eigenvalues)%:Z in
  if ~~ (0 < n_random) then Raise (AssertionError "no random eigenvalues")
  else
    let n_real := (`|n_random| %% 2)%N in
    let n_conj_pairs := (`|n_random| %/ 2)%N in
    let: (r1, g1) := rand n_conj_pairs g in
    let z_mags :=
      [seq sqrt (z_min ^+ 2 + r * (z_max ^+ 2 - z_min ^+ 2)) | r <- r1] in
    let: (r2, g2) := rand n_conj_pairs g1 in
    let z_angles := [seq 2 * pi * r | r <- r2] in
    let z_random_complex :=
      [seq of_real p.1 * exp_i p.2 | p <- zip z_mags z_angles] in
    let z_complex := z_random_complex ++ must_have_complex_eigenvalues in
    let z_real := must_have_real_eigenvalues in
    let: (z_real, g3) :=
      if n_real != 0%N then
        let: (r3, g3) := rand n_real g2 in
        let z_random_real := [seq z_min + r * (z_max - z_min) | r <- r3] in
        (z_real ++ z_random_real, g3)
      else (z_real, g2) in
    if ccf then
      let z := z_complex ++ [seq of_real x | x <- z_real] in
      let* '(a_matrix, b_matrix) := make_ccf_system_from_eigenvalues z in
      Ok (a_matrix, b_matrix, g3)
    else make_random_system_from_eigenvalues z_real z_complex 1 g3.

End Random.

End Numpy.

(** ** Data of a worked example over the rationals

    The system A = [[0, 0], [1, 0]], B = [[0], [1]], started at (1, 0) and
    driven by the input 0, 0, 1; its trace [exX]; the change of
    coordinates P = identity; and a random generator that always draws 0. *)

Definition exA : seq (seq rat) := [:: [:: 0; 0]; [:: 1; 0]].
Definition exB : seq (seq rat) := [:: [:: 0]; [:: 1]].
Definition exU : seq (seq rat) := [:: [:: 0]; [:: 0]; [:: 1]].
Definition ex0 : seq rat := [:: 1; 0].
Definition exX : seq (seq rat) :=
  [:: [:: 1; 0]; [:: 0; 1]; [:: 0; 0]; [:: 0; 1]].
Definition exP : seq (seq rat) := [:: [:: 1; 0]; [:: 0; 1]].
Definition next0 (g : unit) : rat * unit := (0, g).

(** The input vector b = (0, 1) as a 1-d array, and the conjugate pair
    i, -i. *)
Definition exb : seq rat := [:: 0; 1].
Definition exI : seq (complex rat) := [:: Complex 0 1; Complex 0 (- 1)].

(** ** Notions used to state further properties *)

Section Notions.

Variable F : realFieldType.

(** Entrywise sums of two vectors and of two lists of rows. *)
Definition addv (x y : seq F) : seq F := [seq p.1 + p.2 | p <- zip x y].

Definition addm (X Y : seq (seq F)) : seq (seq F) :=
  [seq addv p.1 p.2 | p <- zip X Y].

(** x_trace[:, :q]: the first q columns of a 2-d array. *)
Definition slice_cols (q : nat) (a : ndarray F) : result (ndarray F) :=
  if a is Arr2 c rows then Ok (Arr2 (minn q c) [seq take q r | r <- rows])
  else Raise IndexError.

(** The complex conjugate. *)
Definition conjc (z : complex F) : complex F :=
  Complex (np_real z) (- np_imag z).

(** The monic real polynomial with roots z and its conjugate. *)
Definition pair_poly (z : complex F) : {poly F} :=
  'X^2 - (2 * np_real z) *: 'X + (np_real z ^+ 2 + np_imag z ^+ 2)%:P.

(** Blocks as scipy.linalg.block_diag receives them from the generator:
    square and well formed. *)
Definition square_blocks (blocks : seq (nat * seq (seq F))) : bool :=
  all (fun q => (size q.2 == q.1) && wf_rows q.1 q.2) blocks.

(** The diagonal blocks of the modal form built by
    make_random_system_from_eigenvalues, as block_diag sees them. *)
Definition modal_blocks (zr : seq F) (zc : seq (complex F))
  : seq (nat * seq (seq F)) :=
  [seq (1%N, [:: [:: x]]) | x <- zr]
  ++ [seq (2%N, [:: [:: np_real z; np_imag z]; [:: - np_imag z; np_real z]])
     | z <- zc].

(** The random complex eigenvalues that make_random_system draws from
    the uniform samples [r1] (for the magnitudes) and [r2] (for the
    angles). *)
Definition random_pairs (sqrt cos sin : F -> F) (pi z_min z_max : F)
    (r1 r2 : seq F) : seq (complex F) :=
  [seq of_real (sqrt (z_min ^+ 2 + q.1 * (z_max ^+ 2 - z_min ^+ 2)))
       * exp_i cos sin (2 * pi * q.2)
  | q <- zip r1 r2].

End Notions.

(** The embedding of the reals and the conjugate are ring morphisms. *)

Section ComplexMorphisms.

Variable F : realFieldType.
Local Notation C := (complex F).
Implicit Types (z w : C) (x y : F).

Lemma of_real_is_zmod_morphism : zmod_morphism (@of_real F).
Proof. by move=> x y; apply: complex_eq; rewrite /= ?subrr. Qed.

Lemma of_real_is_monoid_morphism : monoid_morphism (@of_real F).
Proof.
by split=> // x y; apply: complex_eq; rewrite /= !(mulr0, mul0r, subr0, addr0).
Qed.

HB.instance Definition _ :=
  GRing.isZmodMorphism.Build F C (@of_real F) of_real_is_zmod_morphism.
HB.instance Definition _ :=
  GRing.isMonoidMorphism.Build F C (@of_real F) of_real_is_monoid_morphism.

Lemma conjc_is_zmod_morphism : zmod_morphism (@conjc F).
Proof. by move=> z w; apply: complex_eq => //=; ring. Qed.

Lemma conjc_is_monoid_morphism : monoid_morphism (@conjc F).
Proof.
split=> [|z w]; apply: complex_eq; rewrite /= ?oppr0 //; ring.
Qed.

HB.instance Definition _ :=
  GRing.isZmodMorphism.Build C C (@conjc F) conjc_is_zmod_morphism.
HB.instance Definition _ :=
  GRing.isMonoidMorphism.Build C C (@conjc F) conjc_is_monoid_morphism.

Lemma conjc_fixed z : conjc z = z -> np_imag z = 0.
Proof.
case: z => a b [] /eqP; rewrite /= eq_sym -subr_eq0 opprK -mulr2n.
by rewrite mulrn_eq0 /= => /eqP.
Qed.

End ComplexMorphisms.

(** ** Generic facts on the error monad *)

Lemma mapM_ok (T : eqType) U (f : T -> result U) (g : T -> U) (s : seq T) :
  {in s, forall x, f x = Ok (g x)} -> mapM f s = Ok [seq g x | x <- s].
Proof.
elim: s => [//|x s IH] Hs /=.
rewrite Hs ?mem_head //= IH // => y ys.
by apply: Hs; rewrite in_cons ys orbT.
Qed.

Lemma foldM_raise T S (f : S -> T -> result S) st x s e :
  f st x = Raise e -> foldM f st (x :: s) = Raise e.
Proof. by move=> /= ->. Qed.

(** ** The trajectory simulator *)

Section TraceFacts.

Variable F : realFieldType.
Implicit Types (x u v w : seq F) (rows rowsA rowsB rowsU st : seq (seq F)).

Lemma wf_rowsP c rows :
  reflect {in rows, forall r, size r = c} (wf_rows c rows).
Proof.
by apply: (iffP allP) => H r /H => [/eqP|->].
Qed.

Lemma wf_rows_nth c rows i :
  wf_rows c rows -> (i < size rows)%N -> size (nth [::] rows i) = c.
Proof. by move=> /wf_rowsP H Hi; apply: H; apply: mem_nth. Qed.

Lemma dot1 (b u0 : F) : dot [:: b] [:: u0] = b * u0.
Proof. by rewrite /dot /= big_cons big_nil addr0. Qed.

Lemma size1P (T : Type) (x0 : T) (s : seq T) :
  size s = 1%N -> s = [:: head x0 s].
Proof. by case: s => [|y [|z s]]. Qed.

Lemma np_mul_col rowsB (u0 : F) :
  wf_rows 1 rowsB ->
  np_mul (Arr2 1 rowsB) (Arr1 [:: u0])
  = Ok (Arr2 1 [seq [:: y] | y <- [seq head 0 r * u0 | r <- rowsB]]).
Proof.
move=> /wf_rowsP wfB; rewrite /np_mul /= /bdim /= -map_comp.
rewrite (mapM_ok (g := fun r => [:: head 0 r * u0])) // => r /wfB sr.
rewrite /bcast1 sr /=. rewrite {1}(size1P 0 sr) /=. done.
Qed.
Lemma np_add_squeeze_col (ax ys : seq F) :
  size ax = size ys ->
  np_add (Arr1 ax) (squeeze (Arr2 1 [seq [:: y] | y <- ys]))
  = Ok (Arr1 [seq p.1 + p.2 | p <- zip ax ys]).
Proof.
move=> sz; rewrite /squeeze size_map eqxx.
case: ifP => [/eqP s1|_].
  by case: ys ax s1 sz => [|y [|? ?]] // [|a [|? ?]].
rewrite -map_comp (@eq_map _ _ _ id) ?map_id //.
by rewrite /np_add /= /bcast1 sz eqxx.
Qed.


Lemma zip_map2 (A B C D : Type) (f : A -> C) (g : B -> D) s t :
  zip (map f s) (map g t) = [seq (f p.1, g p.2) | p <- zip s t].
Proof. by elim: s t => [|a s IH] [|b t] //=; rewrite IH. Qed.

Lemma mem_zipr (A B : eqType) (s : seq A) (t : seq B) a b :
  (a, b) \in zip s t -> b \in t.
Proof.
elim: s t => [|x s IH] [|y t] //=; rewrite !in_cons.
by case/orP=> [/eqP[_ ->]|/IH->]; rewrite ?eqxx ?orbT.
Qed.

Lemma bindOk T U (x : T) (k : T -> result U) : bind (Ok x) k = k x.
Proof. by []. Qed.

Lemma matmul_vec_mat n rowsA x :
  size x = n ->
  matmul_vec (Arr2 n rowsA) x = Ok (Arr1 [seq dot r x | r <- rowsA]).
Proof. by move=> sx; rewrite /matmul_vec sx eqxx. Qed.

Lemma getitem_row c rows k :
  (k < size rows)%N -> getitem (Arr2 c rows) k = Ok (Arr1 (nth [::] rows k)).
Proof. by rewrite /getitem => ->. Qed.

Lemma broadcast_to_row_vec n w :
  size w = n -> broadcast_to_row n (Arr1 w) = Ok w.
Proof. by rewrite /broadcast_to_row => ->; rewrite eqxx. Qed.

Lemma trace_step_single_input n T rowsA rowsB rowsU st k :
  is_mat n n (Arr2 n rowsA) -> is_mat n 1 (Arr2 1 rowsB) ->
  is_mat T 1 (Arr2 1 rowsU) ->
  (k < T)%N -> size (nth [::] st k) = n ->
  trace_step n (Arr2 n rowsA) (Arr2 1 rowsB) (Arr2 1 rowsU) st k
  = Ok (set_nth [::] st k.+1
          (next_state rowsA rowsB (nth [::] st k) (nth [::] rowsU k))).
Proof.
move=> /and3P[_ /eqP sA wfA] /and3P[_ /eqP sB wfB] /and3P[_ /eqP sU wfU] kT sx.
have su : size (nth [::] rowsU k) = 1%N by apply: wf_rows_nth; rewrite ?sU.
rewrite /trace_step matmul_vec_mat // bindOk getitem_row ?sU // bindOk.
rewrite (size1P 0 su) np_mul_col // bindOk.
rewrite np_add_squeeze_col ?size_map ?sA ?sB // bindOk.
have sz :
  size [seq p.1 + p.2
       | p <- zip [seq dot r (nth [::] st k) | r <- rowsA]
                [seq head 0 r * head 0 (nth [::] rowsU k) | r <- rowsB]] = n.
  by rewrite size_map size_zip !size_map sA sB minnn.
rewrite (broadcast_to_row_vec sz) bindOk.
congr (Ok (set_nth _ _ _ _)).
rewrite /next_state zip_map2 -map_comp; apply/eq_in_map => -[a b] /= ab.
have /(wf_rowsP _ _ wfB) sb : b \in rowsB.
  exact: mem_zipr ab.
by rewrite {2}(size1P 0 sb) dot1.
Qed.

Lemma size_next_state rowsA rowsB x u :
  size (next_state rowsA rowsB x u) = minn (size rowsA) (size rowsB).
Proof. by rewrite /next_state size_map size_zip. Qed.

Lemma linear_recurrence_head rowsA rowsB x us :
  linear_recurrence rowsA rowsB x us
  = x :: behead (linear_recurrence rowsA rowsB x us).
Proof. by case: us. Qed.

Lemma size_linear_recurrence rowsA rowsB x us :
  size (linear_recurrence rowsA rowsB x us) = (size us).+1.
Proof. by elim: us x => [|u us IH] x //=; rewrite IH. Qed.

Lemma nth_linear_recurrence rowsA rowsB x us i :
  (i < size us)%N ->
  nth [::] (linear_recurrence rowsA rowsB x us) i.+1
  = next_state rowsA rowsB (nth [::] (linear_recurrence rowsA rowsB x us) i)
      (nth [::] us i).
Proof.
elim: us x i => [|u us IH] x [|i] //=.
  by rewrite [linear_recurrence _ _ _ us]linear_recurrence_head.
by rewrite ltnS => /IH.
Qed.

Lemma trace_loop_single_input n T rowsA rowsB rowsU m k st :
  is_mat n n (Arr2 n rowsA) -> is_mat n 1 (Arr2 1 rowsB) ->
  is_mat T 1 (Arr2 1 rowsU) ->
  (k + m = T)%N -> size st = T.+1 -> size (nth [::] st k) = n ->
  foldM (trace_step n (Arr2 n rowsA) (Arr2 1 rowsB) (Arr2 1 rowsU)) st
    (iota k m)
  = Ok (take k.+1 st
        ++ behead (linear_recurrence rowsA rowsB (nth [::] st k)
                     (drop k rowsU))).
Proof.
move=> mA mB mU; elim: m k st => [|m IH] k st kT sst sx.
  move: kT; rewrite addn0 => ->; rewrite /= take_oversize ?sst //.
  case/and3P: mU => _ /eqP sU _.
  by rewrite drop_oversize ?sU //= cats0.
have kltT : (k < T)%N by rewrite -kT -addSnnS leq_addr.
rewrite /= (trace_step_single_input mA mB mU) //=.
set r := next_state _ _ _ _.
have sr : size r = n.
  rewrite size_next_state.
  by case/and3P: mA => _ /eqP-> _; case/and3P: mB => _ /eqP-> _; rewrite minnn.
have sst' : size (set_nth [::] st k.+1 r) = T.+1.
  by rewrite size_set_nth sst; apply/maxn_idPr; rewrite ltnS.
have kT' : (k.+1 + m = T)%N by rewrite addSnnS.
have nr : nth [::] (set_nth [::] st k.+1 r) k.+1 = r.
  by rewrite nth_set_nth /= eqxx.
rewrite (IH _ _ kT' sst') nr //; congr Ok.
case/and3P: (mU) => _ /eqP sU _.
rewrite [drop k rowsU](drop_nth [::]) ?sU //= -/r.
rewrite [linear_recurrence _ _ r _]linear_recurrence_head.
rewrite set_nthE sst ltnS kltT take_cat size_take sst ltnS kltT.
by rewrite ltnNge leqnSn /= subSnn /= take0 -catA.
Qed.

Lemma make_state_trace_single_input n T rowsA rowsB rowsU x0 :
  is_mat n n (Arr2 n rowsA) -> is_mat n 1 (Arr2 1 rowsB) ->
  is_mat T 1 (Arr2 1 rowsU) -> size x0 = n ->
  make_state_trace (Arr2 n rowsA) (Arr2 1 rowsB) (Arr2 1 rowsU)
    (Some (Arr1 x0))
  = Ok (Arr2 n (linear_recurrence rowsA rowsB x0 rowsU)).
Proof.
move=> mA mB mU sx0; rewrite /make_state_trace /=.
case/and3P: (mA) => _ /eqP sA _; case/and3P: (mU) => _ /eqP sU _.
rewrite sA sU sx0 eqxx /=.
rewrite (trace_loop_single_input (T := T) mA mB mU) //= ?size_nseq //.
by rewrite take0 drop0 /= -linear_recurrence_head.
Qed.

Lemma make_state_trace_single_input_origin n T rowsA rowsB rowsU :
  is_mat n n (Arr2 n rowsA) -> is_mat n 1 (Arr2 1 rowsB) ->
  is_mat T 1 (Arr2 1 rowsU) ->
  make_state_trace (Arr2 n rowsA) (Arr2 1 rowsB) (Arr2 1 rowsU) None
  = Ok (Arr2 n (linear_recurrence rowsA rowsB (zeros1 F n) rowsU)).
Proof.
move=> mA mB mU.
rewrite -(make_state_trace_single_input mA mB mU (x0 := zeros1 F n))
  ?size_nseq // /make_state_trace /=.
by case/and3P: mA => _ /eqP-> _.
Qed.

(** *** Other than one input: the elementwise product [b_matrix * inpt[i]]
    is not the matrix-vector product, and the row assignment fails. *)

Lemma np_mul_rows p rowsB u :
  wf_rows p rowsB -> size u = p ->
  np_mul (Arr2 p rowsB) (Arr1 u)
  = Ok (Arr2 p [seq [seq q.1 * q.2 | q <- zip r u] | r <- rowsB]).
Proof.
move=> /wf_rowsP wfB su; rewrite /np_mul /= /bdim su eqxx /=.
rewrite (mapM_ok (g := fun r => [seq q.1 * q.2 | q <- zip r u])) //.
move=> r /wfB sr.
by rewrite /bcast1 sr su eqxx.
Qed.

Lemma store_multi_input_raises n p (ax : seq F) rows :
  p != 1%N -> size ax = n -> size rows = n -> wf_rows p rows ->
  (s <- np_add (Arr1 ax) (squeeze (Arr2 p rows)) ;; broadcast_to_row n s)
  = Raise ValueError.
Proof.
move=> p1 sax srows /wf_rowsP wfr.
have pN1 : (p == 1%N) = false by apply: negbTE.
rewrite /squeeze srows pN1; case: ifP => [/eqP n1|nN1].
  have sh : size (head [::] rows) = p.
    apply: wfr; move: srows; rewrite n1.
    by case: rows => [|r rows] //= _; rewrite mem_head.
  rewrite /np_add /= /bcast1 sax sh n1 eq_sym pN1 /= size_map sh.
  by rewrite pN1.
rewrite /np_add /= /bdim sax nN1 pN1.
case: ifP => [/eqP np|//] /=.
rewrite (mapM_ok (g := fun r => [seq q.1 + q.2 | q <- zip ax r])) /=.
  by move=> r /wfr sr; rewrite /bcast1 sax sr np eqxx.
by rewrite size_map srows nN1.
Qed.

Lemma trace_step_multi_input_raises n p T rowsA rowsB rowsU st k :
  is_mat n n (Arr2 n rowsA) -> is_mat n p (Arr2 p rowsB) ->
  is_mat T p (Arr2 p rowsU) -> p != 1%N ->
  (k < T)%N -> size (nth [::] st k) = n ->
  trace_step n (Arr2 n rowsA) (Arr2 p rowsB) (Arr2 p rowsU) st k
  = Raise ValueError.
Proof.
move=> /and3P[_ /eqP sA wfA] /and3P[_ /eqP sB wfB] /and3P[_ /eqP sU wfU].
move=> p1 kT sx.
have su : size (nth [::] rowsU k) = p by apply: wf_rows_nth; rewrite ?sU.
rewrite /trace_step matmul_vec_mat // bindOk getitem_row ?sU // bindOk.
rewrite np_mul_rows // bindOk.
set ax := map _ rowsA; set rows := map _ rowsB.
have := @store_multi_input_raises n p ax rows p1.
rewrite !size_map sA sB => /(_ erefl erefl).
have wfr : wf_rows p rows.
  apply/wf_rowsP => r /mapP[b /(wf_rowsP _ _ wfB) sb ->].
  by rewrite size_map size_zip sb su minnn.
by move=> /(_ wfr); case: (np_add _ _) => [s|e] /= => [->|[->]].
Qed.

Lemma broadcast_to_row_error n (a : ndarray F) :
  (exists2 r, broadcast_to_row n a = Ok r & size r = n)
  \/ broadcast_to_row n a = Raise ValueError.
Proof.
have from1 w : (exists2 r, (if size w == n then Ok w
        else if size w == 1%N then Ok (nseq n (head 0 w))
        else Raise ValueError) = Ok r & size r = n)
    \/ (if size w == n then Ok w
        else if size w == 1%N then Ok (nseq n (head 0 w))
        else Raise ValueError) = Raise ValueError.
  case: eqP => [sw|_]; first by left; exists w.
  case: ifP => _; last by right.
  by left; exists (nseq n (head 0 w)); rewrite ?size_nseq.
case: a => [x|w|c rows] /=.
- by left; exists (nseq n x); rewrite ?size_nseq.
  exact: from1.
by case: ifP => _; [exact: from1|right].
Qed.

Theorem make_state_trace_multi_input_raises n p T rowsA rowsB rowsU
    (initial_state : option (ndarray F)) :
  is_mat n n (Arr2 n rowsA) -> is_mat n p (Arr2 p rowsB) ->
  is_mat T p (Arr2 p rowsU) -> p != 1%N -> (0 < T)%N ->
  make_state_trace (Arr2 n rowsA) (Arr2 p rowsB) (Arr2 p rowsU) initial_state
  = Raise ValueError.
Proof.
move=> mA mB mU p1 T0; rewrite /make_state_trace /=.
case/and3P: (mA) => _ /eqP sA _; case/and3P: (mU) => _ /eqP sU _.
rewrite sA sU.
set init := (X in broadcast_to_row n X).
case: (broadcast_to_row_error n init) => [[r -> sr]|-> //].
rewrite bindOk; case: T T0 mU {sU} => // T _ mU.
rewrite [foldM _ _ _](@foldM_raise _ _ _ _ _ _ ValueError) //.
by rewrite (trace_step_multi_input_raises (T := T.+1) mA mB mU).
Qed.

(** *** What a successful call returns *)

Lemma make_state_trace_single_inputE n T rowsA rowsB rowsU
    (initial_state : option (ndarray F)) :
  is_mat n n (Arr2 n rowsA) -> is_mat n 1 (Arr2 1 rowsB) ->
  is_mat T 1 (Arr2 1 rowsU) ->
  make_state_trace (Arr2 n rowsA) (Arr2 1 rowsB) (Arr2 1 rowsU) initial_state
  = (x0 <- broadcast_to_row n
             (if initial_state is Some x then x else Arr1 (zeros1 F n)) ;;
     Ok (Arr2 n (linear_recurrence rowsA rowsB x0 rowsU))).
Proof.
move=> mA mB mU; rewrite /make_state_trace /=.
case/and3P: (mA) => _ /eqP sA _; case/and3P: (mU) => _ /eqP sU _.
rewrite sA sU; set init := (X in broadcast_to_row n X).
case: (broadcast_to_row_error n init) => [[r -> sr]|-> //].
rewrite !bindOk (trace_loop_single_input (T := T) mA mB mU) //= ?size_nseq //.
by rewrite take0 drop0 /= -linear_recurrence_head.
Qed.

Lemma make_state_trace_no_step n p rowsA (b_matrix : ndarray F)
    (initial_state : option (ndarray F)) :
  is_mat n n (Arr2 n rowsA) ->
  make_state_trace (Arr2 n rowsA) b_matrix (Arr2 p [::]) initial_state
  = (x0 <- broadcast_to_row n
             (if initial_state is Some x then x else Arr1 (zeros1 F n)) ;;
     Ok (Arr2 n [:: x0])).
Proof.
move=> /and3P[_ /eqP sA _]; rewrite /make_state_trace /= sA.
by case: (broadcast_to_row _ _).
Qed.

Lemma is_mat_linear_recurrence n p T rowsA rowsB rowsU x0 :
  is_mat n n (Arr2 n rowsA) -> is_mat n p (Arr2 p rowsB) ->
  size rowsU = T -> size x0 = n ->
  is_mat T.+1 n (Arr2 n (linear_recurrence rowsA rowsB x0 rowsU)).
Proof.
move=> /and3P[_ /eqP sA _] /and3P[_ /eqP sB _] sU sx.
rewrite /is_mat eqxx size_linear_recurrence sU eqxx /=.
elim: rowsU x0 sx {T sU} => [|u us IH] x0 sx /=; rewrite sx eqxx //=.
by apply: IH; rewrite size_next_state sA sB minnn.
Qed.

(** A call on a system with [p] inputs and [T] steps succeeds only when
    there is nothing to simulate or the system has a single input; the
    trace is then the linear recurrence. *)
Theorem make_state_trace_ok n p T rowsA rowsB rowsU
    (initial_state : option (ndarray F)) (Xarr : ndarray F) :
  is_mat n n (Arr2 n rowsA) -> is_mat n p (Arr2 p rowsB) ->
  is_mat T p (Arr2 p rowsU) ->
  make_state_trace (Arr2 n rowsA) (Arr2 p rowsB) (Arr2 p rowsU) initial_state
  = Ok Xarr ->
  [/\ (T == 0%N) || (p == 1%N)
    & exists2 x0, size x0 = n
      & Xarr = Arr2 n (linear_recurrence rowsA rowsB x0 rowsU)].
Proof.
move=> mA mB mU.
have ok_init (k : seq F -> result (ndarray F)) :
    (x0 <- broadcast_to_row n
             (if initial_state is Some x then x else Arr1 (zeros1 F n)) ;;
     k x0) = Ok Xarr ->
    exists2 x0, size x0 = n & k x0 = Ok Xarr.
  set init := (X in broadcast_to_row n X).
  case: (broadcast_to_row_error n init) => [[r -> sr]|-> //].
  by rewrite bindOk => H; exists r.
case: (posnP T) => [T0|Tpos].
  case/and3P: (mU) => _ /eqP sU _; move: sU; rewrite T0 => /size0nil->.
  rewrite make_state_trace_no_step // => /ok_init[x0 sx [<-]].
  by split=> //; exists x0.
case: (altP (p =P 1%N)) mB mU => [-> mB mU|pN1 mB mU]; last first.
  by rewrite (make_state_trace_multi_input_raises _ mA mB mU).
rewrite (make_state_trace_single_inputE _ mA mB mU) => /ok_init[x0 sx [<-]].
by split; rewrite ?orbT //; exists x0.
Qed.

(** C2 at a failing input.  For the 2 x 2 identity as A, a 2 x 2 input
    matrix B and one step of a two-dimensional input, make_state_trace
    returns no trace: the elementwise product [b_matrix * inpt[0]] has shape
    (2, 2) and cannot be stored in a row of state_trace. *)
Theorem make_state_trace_two_inputs_raises :
  make_state_trace
    (Arr2 2 [:: [:: 1; 0]; [:: 0; 1]]) (Arr2 2 [:: [:: 1; 0]; [:: 0; 1]])
    (Arr2 2 [:: [:: 1; 1 : F]]) None
  = Raise ValueError.
Proof. exact: (@make_state_trace_multi_input_raises 2 2 1). Qed.

End TraceFacts.

(** ** Least squares *)

Section LeastSquares.

Variable F : realFieldType.

Lemma frob2_ge0 m n (M : 'M[F]_(m, n)) : 0 <= frob2 M.
Proof. by apply: sumr_ge0 => i _; apply: sumr_ge0 => j _; apply: sqr_ge0. Qed.

Lemma frob2_eq0 m n (M : 'M[F]_(m, n)) : (frob2 M == 0) = (M == 0).
Proof.
apply/eqP/eqP => [M0|->]; last first.
  by rewrite /frob2 big1 // => i _; rewrite big1 // => j _; rewrite mxE expr0n.
apply/matrixP => i j; rewrite mxE.
have rowge0 k : true -> 0 <= \sum_j M k j ^+ 2.
  by move=> _; apply: sumr_ge0 => l _; apply: sqr_ge0.
have /(_ i isT) Hi := psumr_eq0P rowge0 M0.
have /(_ j isT) /eqP := psumr_eq0P (fun l _ => sqr_ge0 (M i l)) Hi.
by rewrite sqrf_eq0 => /eqP.
Qed.

Lemma frob2_trace m n (M : 'M[F]_(m, n)) : frob2 M = \tr (M *m M^T).
Proof.
rewrite /frob2 /mxtrace; apply: eq_bigr => i _.
by rewrite mxE; apply: eq_bigr => j _; rewrite mxE expr2.
Qed.

Lemma frob2_traceT m n (M : 'M[F]_(m, n)) : frob2 M = \tr (M^T *m M).
Proof. by rewrite frob2_trace mxtrace_mulC. Qed.

Lemma frob2_tr m n (M : 'M[F]_(m, n)) : frob2 M^T = frob2 M.
Proof. by rewrite frob2_trace trmxK -frob2_traceT. Qed.

(** Pythagoras for orthogonal matrices. *)
Lemma frob2D_orth m n (P Q : 'M[F]_(m, n)) :
  P^T *m Q = 0 -> frob2 (P + Q) = frob2 P + frob2 Q.
Proof.
move=> PQ; rewrite !frob2_traceT [(P + Q)^T]linearD /= mulmxDl !mulmxDr.
rewrite !mxtraceD PQ.
have -> : Q^T *m P = 0 by rewrite -[P]trmxK -trmx_mul PQ trmx0.
by rewrite !mxtrace0 addr0 add0r.
Qed.


(** A matrix of full column rank has an invertible Gram matrix (this is
    where the order of [F] is used). *)
Lemma gram_unit m r (C : 'M[F]_(m, r)) : row_full C -> C^T *m C \in unitmx.
Proof.
move=> /row_fullP[L LC]; rewrite -row_free_unit -kermx_eq0.
apply/rowV0P => v /sub_kermxP vG.
have : frob2 (v *m C^T) = 0.
  rewrite frob2_trace trmx_mul trmxK mulmxA -[v *m _ *m _]mulmxA vG.
  by rewrite mul0mx mxtrace0.
move/eqP; rewrite frob2_eq0 => /eqP vC.
apply: trmx_inj; rewrite trmx0 -[v^T]mul1mx -LC -mulmxA.
by rewrite -[C]trmxK -trmx_mul vC trmx0 mulmx0.
Qed.

Lemma gram_unitT r n (R : 'M[F]_(r, n)) : row_free R -> R *m R^T \in unitmx.
Proof.
move=> fR; rewrite -{1}[R]trmxK; apply: gram_unit.
by rewrite /row_full mxrank_tr.
Qed.

Lemma mul_pinv_of m r n (C : 'M[F]_(m, r)) (R : 'M[F]_(r, n)) :
  row_free R ->
  C *m R *m pinv_of C R = C *m invmx (C^T *m C) *m C^T.
Proof.
move=> fR; rewrite /pinv_of !mulmxA; congr (_ *m _ *m _).
by rewrite -(mulmxA C R) -(mulmxA C) mulmxV ?mulmx1 ?gram_unitT.
Qed.

Lemma normal_pinv_of m r n k (C : 'M[F]_(m, r)) (R : 'M[F]_(r, n))
    (B : 'M[F]_(m, k)) :
  row_full C -> row_free R ->
  (C *m R)^T *m (C *m R *m (pinv_of C R *m B) - B) = 0.
Proof.
move=> fC fR.
have E : (C *m R)^T *m (C *m invmx (C^T *m C) *m C^T) = (C *m R)^T.
  rewrite trmx_mul -!mulmxA (mulmxA C^T C) (mulmxA (C^T *m C)).
  by rewrite mulmxV ?gram_unit // mul1mx.
by rewrite mulmxBr (mulmxA (C *m R)) mul_pinv_of // mulmxA E subrr.
Qed.

(** The solution lies in the row space of [R]. *)
Lemma pinv_of_rowspace m r n k (C : 'M[F]_(m, r)) (R : 'M[F]_(r, n))
    (B : 'M[F]_(m, k)) (D : 'M[F]_(n, k)) :
  R *m D = 0 -> (pinv_of C R *m B)^T *m D = 0.
Proof.
by move=> RD; rewrite /pinv_of !trmx_mul !trmxK -!mulmxA RD !mulmx0.
Qed.

(** The normal equations. *)
Lemma lstsq_normal m n k (A : 'M[F]_(m, n)) (B : 'M[F]_(m, k)) :
  A^T *m (A *m lstsq_mx A B - B) = 0.
Proof.
rewrite -{1 2}(mulmx_base A) /lstsq_mx /pinv.
by apply: normal_pinv_of; rewrite ?col_base_full ?row_base_free.
Qed.

(** [lstsq_mx A B] minimises the residual. *)
Theorem lstsq_minimises m n k (A : 'M[F]_(m, n)) (B : 'M[F]_(m, k)) M :
  frob2 (A *m M - B)
  = frob2 (A *m lstsq_mx A B - B) + frob2 (A *m (M - lstsq_mx A B)).
Proof.
set X := lstsq_mx A B.
have -> : A *m M - B = (A *m X - B) + A *m (M - X).
  by rewrite mulmxBr [RHS]addrC addrA subrK.
apply: frob2D_orth.
apply: trmx_inj; rewrite trmx_mul trmxK trmx0 trmx_mul -mulmxA.
by rewrite lstsq_normal mulmx0.
Qed.

Corollary lstsq_le m n k (A : 'M[F]_(m, n)) (B : 'M[F]_(m, k)) M :
  frob2 (A *m lstsq_mx A B - B) <= frob2 (A *m M - B).
Proof. by rewrite (lstsq_minimises A B M) lerDl frob2_ge0. Qed.

(** Among the minimisers it has the least norm, and it is the only one
    of that norm. *)
Lemma lstsq_minimiser_diff m n k (A : 'M[F]_(m, n)) (B : 'M[F]_(m, k)) M :
  frob2 (A *m M - B) <= frob2 (A *m lstsq_mx A B - B) ->
  frob2 M = frob2 (lstsq_mx A B) + frob2 (M - lstsq_mx A B).
Proof.
rewrite (lstsq_minimises A B M) gerDl => le0.
have /eqP : frob2 (A *m (M - lstsq_mx A B)) == 0.
  by rewrite eq_le le0 frob2_ge0.
move/eqP; rewrite frob2_eq0 -{1}(mulmx_base A) -mulmxA => /eqP CRD.
have RD : row_base A *m (M - lstsq_mx A B) = 0.
  have /row_fullP[L LC] := col_base_full A.
  by rewrite -[LHS]mul1mx -LC -mulmxA CRD mulmx0.
rewrite -{1}[M](subrK (lstsq_mx A B)) addrC; apply: frob2D_orth.
exact: pinv_of_rowspace.
Qed.

Theorem lstsq_min_norm m n k (A : 'M[F]_(m, n)) (B : 'M[F]_(m, k)) M :
  frob2 (A *m M - B) <= frob2 (A *m lstsq_mx A B - B) ->
  frob2 (lstsq_mx A B) <= frob2 M
  /\ (frob2 M <= frob2 (lstsq_mx A B) -> M = lstsq_mx A B).
Proof.
move=> /lstsq_minimiser_diff ->; split; first by rewrite lerDl frob2_ge0.
rewrite gerDl => le0; apply/eqP; rewrite -subr_eq0 -frob2_eq0.
by rewrite eq_le le0 frob2_ge0.
Qed.

(** With regressors of full column rank and exact data the solution is
    the generating coefficient matrix. *)
Theorem lstsq_exact m n k (A : 'M[F]_(m, n)) (M0 : 'M[F]_(n, k)) :
  row_full A -> lstsq_mx A (A *m M0) = M0.
Proof.
move=> /row_fullP[L LA].
have := lstsq_le A (A *m M0) M0; rewrite subrr.
have -> : frob2 (0 : 'M[F]_(m, k)) = 0 by apply/eqP; rewrite frob2_eq0.
move=> le0; have /eqP : frob2 (A *m lstsq_mx A (A *m M0) - A *m M0) == 0.
  by rewrite eq_le le0 frob2_ge0.
move/eqP; rewrite frob2_eq0 subr_eq0 => /eqP AX.
by rewrite -[LHS]mul1mx -LA -mulmxA AX mulmxA LA mul1mx.
Qed.

End LeastSquares.

(** ** Arrays as matrices *)

Section Bridge.

Variable F : realFieldType.
Implicit Types (x u v w : seq F) (rows rowsA rowsB rowsU st X U : seq (seq F)).

(** *** Arrays and matrices *)

Lemma size_rows_of_mx m n (M : 'M[F]_(m, n)) : size (rows_of_mx M) = m.
Proof. by rewrite /rows_of_mx size_map size_enum_ord. Qed.

Lemma wf_rows_of_mx m n (M : 'M[F]_(m, n)) : wf_rows n (rows_of_mx M).
Proof.
by apply/wf_rowsP => r /mapP[i _ ->]; rewrite size_map size_enum_ord.
Qed.

Lemma nth_rows_of_mx m n (M : 'M[F]_(m, n)) (i : 'I_m) (j : 'I_n) :
  nth 0 (nth [::] (rows_of_mx M) i) j = M i j.
Proof.
rewrite /rows_of_mx (nth_map i) ?size_enum_ord // (nth_map j) ?size_enum_ord //.
by rewrite !nth_ord_enum.
Qed.

Lemma rows_of_mxK m n (M : 'M[F]_(m, n)) : mx_of_rows m n (rows_of_mx M) = M.
Proof. by apply/matrixP => i j; rewrite mxE nth_rows_of_mx. Qed.

Lemma mx_of_rowsK m n rows :
  size rows = m -> wf_rows n rows -> rows_of_mx (mx_of_rows m n rows) = rows.
Proof.
move=> sr wfr; apply: (@eq_from_nth _ [::]); rewrite size_rows_of_mx // => i im.
have sri : size (nth [::] rows i) = n by apply: wf_rows_nth; rewrite ?sr.
rewrite /rows_of_mx (nth_map (Ordinal im)) ?size_enum_ord //.
apply: (@eq_from_nth _ 0); rewrite size_map size_enum_ord // => j jn.
rewrite (nth_map (Ordinal jn)) ?size_enum_ord // mxE.
by rewrite !nth_enum_ord.
Qed.

Lemma mx_of_rows_eq m n rows rows' :
  (forall i, (i < m)%N -> nth [::] rows i = nth [::] rows' i) ->
  mx_of_rows m n rows = mx_of_rows m n rows'.
Proof. by move=> H; apply/matrixP => i j; rewrite !mxE H. Qed.

Lemma take_rows_of_mx m1 m2 n (M : 'M[F]_(m1 + m2, n)) :
  take m1 (rows_of_mx M) = rows_of_mx (usubmx M).
Proof.
have st : size (take m1 (rows_of_mx M)) = m1.
  by rewrite size_takel // size_rows_of_mx leq_addr.
apply: (@eq_from_nth _ [::]); rewrite st ?size_rows_of_mx // => i im1.
rewrite nth_take //.
have im : (i < m1 + m2)%N by rewrite (leq_trans im1) ?leq_addr.
rewrite /rows_of_mx (nth_map (Ordinal im)) ?size_enum_ord //.
rewrite (nth_map (Ordinal im1)) ?size_enum_ord //.
apply/eq_map => j; rewrite mxE; congr (M _ _).
by apply: val_inj; rewrite /= !nth_enum_ord.
Qed.

Lemma drop_rows_of_mx m1 m2 n (M : 'M[F]_(m1 + m2, n)) :
  drop m1 (rows_of_mx M) = rows_of_mx (dsubmx M).
Proof.
apply: (@eq_from_nth _ [::]).
  by rewrite size_drop !size_rows_of_mx addKn.
move=> i; rewrite size_drop size_rows_of_mx addKn => im2.
rewrite nth_drop.
have im : (m1 + i < m1 + m2)%N by rewrite ltn_add2l.
rewrite /rows_of_mx (nth_map (Ordinal im)) ?size_enum_ord //.
rewrite (nth_map (Ordinal im2)) ?size_enum_ord //.
apply/eq_map => j; rewrite mxE; congr (M _ _).
by apply: val_inj; rewrite /= !nth_enum_ord.
Qed.

Lemma mx_of_rows_cat T n p X U :
  (T <= size X)%N -> (T <= size U)%N -> wf_rows n X ->
  mx_of_rows T (n + p) [seq q.1 ++ q.2 | q <- zip X U]
  = row_mx (mx_of_rows T n X) (mx_of_rows T p U).
Proof.
move=> TX TU wfX; apply/matrixP => i j; rewrite !mxE.
have iX : (i < size X)%N by rewrite (leq_trans _ TX).
have iU : (i < size U)%N by rewrite (leq_trans _ TU).
rewrite (nth_map ([::], [::])) ?size_zip ?leq_min ?iX ?iU // nth_zip_cond.
rewrite size_zip leq_min iX iU /= nth_cat (wf_rows_nth wfX) //.
by case: splitP => k jk; rewrite mxE jk // addKn.
Qed.

Lemma dotE n v w :
  size v = n -> size w = n ->
  dot v w = \sum_(k < n) nth 0 v k * nth 0 w k.
Proof.
move=> sv sw; rewrite /dot (big_nth (0, 0)) size_zip sv sw minnn big_mkord.
by apply: eq_bigr => k _; rewrite nth_zip ?sv ?sw.
Qed.

Lemma mx_of_rows_transpose m n rows :
  size rows = m -> 
  mx_of_rows n m (transpose n rows) = (mx_of_rows m n rows)^T.
Proof.
move=> sr; apply/matrixP => i j; rewrite !mxE /transpose nth_mkseq //.
by rewrite (nth_map [::]) ?sr.
Qed.

Lemma wf_transpose n rows : wf_rows (size rows) (transpose n rows).
Proof.
by apply/wf_rowsP => r /mapP[j _ ->]; rewrite size_map.
Qed.

Lemma size_transpose n rows : size (transpose n rows) = n.
Proof. by rewrite /transpose size_mkseq. Qed.

Lemma rows_of_mx_tr m n rows :
  size rows = m -> 
  rows_of_mx (mx_of_rows m n rows)^T = transpose n rows.
Proof.
move=> sr; rewrite -mx_of_rows_transpose // mx_of_rowsK ?size_transpose //.
by rewrite -sr wf_transpose.
Qed.

End Bridge.

(** ** The least-squares identifier *)

Section Identifier.

Variable F : realFieldType.
Implicit Types (x u v w : seq F) (rows rowsA rowsB rowsU st X U : seq (seq F)).

(** What [identify_system] computes on a well-formed trace and input. *)
Lemma identify_systemE T n p X U :
  is_mat T.+1 n (Arr2 n X) -> is_mat T p (Arr2 p U) ->
  let M := lstsq_mx (regressors T n p X U) (targets T n X) in
  identify_system (Arr2 n X) (Arr2 p U)
  = Ok (Arr2 n (rows_of_mx (usubmx M)), Arr2 n (rows_of_mx (dsubmx M))).
Proof.
move=> /and3P[_ /eqP sX wfX] /and3P[_ /eqP sU wfU] M.
rewrite /identify_system /= sX /= size_takel ?sX // sU eqxx /=.
set rows' := map _ _.
have sr : size rows' = T.
  by rewrite size_map size_zip size_takel ?sX // sU minnn.
rewrite sr size_behead sX eqxx /= take_rows_of_mx drop_rows_of_mx.
suff -> : mx_of_rows T (n + p) rows' = regressors T n p X U by [].
have wft : wf_rows n (take T X).
  by apply/wf_rowsP => r /mem_take; apply/wf_rowsP.
rewrite /rows' mx_of_rows_cat ?size_takel ?sX ?sU //.
congr row_mx; apply: mx_of_rows_eq => i iT.
by rewrite nth_take.
Qed.


Lemma nth_next_state n p rowsA rowsB x u (j : 'I_n) :
  is_mat n n (Arr2 n rowsA) -> is_mat n p (Arr2 p rowsB) ->
  size x = n -> size u = p ->
  nth 0 (next_state rowsA rowsB x u) j
  = \sum_(k < n) nth 0 x k * nth 0 (nth [::] rowsA j) k
    + \sum_(l < p) nth 0 u l * nth 0 (nth [::] rowsB j) l.
Proof.
move=> /and3P[_ /eqP sA wfA] /and3P[_ /eqP sB wfB] sx su.
rewrite /next_state (nth_map ([::], [::])) ?size_zip ?sA ?sB ?minnn //.
rewrite nth_zip ?sA ?sB //=.
rewrite (@dotE _ n) ?(wf_rows_nth wfA) ?sA //.
rewrite (@dotE _ p) ?(wf_rows_nth wfB) ?sB //.
by congr (_ + _); apply: eq_bigr => k _; rewrite mulrC.
Qed.

(** Exact data: the targets are the regressors times [[A^T ; B^T]]. *)
Lemma exact_targets T n p rowsA rowsB X U :
  is_mat n n (Arr2 n rowsA) -> is_mat n p (Arr2 p rowsB) ->
  is_mat T.+1 n (Arr2 n X) -> is_mat T p (Arr2 p U) ->
  (forall i, (i < T)%N ->
     nth [::] X i.+1 = next_state rowsA rowsB (nth [::] X i) (nth [::] U i)) ->
  targets T n X
  = regressors T n p X U
    *m col_mx (mx_of_rows n n rowsA)^T (mx_of_rows n p rowsB)^T.
Proof.
move=> mA mB /and3P[_ /eqP sX wfX] /and3P[_ /eqP sU wfU] rec.
apply/matrixP => i j; rewrite /regressors mul_row_col !mxE nth_behead rec //.
have iX : (i < size X)%N by rewrite sX ltnS ltnW.
rewrite (nth_next_state j mA mB) ?(wf_rows_nth wfX) ?(wf_rows_nth wfU) ?sU //.
by congr (_ + _); apply: eq_bigr => k _; rewrite !mxE.
Qed.

Theorem identify_system_exact T n p rowsA rowsB X U :
  is_mat n n (Arr2 n rowsA) -> is_mat n p (Arr2 p rowsB) ->
  is_mat T.+1 n (Arr2 n X) -> is_mat T p (Arr2 p U) ->
  (forall i, (i < T)%N ->
     nth [::] X i.+1 = next_state rowsA rowsB (nth [::] X i) (nth [::] U i)) ->
  row_full (regressors T n p X U) ->
  identify_system (Arr2 n X) (Arr2 p U)
  = Ok (np_T (Arr2 n rowsA), np_T (Arr2 p rowsB)).
Proof.
move=> mA mB mX mU rec full.
rewrite (identify_systemE mX mU) /= (exact_targets mA mB mX mU rec).
rewrite lstsq_exact // col_mxKu col_mxKd.
case/and3P: mA => _ /eqP sA _; case/and3P: mB => _ /eqP sB _.
by rewrite !rows_of_mx_tr // sA sB.
Qed.

Lemma is_mat_rows_of_mx m n (M : 'M[F]_(m, n)) :
  is_mat m n (Arr2 n (rows_of_mx M)).
Proof. by rewrite /is_mat eqxx size_rows_of_mx eqxx wf_rows_of_mx. Qed.

Lemma as_mx_rows_of_mx m n (M : 'M[F]_(m, n)) :
  as_mx m n (Arr2 n (rows_of_mx M)) = M.
Proof. exact: rows_of_mxK. Qed.

Lemma frob2_col_mx m1 m2 n (A : 'M[F]_(m1, n)) (B : 'M[F]_(m2, n)) :
  frob2 (col_mx A B) = frob2 A + frob2 B.
Proof.
rewrite /frob2 big_split_ord /=; congr (_ + _); apply: eq_bigr => i _;
  by apply: eq_bigr => j _; rewrite ?col_mxEu ?col_mxEd.
Qed.

(** The spec's residual is the residual of the regression at the
    transposed coefficients. *)
Lemma recurrence_residual2E T n p X U (Ahat : 'M[F]_(n, n))
    (Bhat : 'M[F]_(n, p)) :
  recurrence_residual2 T X U Ahat Bhat
  = residual2 T X U (col_mx Ahat^T Bhat^T).
Proof.
rewrite /recurrence_residual2 /residual2 /frob2 /regressors /targets.
apply: eq_bigr => i _; apply: eq_bigr => j _.
rewrite mul_row_col !mxE nth_behead -sqrrN opprB; congr ((_ + _ - _) ^+ 2);
  by apply: eq_bigr => k _; rewrite !mxE mulrC.
Qed.


Lemma identify_system_blocks T n p X U :
  is_mat T.+1 n (Arr2 n X) -> is_mat T p (Arr2 p U) ->
  exists a_identified b_identified : ndarray F,
    [/\ identify_system (Arr2 n X) (Arr2 p U)
        = Ok (a_identified, b_identified),
        is_mat n n a_identified, is_mat p n b_identified
      & col_mx (as_mx n n a_identified) (as_mx p n b_identified)
        = lstsq_mx (regressors T n p X U) (targets T n X)].
Proof.
move=> mX mU; set M := lstsq_mx _ _.
exists (Arr2 n (rows_of_mx (usubmx M))), (Arr2 n (rows_of_mx (dsubmx M))).
split; rewrite ?is_mat_rows_of_mx ?(identify_systemE mX mU) //.
by rewrite !as_mx_rows_of_mx vsubmxK.
Qed.

(** C10. For a (T+1) x n trace and a T x p input, identify_system returns
    arrays of shapes (n, n) and (p, n); stacked as an (n+p) x n block they
    minimise the Frobenius norm of [[X[0..T-1] | U] M - X[1..T]]; and for
    exact data with regressors of full column rank they are the
    transposes of A and of B. *)
Theorem identify_system_transposed_blocks T n p X U :
  is_mat T.+1 n (Arr2 n X) -> is_mat T p (Arr2 p U) ->
  exists a_identified b_identified : ndarray F,
    [/\ identify_system (Arr2 n X) (Arr2 p U)
        = Ok (a_identified, b_identified),
        shape a_identified = [:: n; n] /\ shape b_identified = [:: p; n],
        forall M' : 'M[F]_(n + p, n),
          residual2 T X U
            (col_mx (as_mx n n a_identified) (as_mx p n b_identified))
          <= residual2 T X U M'
      & forall rowsA rowsB,
          is_mat n n (Arr2 n rowsA) -> is_mat n p (Arr2 p rowsB) ->
          (forall i, (i < T)%N ->
             nth [::] X i.+1
             = next_state rowsA rowsB (nth [::] X i) (nth [::] U i)) ->
          row_full (regressors T n p X U) ->
          a_identified = np_T (Arr2 n rowsA)
          /\ b_identified = np_T (Arr2 p rowsB)].
Proof.
move=> mX mU; have [a [b [idE ma mb abE]]] := identify_system_blocks mX mU.
exists a, b; split=> //.
- case: a b ma mb {idE abE} => [?|?|ca ra] // [?|?|cb rb] //=.
  by move=> /and3P[/eqP-> /eqP-> _] /and3P[/eqP-> /eqP-> _].
- by move=> M'; rewrite abE /residual2 lstsq_le.
move=> rowsA rowsB mA mB rec full.
have := identify_system_exact mA mB mX mU rec full.
by rewrite idE => -[-> ->].
Qed.

(** C3, amended.  identify_system returns an n x n array and a p x n array
    (not n x p) whose transposes Ahat, Bhat minimise the sum over i of
    |X[i+1] - (Ahat X[i] + Bhat U[i])|^2; among all minimisers the
    returned coefficients have the least Frobenius norm. *)
Theorem identify_system_least_squares T n p X U :
  is_mat T.+1 n (Arr2 n X) -> is_mat T p (Arr2 p U) ->
  exists a_identified b_identified : ndarray F,
    [/\ identify_system (Arr2 n X) (Arr2 p U)
        = Ok (a_identified, b_identified),
        shape a_identified = [:: n; n] /\ shape b_identified = [:: p; n],
        forall (Ahat : 'M[F]_(n, n)) (Bhat : 'M[F]_(n, p)),
          recurrence_residual2 T X U
            (as_mx n n a_identified)^T (as_mx p n b_identified)^T
          <= recurrence_residual2 T X U Ahat Bhat
      & forall (Ahat : 'M[F]_(n, n)) (Bhat : 'M[F]_(n, p)),
          recurrence_residual2 T X U Ahat Bhat
          <= recurrence_residual2 T X U
               (as_mx n n a_identified)^T (as_mx p n b_identified)^T ->
          frob2 (as_mx n n a_identified) + frob2 (as_mx p n b_identified)
          <= frob2 Ahat + frob2 Bhat].
Proof.
move=> mX mU; have [a [b [idE ma mb abE]]] := identify_system_blocks mX mU.
exists a, b; split=> //.
- case: a b ma mb {idE abE} => [?|?|ca ra] // [?|?|cb rb] //=.
  by move=> /and3P[/eqP-> /eqP-> _] /and3P[/eqP-> /eqP-> _].
- move=> Ahat Bhat; rewrite !recurrence_residual2E !trmxK abE.
  by rewrite /residual2 lstsq_le.
move=> Ahat Bhat; rewrite !recurrence_residual2E !trmxK abE /residual2.
case/lstsq_min_norm => le_norm _.
by rewrite -frob2_col_mx abE -(frob2_tr Ahat) -(frob2_tr Bhat) -frob2_col_mx.
Qed.

(** C1, amended.  For every system (A, B) and every noise-free trace that
    make_state_trace produces from it with an input whose regression
    matrix has full column rank (which entails T >= n + p),
    identify_system applied to the trace and the input returns the
    transposes of A and of B (exactly, in exact arithmetic). *)
Theorem round_trip_identification n p T rowsA rowsB rowsU
    (initial_state : option (ndarray F)) (x_trace : ndarray F) :
  is_mat n n (Arr2 n rowsA) -> is_mat n p (Arr2 p rowsB) ->
  is_mat T p (Arr2 p rowsU) ->
  make_state_trace (Arr2 n rowsA) (Arr2 p rowsB) (Arr2 p rowsU) initial_state
  = Ok x_trace ->
  row_full (regressors T n p (rows_of x_trace) rowsU) ->
  identify_system x_trace (Arr2 p rowsU)
  = Ok (np_T (Arr2 n rowsA), np_T (Arr2 p rowsB)).
Proof.
move=> mA mB mU /(make_state_trace_ok mA mB mU)[_ [x0 sx0 ->]] /= full.
case/and3P: (mU) => _ /eqP sU _.
apply: identify_system_exact full => //.
  exact: (is_mat_linear_recurrence mA mB sU sx0).
by move=> i iT; rewrite nth_linear_recurrence ?sU.
Qed.

(** Full column rank needs at least n + p steps. *)
Lemma regressors_full_length T n p X U :
  row_full (regressors T n p X U : 'M[F]_(T, n + p)) -> (n + p <= T)%N.
Proof. by move=> /eqP <-; apply: rank_leq_row. Qed.

(** ** Change of coordinates *)

Lemma matmulE m n k X Y :
  is_mat m n (Arr2 n X) -> is_mat n k (Arr2 k Y) ->
  matmul (Arr2 n X) (Arr2 k Y)
  = Ok (Arr2 k (rows_of_mx (mx_of_rows m n X *m mx_of_rows n k Y))).
Proof.
move=> /and3P[_ /eqP sX wfX] /and3P[_ /eqP sY wfY].
rewrite /matmul sY eqxx; congr (Ok (Arr2 _ _)).
set rows := map _ X.
have sr : size rows = m by rewrite size_map.
have wfr : wf_rows k rows.
  by apply/wf_rowsP => r /mapP[x _ ->]; rewrite size_map size_transpose.
rewrite -[LHS](mx_of_rowsK sr wfr); congr rows_of_mx.
apply/matrixP => i j; rewrite !mxE /rows (nth_map [::]) ?sX //.
rewrite (nth_map [::]) ?size_transpose // /transpose nth_mkseq //.
rewrite (@dotE _ n) ?size_map ?(wf_rows_nth wfX) ?sX //.
by apply: eq_bigr => l _; rewrite !mxE (nth_map [::]) ?sY.
Qed.

Section WithRng.

Variables (rng : Type) (next_uniform : rng -> F * rng).

Lemma transform_state_traceE m n X rowsT (g : rng) :
  is_mat m n (Arr2 n X) -> is_mat n n (Arr2 n rowsT) ->
  transform_state_trace next_uniform (Arr2 n X) (Some (Arr2 n rowsT)) g
  = Ok (Arr2 n (rows_of_mx (mx_of_rows m n X *m (mx_of_rows n n rowsT)^T)), g).
Proof.
move=> mX mT; case/and3P: (mT) => _ /eqP sT wfT.
have mTt : is_mat n n (Arr2 n (transpose n rowsT)).
  by rewrite /is_mat eqxx size_transpose eqxx /= -{1}sT wf_transpose.
rewrite /transform_state_trace /shape1 !bindOk /np_T sT (matmulE mX mTt).
by rewrite bindOk mx_of_rows_transpose.
Qed.

End WithRng.

(** Similar matrices and transposes have the same characteristic
    polynomial, hence the same eigenvalues with multiplicities. *)
Lemma char_poly_tr n (A : 'M[F]_n) : char_poly A^T = char_poly A.
Proof.
rewrite /char_poly /char_poly_mx -det_tr; congr (\det _).
by rewrite linearB /= tr_scalar_mx map_trmx trmxK.
Qed.

Lemma char_poly_conj n (P A : 'M[F]_n) :
  P \in unitmx -> char_poly (P *m A *m invmx P) = char_poly A.
Proof.
move=> uP; rewrite /char_poly /char_poly_mx.
set P' := map_mx polyC P; set Q' := map_mx polyC (invmx P).
have PQ : P' *m Q' = 1%:M by rewrite -map_mxM mulmxV // map_mx1.
have -> : 'X%:M - map_mx polyC (P *m A *m invmx P)
          = P' *m ('X%:M - map_mx polyC A) *m Q'.
  rewrite mulmxBr mulmxBl !map_mxM; congr (_ - _).
  by rewrite scalar_mxC -mulmxA PQ mulmx1.
rewrite !det_mulmx mulrAC -det_mulmx PQ det1 mul1r.
by [].
Qed.


(** The leading rows and the shifted rows of a transformed trace. *)
Lemma mx_of_rows_mulmx T n X (G : 'M[F]_(n, n)) :
  mx_of_rows T n (rows_of_mx (mx_of_rows T.+1 n X *m G))
  = mx_of_rows T n X *m G.
Proof.
apply/matrixP => i j; rewrite mxE.
have -> : (i : nat) = widen_ord (leqnSn T) i by [].
rewrite nth_rows_of_mx !mxE; apply: eq_bigr => k _.
by rewrite !mxE.
Qed.

Lemma targets_mulmx T n X (G : 'M[F]_(n, n)) :
  targets T n (rows_of_mx (mx_of_rows T.+1 n X *m G)) = targets T n X *m G.
Proof.
apply/matrixP => i j; rewrite /targets mxE nth_behead.
have -> : (i.+1 : nat) = lift ord0 i by [].
rewrite nth_rows_of_mx !mxE; apply: eq_bigr => k _.
by rewrite !mxE nth_behead.
Qed.

Lemma regressors_mulmx T n p X U (G : 'M[F]_(n, n)) :
  regressors T n p (rows_of_mx (mx_of_rows T.+1 n X *m G)) U
  = regressors T n p X U *m block_mx G 0 0 1%:M.
Proof.
rewrite /regressors mx_of_rows_mulmx mul_row_block.
by rewrite !mulmx0 mulmx1 addr0 add0r.
Qed.

Lemma block_unit n p (G : 'M[F]_(n, n)) :
  G \in unitmx -> (block_mx G 0 0 1%:M : 'M_(n + p)) \in unitmx.
Proof.
move=> uG.
have /mulmx1_unit[] // :
    block_mx G 0 0 1%:M *m block_mx (invmx G) 0 0 1%:M = 1%:M :> 'M_(n + p).
rewrite mulmx_block !(mulmx0, mul0mx, mulmx1, addr0, add0r) mulmxV //.
by rewrite -scalar_mx_block.
Qed.

Lemma regressors_mulmx_full T n p X U (G : 'M[F]_(n, n)) :
  G \in unitmx -> row_full (regressors T n p X U) ->
  row_full (regressors T n p (rows_of_mx (mx_of_rows T.+1 n X *m G)) U).
Proof.
move=> uG; rewrite /row_full regressors_mulmx mxrankMfree //.
by rewrite row_free_unit block_unit.
Qed.

(** If [X1 = X0 A^T + U B^T] then the transformed trace obeys the same
    relation for [T A T^-1] and [T B]. *)
Lemma transformed_targets T n p X U (A P : 'M[F]_(n, n)) (B : 'M[F]_(n, p)) :
  P \in unitmx ->
  targets T n X = regressors T n p X U *m col_mx A^T B^T ->
  targets T n (rows_of_mx (mx_of_rows T.+1 n X *m P^T))
  = regressors T n p (rows_of_mx (mx_of_rows T.+1 n X *m P^T)) U
    *m col_mx (P *m A *m invmx P)^T (P *m B)^T.
Proof.
move=> uP E; rewrite targets_mulmx regressors_mulmx E -!mulmxA; congr (_ *m _).
rewrite mul_col_mx mul_block_col !(mul0mx, mul1mx, addr0, add0r).
rewrite !trmx_mul !mulmxA -(trmx_mul (invmx P)) mulVmx // trmx1 mul1mx.
by [].
Qed.


Section SimilarityInvariance.

Variables (rng : Type) (next_uniform : rng -> F * rng).

(** C4, amended.  Let P be an invertible n x n matrix and let a noise-free
    trace of (A, B) with regressors of full column rank be mapped through
    transform_state_trace with P.  identify_system on the transformed trace
    and the original input returns the transposes of P A P^-1 and of P B;
    the returned state-transition array has the characteristic polynomial
    of A, hence the same eigenvalues with the same multiplicities, for
    every such P. *)
Theorem similarity_invariance n p T rowsA rowsB rowsU rowsP
    (initial_state : option (ndarray F)) (x_trace : ndarray F) (g : rng) :
  let A := mx_of_rows n n rowsA in
  let B := mx_of_rows n p rowsB in
  let P := mx_of_rows n n rowsP in
  is_mat n n (Arr2 n rowsA) -> is_mat n p (Arr2 p rowsB) ->
  is_mat T p (Arr2 p rowsU) -> is_mat n n (Arr2 n rowsP) ->
  P \in unitmx ->
  make_state_trace (Arr2 n rowsA) (Arr2 p rowsB) (Arr2 p rowsU) initial_state
  = Ok x_trace ->
  row_full (regressors T n p (rows_of x_trace) rowsU) ->
  exists tx_trace a_identified b_identified : ndarray F,
    [/\ transform_state_trace next_uniform x_trace (Some (Arr2 n rowsP)) g
        = Ok (tx_trace, g),
        identify_system tx_trace (Arr2 p rowsU)
        = Ok (a_identified, b_identified),
        a_identified = Arr2 n (rows_of_mx (P *m A *m invmx P)^T),
        b_identified = Arr2 n (rows_of_mx (P *m B)^T)
      & char_poly (as_mx n n a_identified) = char_poly A].
Proof.
move=> A B P mA mB mU mP uP /(make_state_trace_ok mA mB mU)[_ [x0 sx0 ->]].
rewrite /= => full; case/and3P: (mU) => _ /eqP sU _.
set X := linear_recurrence _ _ _ _ in full *.
have mX : is_mat T.+1 n (Arr2 n X) := is_mat_linear_recurrence mA mB sU sx0.
have rec i : (i < T)%N ->
    nth [::] X i.+1 = next_state rowsA rowsB (nth [::] X i) (nth [::] rowsU i).
  by move=> iT; rewrite nth_linear_recurrence ?sU.
have E := exact_targets mA mB mX mU rec.
set X' := rows_of_mx (mx_of_rows T.+1 n X *m P^T).
exists (Arr2 n X'), (Arr2 n (rows_of_mx (P *m A *m invmx P)^T)),
  (Arr2 n (rows_of_mx (P *m B)^T)).
split=> //; first exact: transform_state_traceE.
  rewrite (identify_systemE (is_mat_rows_of_mx _) mU) /=.
  rewrite (transformed_targets uP E) lstsq_exact ?col_mxKu ?col_mxKd //.
  by apply: regressors_mulmx_full; rewrite ?unitmx_tr.
by rewrite as_mx_rows_of_mx char_poly_tr char_poly_conj.
Qed.

End SimilarityInvariance.

End Identifier.

(** ** The polynomial coefficient extractor *)

Section Vieta.

Variable R : comNzRingType.
Implicit Types (roots s : seq R) (k i n : nat).

(** *** Elementary symmetric polynomials *)

Lemma elem_sym0 s : elem_sym 0 s = 1 :> R.
Proof.
by rewrite /elem_sym; case: s => [|x s] /=; rewrite big_seq1 big_nil.
Qed.

Lemma elem_sym_nil k : elem_sym k.+1 [::] = 0 :> R.
Proof. by rewrite /elem_sym /= big_nil. Qed.

Lemma elem_sym_cons k x s :
  elem_sym k.+1 (x :: s) = x * elem_sym k s + elem_sym k.+1 s.
Proof.
rewrite /elem_sym /= big_cat big_map /=; congr (_ + _).
by rewrite mulr_sumr; apply: eq_bigr => c _; rewrite big_cons.
Qed.

Lemma elem_sym_oversize k s : (size s < k)%N -> elem_sym k s = 0.
Proof.
elim: s k => [|x s IH] [|k] //= sk; first by rewrite elem_sym_nil.
by rewrite elem_sym_cons !IH ?mulr0 ?addr0 // ltnW.
Qed.

(** Vieta: the coefficient of X^j in prod (X - r), for j + k = n, is
    (-1)^k e_k. *)
Lemma coef_prod_XsubC_esym s j k :
  (j + k)%N = size s ->
  (\prod_(r <- s) ('X - r%:P))`_j = (-1) ^+ k * elem_sym k s.
Proof.
elim: s j k => [|x s IH] j k.
  by case: j k => [|j] [|k] // _; rewrite big_nil elem_sym0 expr0 mulr1 coef1.
rewrite big_cons mulrBl coefB coefXM coefCM /=.
case: k => [|k].
  rewrite addn0 => ->; rewrite /= (IH (size s) 0%N) ?addn0 // !elem_sym0 !expr0.
  by rewrite nth_default ?size_prod_XsubC // mulr0 subr0.
rewrite addnS => -[jk]; rewrite (IH j k) // elem_sym_cons mulrDr.
case: j jk => [|j] /= jk.
  by rewrite [elem_sym k.+1 s]elem_sym_oversize -?jk // exprS; ring.
by rewrite (IH j k.+1) ?addnS // !exprS; ring.
Qed.


(** *** The loop of roots2coeffs *)

Lemma set_nth_cat_size (T : Type) (x0 : T) (s t : seq T) (y z : T) :
  set_nth x0 (s ++ y :: t) (size s) z = s ++ z :: t.
Proof. by elim: s => [|a s IH] //=; rewrite IH. Qed.

Lemma vieta_stepE roots coeffs i :
  vieta_step roots coeffs i
  = set_nth 0 coeffs i.-1 ((-1) ^+ i * elem_sym i roots).
Proof. by rewrite /vieta_step /elem_sym big_map. Qed.

Lemma roots2coeffs_loop roots n k :
  (k <= n)%N ->
  foldl (vieta_step roots) (nseq n 0) (iota 1 k)
  = [seq (-1) ^+ i * elem_sym i roots | i <- iota 1 k] ++ nseq (n - k) 0.
Proof.
elim: k => [|k IH] kn; first by rewrite subn0.
have -> : iota 1 k.+1 = iota 1 k ++ [:: k.+1].
  by rewrite -{1}[k.+1]addn1 iotaD /= add1n.
rewrite foldl_cat IH 1?ltnW //= vieta_stepE map_cat /=.
have -> : (n - k)%N = (n - k.+1).+1 by rewrite subnS prednK // subn_gt0.
set L := map _ (iota 1 k).
have sL : size L = k by rewrite size_map size_iota.
by rewrite -[X in set_nth _ _ X]sL set_nth_cat_size -catA.
Qed.

Lemma roots2coeffsE roots :
  roots2coeffs roots
  = [seq (-1) ^+ i * elem_sym i roots | i <- iota 1 (size roots)].
Proof. by rewrite /roots2coeffs roots2coeffs_loop // subnn cats0. Qed.

Lemma nth_roots2coeffs roots i :
  (i < size roots)%N ->
  nth 0 (roots2coeffs roots) i = (-1) ^+ i.+1 * elem_sym i.+1 roots.
Proof.
by move=> lt; rewrite roots2coeffsE (nth_map 0%N) ?size_iota // nth_iota.
Qed.

(** itertools.combinations yields the [k]-element subsequences, each
    once: there are C(n, k) of them. *)
Lemma size_combinations (T : Type) (s : seq T) k :
  size (combinations s k) = 'C(size s, k).
Proof.
elim: s k => [|x s IH] [|k] //=.
by rewrite size_cat size_map !IH binS addnC.
Qed.

Lemma combinations_subseq (T : eqType) (s : seq T) k c :
  c \in combinations s k -> subseq c s /\ size c = k.
Proof.
elim: s k c => [|x s IH] [|k] c //=; rewrite ?inE.
- by move/eqP->.
- by move/eqP->; split=> //; apply: sub0seq.
rewrite mem_cat => /orP[/mapP[c' /IH[sub sz] ->]|/IH[sub sz]].
  by rewrite /= eqxx sz.
by split=> //; apply: subseq_trans sub (subseq_cons _ _).
Qed.

(** C7. roots2coeffs returns the n coefficients a_1 .. a_n of the monic
    polynomial of degree n with the given roots, X^n + a_1 X^(n-1) + ... +
    a_n = prod (X - r_i), with a_i = (-1)^i times the sum over the
    i-element subsets of the roots of their products; roots [2, 3] give
    [-5, 6], roots [1, -1] give [0, -1], and no root gives no
    coefficient. *)
Theorem roots2coeffs_vieta :
  (forall roots : seq R,
     let n := size roots in
     let p := \prod_(r <- roots) ('X - r%:P) in
     [/\ size (roots2coeffs roots) = n,
         p \is monic /\ size p = n.+1,
         forall i, (i < n)%N -> p`_(n - i.+1) = nth 0 (roots2coeffs roots) i
       & forall i, (i < n)%N ->
           nth 0 (roots2coeffs roots) i
           = (-1) ^+ i.+1
             * \sum_(c <- combinations roots i.+1) \prod_(x <- c) x])
  /\ [/\ roots2coeffs [:: 2; 3] = [:: - 5; 6] :> seq R,
         roots2coeffs [:: 1; - 1] = [:: 0; - 1] :> seq R
       & roots2coeffs [::] = [::] :> seq R].
Proof.
split.
  move=> roots n p; split.
  - by rewrite roots2coeffsE size_map size_iota.
  - by rewrite monic_prod_XsubC size_prod_XsubC.
  - move=> i lt; rewrite nth_roots2coeffs //.
    by rewrite (@coef_prod_XsubC_esym _ _ i.+1) // subnK.
  - by move=> i lt; rewrite nth_roots2coeffs.
split=> //; rewrite roots2coeffsE /= /elem_sym /= ?big_cons ?big_nil;
  by congr [:: _; _]; ring.
Qed.

End Vieta.

(** ** The canonical-form generator *)

Section Canonical.

Variable F : realFieldType.
Implicit Types (x u v w : seq F).
Implicit Types (rows rowsA rowsB rowsU st X U a : seq (seq F)).

Lemma nth_set2 a i j (y : F) i' j' :
  nth 0 (nth [::] (set2 a i j y) i') j'
  = if (i' == i) && (j' == j) then y else nth 0 (nth [::] a i') j'.
Proof.
rewrite /set2 nth_set_nth /=; case: (i' =P i) => [->|//] /=.
by rewrite nth_set_nth.
Qed.

Lemma nth_writes_out pos val a s i j :
  (i, j) \notin [seq pos k | k <- s] ->
  nth 0 (nth [::] (writes pos val a s) i) j = nth 0 (nth [::] a i) j.
Proof.
elim: s a => [|k s IH] a //=; rewrite inE negb_or => /andP[ne /IH->].
rewrite nth_set2; case: andP => // -[/eqP ei /eqP ej].
by move: ne; rewrite ei ej -surjective_pairing eqxx.
Qed.

Lemma nth_writes_in pos val a s k :
  k \in s -> {in s &, injective pos} ->
  nth 0 (nth [::] (writes pos val a s) (pos k).1) (pos k).2 = val k.
Proof.
elim: s a => [|k' s IH] a //=; rewrite inE => /orP[/eqP<-|ks] inj.
  case: (boolP (pos k \in [seq pos l | l <- s])) => [/mapP[l ls E]|out].
    have kl : k = l by apply: inj; rewrite ?inE ?eqxx ?ls ?orbT.
    by rewrite -kl in ls; rewrite -/(writes _ _ _ _) IH // => x y xs ys;
       apply: inj; rewrite inE ?xs ?ys orbT.
  rewrite -/(writes _ _ _ _) nth_writes_out -?surjective_pairing //.
  by rewrite nth_set2 !eqxx.
rewrite -/(writes _ _ _ _) IH // => x y xs ys.
by apply: inj; rewrite inE ?xs ?ys orbT.
Qed.

Lemma size_set2 a i j (y : F) :
  (i < size a)%N -> size (set2 a i j y) = size a.
Proof. by move=> lt; rewrite /set2 size_set_nth; apply/maxn_idPr. Qed.

Lemma size_writes pos val a s :
  all (fun k => (pos k).1 < size a)%N s -> size (writes pos val a s) = size a.
Proof.
elim: s a => [|k s IH] a //= /andP[lt al].
by rewrite -/(writes _ _ _ _) IH size_set2.
Qed.

Lemma wf_set2 n a i j (y : F) :
  wf_rows n a -> (i < size a)%N -> (j < n)%N -> wf_rows n (set2 a i j y).
Proof.
move=> wfa ia jn; apply/wf_rowsP => r /(nthP [::])[i'].
rewrite size_set2 // => lt.
rewrite /set2 nth_set_nth /=; case: eqP => [_ <-|_ <-].
  by rewrite size_set_nth (wf_rows_nth wfa) //; apply/maxn_idPr.
exact: wf_rows_nth.
Qed.

Lemma wf_writes n pos val a s :
  wf_rows n a ->
  all (fun k => ((pos k).1 < size a)%N && ((pos k).2 < n)%N) s ->
  wf_rows n (writes pos val a s).
Proof.
elim: s a => [|k s IH] a //= wfa /andP[/andP[lt1 lt2] al].
rewrite -/(writes _ _ _ _) IH ?wf_set2 //.
by rewrite size_set2.
Qed.


Lemma nth_zeros2 m n i j : nth 0 (nth [::] (zeros2 F m n) i) j = 0.
Proof.
rewrite /zeros2 /zeros1 nth_nseq; case: ifP => _; last by rewrite nth_nil.
by rewrite nth_nseq; case: ifP.
Qed.

Lemma wf_zeros2 m n : wf_rows n (zeros2 F m n).
Proof. by apply/wf_rowsP => r /nseqP[-> _]; rewrite size_nseq. Qed.

Lemma make_ccf_system_from_eigenvalues_form (eigvals : seq (complex F)) :
  eigvals != [::] ->
  exists a_matrix b_matrix,
    make_ccf_system_from_eigenvalues eigvals = Ok (a_matrix, b_matrix)
    /\ companion_form (roots2coeffs eigvals) a_matrix b_matrix.
Proof.
move=> nz; rewrite /make_ccf_system_from_eigenvalues.
set n := size eigvals; have n0 : (0 < n)%N by rewrite lt0n size_eq0.
have -> : (n == 0%N) = false by apply/negbTE; rewrite -lt0n.
pose pos1 := fun i : nat => (i, i.+1).
pose pos2 := fun i : nat => (n.-1, (n.-1 - i)%N).
pose val2 := fun i => - np_real (nth 0 (roots2coeffs eigvals) i).
pose a1 := writes pos1 (fun=> 1) (zeros2 F n n) (iota 0 n.-1).
pose a2 := writes pos2 val2 a1 (iota 0 n).
pose b := set2 (zeros2 F n 1) n.-1 0 1.
exists (Arr2 n a2), (Arr2 1 b); split=> //.
have sa1 : size a1 = n.
  rewrite size_writes ?size_nseq //; apply/allP => k.
  by rewrite mem_iota /= add0n => /leq_trans; apply; rewrite leq_pred.
have wfa1 : wf_rows n a1.
  rewrite wf_writes ?wf_zeros2 //; apply/allP => k.
  rewrite mem_iota /= add0n size_nseq => kn.
  by rewrite (leq_trans kn) ?leq_pred // -ltn_predRL.
have sa2 : size a2 = n.
  by rewrite size_writes ?sa1 //; apply/allP => k _ /=; rewrite prednK.
have wfa2 : wf_rows n a2.
  have pn : (n.-1 < n)%N by rewrite prednK.
  rewrite wf_writes //; apply/allP => k _ /=.
  by rewrite sa1 pn /= (leq_ltn_trans (leq_subr _ _) pn).
have inj2 : {in iota 0 n &, injective pos2}.
  move=> x y; rewrite !mem_iota /= !add0n => xn yn [E].
  have xp : (x <= n.-1)%N by rewrite -ltnS prednK.
  have yp : (y <= n.-1)%N by rewrite -ltnS prednK.
  by rewrite -(subKn xp) E subKn.
have out2 i j : (i.+1 < n)%N -> (i, j) \notin [seq pos2 k | k <- iota 0 n].
  move=> lt; apply/mapP => -[k _ [ik _]].
  by move: lt; rewrite ik prednK // ltnn.
have super i : (i.+1 < n)%N -> nth 0 (nth [::] a2 i) i.+1 = 1.
  move=> lt; rewrite nth_writes_out ?out2 //.
  apply: (@nth_writes_in pos1 (fun=> 1) (zeros2 F n n) (iota 0 n.-1) i).
    by rewrite mem_iota /= add0n ltn_predRL.
  by move=> x y _ _ [].
have zero i j : (i.+1 < n)%N -> j != i.+1 -> nth 0 (nth [::] a2 i) j = 0.
  move=> lt ne; rewrite nth_writes_out ?out2 //.
  rewrite nth_writes_out ?nth_zeros2 //; apply/mapP => -[k _ [ik jk]].
  by move: ne; rewrite jk ik eqxx.
have last i : (i < n)%N ->
    nth 0 (nth [::] a2 n.-1) (n.-1 - i)
    = - np_real (nth 0 (roots2coeffs eigvals) i).
  move=> lt; apply: (@nth_writes_in pos2 val2 a1 (iota 0 n) i) => //.
  by rewrite mem_iota.
have sr : size (roots2coeffs eigvals) = n.
  by rewrite roots2coeffsE size_map size_iota.
rewrite /companion_form sr; split=> //.
  split; first by rewrite /is_mat !eqxx sa2 eqxx.
  rewrite /is_mat eqxx size_set2 size_nseq ?eqxx ?prednK //=.
  by rewrite wf_set2 ?wf_zeros2 ?size_nseq ?prednK.
by move=> j lt /=; rewrite nth_set2 eqxx andbT nth_zeros2; case: eqP.
Qed.

End Canonical.

(** ** Errors and the random system generator *)

Section Generator.

Variable F : realFieldType.
Implicit Types (x u v w : seq F) (rows rowsA rowsB rowsU st X U : seq (seq F)).
Implicit Types (a b : ndarray F).

(** *** Routines that never fail an assertion *)

Lemma no_assert_bind (A B : Type) (r : result A) (k : A -> result B) :
  raises_assertion r = false -> (forall y, raises_assertion (k y) = false) ->
  raises_assertion (bind r k) = false.
Proof. by case: r => [y|e] /= => [_ H|H _]; [exact: H | exact: H]. Qed.

Lemma no_assert_mapM (A B : Type) (f : A -> result B) (s : seq A) :
  (forall y, raises_assertion (f y) = false) ->
  raises_assertion (mapM f s) = false.
Proof.
move=> Hf; elim: s => [|y s IH] //=.
by apply: no_assert_bind => // z; apply: no_assert_bind.
Qed.

Lemma no_assert_foldM (A S : Type) (f : S -> A -> result S) (s0 : S)
    (s : seq A) :
  (forall s1 y, raises_assertion (f s1 y) = false) ->
  raises_assertion (foldM f s0 s) = false.
Proof.
move=> Hf; elim: s s0 => [|y s IH] s0 //=.
exact: no_assert_bind.
Qed.

Lemma no_assert_bcast1 op v w : raises_assertion (bcast1 op v w) = false.
Proof. by rewrite /bcast1; do ?[case: ifP => // _]. Qed.

Lemma no_assert_bdim c k : raises_assertion (bdim c k) = false.
Proof. by rewrite /bdim; do ?[case: ifP => // _]. Qed.

Lemma no_assert_broadcast op a b : raises_assertion (broadcast op a b) = false.
Proof.
case: a b => [y|v|c rows] [z|w|c' rows'] //=.
- by apply: no_assert_bind; rewrite ?no_assert_bcast1.
- apply: no_assert_bind; rewrite ?no_assert_bdim // => c1.
  apply: no_assert_bind => //; apply: no_assert_mapM => ?.
  exact: no_assert_bcast1.
- apply: no_assert_bind; rewrite ?no_assert_bdim // => c1.
  apply: no_assert_bind => //; apply: no_assert_mapM => ?.
  exact: no_assert_bcast1.
apply: no_assert_bind; rewrite ?no_assert_bdim // => c1.
apply: no_assert_bind => //; rewrite /bcast_rows.
by do ?[case: ifP => // _]; apply: no_assert_mapM => ?; apply: no_assert_bcast1.
Qed.

Lemma no_assert_matmul_vec a x : raises_assertion (matmul_vec a x) = false.
Proof. by case: a => [y|v|c rows] //=; case: ifP. Qed.

Lemma no_assert_matmul a b : raises_assertion (matmul a b) = false.
Proof.
case: b => [y|v|c rows] //=; first exact: no_assert_matmul_vec.
by case: a => [y|v|c' rows'] //=; case: ifP.
Qed.

Lemma no_assert_broadcast_to_row n a :
  raises_assertion (broadcast_to_row n a) = false.
Proof.
by case: a => [y|v|c rows] //=; do ?[case: ifP => // _].
Qed.

Lemma no_assert_getitem a i : raises_assertion (getitem a i) = false.
Proof. by case: a => [y|v|c rows] //=; case: ifP. Qed.

Lemma no_assert_np_inv a : raises_assertion (np_inv a) = false.
Proof. by case: a => [y|v|c rows] //=; do ?[case: ifP => // _]. Qed.

Lemma no_assert_lstsq a b : raises_assertion (lstsq a b) = false.
Proof. by case: a b => [y|v|c rows] [z|w|c' rows'] //=; case: ifP. Qed.

Lemma no_assert_make_state_trace a b (inpt : ndarray F)
    (initial_state : option (ndarray F)) :
  raises_assertion (make_state_trace a b inpt initial_state) = false.
Proof.
rewrite /make_state_trace; apply: no_assert_bind; first by case: a.
move=> n; apply: no_assert_bind; first by case: inpt.
move=> T; apply: no_assert_bind; first exact: no_assert_broadcast_to_row.
move=> x0; apply: no_assert_bind => //; apply: no_assert_foldM => st i.
rewrite /trace_step; apply: no_assert_bind; first exact: no_assert_matmul_vec.
move=> ax; apply: no_assert_bind; first exact: no_assert_getitem.
move=> ui; apply: no_assert_bind; first exact: no_assert_broadcast.
move=> bu; apply: no_assert_bind; first exact: no_assert_broadcast.
by move=> s; apply: no_assert_bind; first exact: no_assert_broadcast_to_row.
Qed.

Lemma no_assert_identify_system a (inpt : ndarray F) :
  raises_assertion (identify_system a inpt) = false.
Proof.
rewrite /identify_system; apply: no_assert_bind; first by case: a.
move=> n; case: a => [y|v|c rows] //.
apply: no_assert_bind; first by case: inpt => [?|?|? ?] //=; case: ifP.
move=> la; apply: no_assert_bind; first exact: no_assert_lstsq.
move=> ab; apply: no_assert_bind; first by case: ab.
by move=> ai; apply: no_assert_bind; first by case: ab.
Qed.

Lemma no_assert_make_ccf (eigvals : seq (complex F)) :
  raises_assertion (make_ccf_system_from_eigenvalues eigvals) = false.
Proof. by rewrite /make_ccf_system_from_eigenvalues; case: ifP. Qed.


(** *** The random generators *)

Lemma n_random_pos (n r c : nat) :
  (0 < n%:Z - r%:Z - 2 * c%:Z :> int) = (r + 2 * c < n)%N.
Proof.
have -> : n%:Z - r%:Z - 2 * c%:Z = n%:Z - (r + 2 * c)%:Z :> int.
  by rewrite PoszD PoszM opprD addrA.
by rewrite subr_gt0 ltz_nat.
Qed.

Lemma n_random_abs (n r c : nat) :
  (r + 2 * c < n)%N ->
  absz (n%:Z - r%:Z - 2 * c%:Z)%R = (n - (r + 2 * c))%N.
Proof.
have -> : n%:Z - r%:Z - 2 * c%:Z = n%:Z - (r + 2 * c)%:Z :> int.
  by rewrite PoszD PoszM opprD addrA.
by move=> lt; rewrite subzn 1?ltnW // absz_nat.
Qed.

(** Counting the eigenvalues: with [m] random ones to draw, [m %/ 2]
    conjugate pairs and [m %% 2] real ones. *)
Lemma eigenvalue_count_general (n r c : nat) :
  (r + 2 * c < n)%N ->
  let m := (n - (r + 2 * c))%N in
  (r + m %% 2 + 2 * (m %/ 2 + c))%N = n.
Proof.
move=> lt /=; move: (n - (r + 2 * c))%N (subnKC (ltnW lt)) => m En.
move: (divn_eq m 2) En; move: (m %/ 2)%N (m %% 2)%N => p q.
rewrite -!plusE -!multE; lia.
Qed.

Lemma eigenvalue_count_ccf (n r c : nat) :
  (r + 2 * c < n)%N ->
  let m := (n - (r + 2 * c))%N in
  (m %/ 2 + c + (r + m %% 2) + (m %/ 2 + c))%N = n.
Proof.
move=> lt /=; move: (n - (r + 2 * c))%N (subnKC (ltnW lt)) => m En.
move: (divn_eq m 2) En; move: (m %/ 2)%N (m %% 2)%N => p q.
rewrite -!plusE -!multE; lia.
Qed.

Section RandomSystems.

Variable rng : Type.
Variables (next_uniform next_normal : rng -> F * rng).
Variables (sqrt cos sin : F -> F) (pi : F).

Lemma size_draws (next : rng -> F * rng) k g : size (draws next k g).1 = k.
Proof.
elim: k g => [|k IH] g //=; case: (next g) => y g1.
by case E: (draws next k g1) (IH g1) => [ys g2] /= ->.
Qed.

Lemma size_rand k g : size (rand next_uniform k g).1 = k.
Proof. exact: size_draws. Qed.

Lemma draws2_mat (next : rng -> F * rng) m n g :
  is_mat m n (Arr2 n (draws2 next m n g).1).
Proof.
rewrite /is_mat eqxx /=; elim: m g => [|m IH] g //=.
case E: (draws next n g) (size_draws next n g) => [r g1] /= sr.
case E2: (draws2 next m n g1) (IH g1) => [rs g2] /= /andP[/eqP srs wfr].
by rewrite srs sr !eqxx.
Qed.

Lemma no_assert_transform_state_trace a (t : option (ndarray F)) g :
  raises_assertion (transform_state_trace next_uniform a t g) = false.
Proof.
rewrite /transform_state_trace; apply: no_assert_bind; first by case: a.
move=> n; apply: no_assert_bind.
  case: t => [t|] //; case: (rand2 _ _ _ _) => r g'.
  by apply: no_assert_bind => //; apply: no_assert_broadcast.
by case=> t' g'; apply: no_assert_bind => //; apply: no_assert_matmul.
Qed.

Lemma no_assert_corrupt_state_trace a noise_std g :
  raises_assertion (corrupt_state_trace next_normal a noise_std g) = false.
Proof.
rewrite /corrupt_state_trace.
set noise := (X in let: (_, _) := X in _); case: noise => noise g'.
by apply: no_assert_bind => //; apply: no_assert_broadcast.
Qed.

Lemma no_assert_make_random_system_from_eigenvalues zr
    (zc : seq (complex F)) k g :
  raises_assertion
    (make_random_system_from_eigenvalues next_uniform zr zc k g) = false.
Proof.
rewrite /make_random_system_from_eigenvalues.
case: (rand2 _ _ _ _) => r g1.
apply: no_assert_bind; first exact: no_assert_broadcast.
move=> t; apply: no_assert_bind; first exact: no_assert_np_inv.
move=> ti; apply: no_assert_bind; first exact: no_assert_matmul.
move=> m; apply: no_assert_bind; first exact: no_assert_matmul.
by move=> am; case: (rand2 _ _ _ _).
Qed.

(** The shape of the input matrix returned in general form: always one
    column, whatever [n_inputs] was asked of make_random_system. *)
Lemma make_random_system_from_eigenvalues_b zr (zc : seq (complex F)) k g
    a b g' :
  make_random_system_from_eigenvalues next_uniform zr zc k g = Ok (a, b, g') ->
  is_mat (size zr + 2 * size zc) k b.
Proof.
rewrite /make_random_system_from_eigenvalues.
case: (rand2 _ _ _ _) => r g1.
case: (np_add _ _) => [t|//] /=; case: (np_inv t) => [ti|//] /=.
case: (matmul ti _) => [m|//] /=; case: (matmul m t) => [am|//] /=.
case E: (rand2 _ _ _ _) => [rb g2] [_ <- _].
have := draws2_mat next_uniform (size zr + 2 * size zc) k g1.
by rewrite -[draws2 _ _ _ _]/(rand2 _ _ _ _) E.
Qed.

Local Notation mrs := (make_random_system next_uniform sqrt cos sin pi).

Lemma make_random_system_assert n_states n_inputs z_min z_max mhr
    (mhc : seq (complex F)) ccf g :
  (n_states <= size mhr + 2 * size mhc)%N ->
  mrs n_states n_inputs z_min z_max mhr mhc ccf g
  = Raise (AssertionError "no random eigenvalues").
Proof. by move=> le; rewrite /make_random_system n_random_pos ltnNge le. Qed.

(** In canonical form the eigenvalue list handed to
    make_ccf_system_from_eigenvalues holds one entry per conjugate pair. *)
Lemma make_random_system_ccf n_states n_inputs z_min z_max mhr
    (mhc : seq (complex F)) g :
  let count := (size mhr + 2 * size mhc)%N in
  (count < n_states)%N ->
  exists (z : seq (complex F)) (g' : rng),
    (size z + ((n_states - count) %/ 2 + size mhc))%N = n_states
    /\ mrs n_states n_inputs z_min z_max mhr mhc true g
       = (let* '(a, b) := make_ccf_system_from_eigenvalues z in Ok (a, b, g')).
Proof.
move=> count lt; rewrite /make_random_system n_random_pos lt /=.
rewrite n_random_abs // -/count; set m := (n_states - count)%N.
case E1: (rand _ _ g) (size_rand (m %/ 2) g) => [r1 g1] /= s1.
case E2: (rand _ _ g1) (size_rand (m %/ 2) g1) => [r2 g2] /= s2.
set zreal := (X in let: (_, _) := X in _).
have [zr [g3 [-> szr]]] : exists zr g3,
    zreal = (zr, g3) /\ size zr = (size mhr + m %% 2)%N.
  rewrite /zreal; case: ifP => [_|/negbFE/eqP->]; last first.
    by exists mhr, g2; rewrite addn0.
  case E3: (rand _ _ g2) (size_rand (m %% 2) g2) => [r3 g3] /= s3.
  by eexists; exists g3; split; first reflexivity; rewrite size_cat size_map s3.
eexists; exists g3; split; last reflexivity.
rewrite !size_cat !size_map size_zip !size_map s1 s2 minnn szr.
exact: eigenvalue_count_ccf.
Qed.

Lemma make_random_system_general n_states n_inputs z_min z_max mhr
    (mhc : seq (complex F)) g :
  let count := (size mhr + 2 * size mhc)%N in
  (count < n_states)%N ->
  exists (z_real : seq F) (z_complex : seq (complex F)) (g' : rng),
    (size z_real + 2 * size z_complex)%N = n_states
    /\ mrs n_states n_inputs z_min z_max mhr mhc false g
       = make_random_system_from_eigenvalues next_uniform z_real z_complex 1 g'.
Proof.
move=> count lt; rewrite /make_random_system n_random_pos lt /=.
rewrite n_random_abs // -/count; set m := (n_states - count)%N.
case E1: (rand _ _ g) (size_rand (m %/ 2) g) => [r1 g1] /= s1.
case E2: (rand _ _ g1) (size_rand (m %/ 2) g1) => [r2 g2] /= s2.
set zreal := (X in let: (_, _) := X in _).
have [zr [g3 [-> szr]]] : exists zr g3,
    zreal = (zr, g3) /\ size zr = (size mhr + m %% 2)%N.
  rewrite /zreal; case: ifP => [_|/negbFE/eqP->]; last first.
    by exists mhr, g2; rewrite addn0.
  case E3: (rand _ _ g2) (size_rand (m %% 2) g2) => [r3 g3] /= s3.
  by eexists; exists g3; split; first reflexivity; rewrite size_cat size_map s3.
exists zr; eexists; exists g3; split; last reflexivity.
rewrite !size_cat !size_map size_zip !size_map s1 s2 minnn szr.
exact: eigenvalue_count_general.
Qed.

(** C8. make_random_system fails its assertion exactly when the mandatory
    eigenvalues (the real ones plus two per complex representative) already
    number n_states or more; no other routine fails an assertion (the model
    has no other designed error: the remaining errors are numpy's shape and
    linear-algebra errors). *)
Theorem assertion_iff_no_random_eigenvalue :
  [/\ forall n_states n_inputs z_min z_max mhr (mhc : seq (complex F)) ccf g,
        (mrs n_states n_inputs z_min z_max mhr mhc ccf g
         = Raise (AssertionError "no random eigenvalues")
         <-> (n_states <= size mhr + 2 * size mhc)%N)
        /\ raises_assertion (mrs n_states n_inputs z_min z_max mhr mhc ccf g)
           = (n_states <= size mhr + 2 * size mhc)%N,
      forall a b inpt (initial_state : option (ndarray F)),
        ~~ raises_assertion (make_state_trace a b inpt initial_state),
      forall a (inpt : ndarray F), ~~ raises_assertion (identify_system a inpt),
      forall zr (zc : seq (complex F)) k g,
        ~~ raises_assertion
             (make_random_system_from_eigenvalues next_uniform zr zc k g)
    & [/\ forall eigvals : seq (complex F),
          ~~ raises_assertion (make_ccf_system_from_eigenvalues eigvals),
        forall a (t : option (ndarray F)) g,
          ~~ raises_assertion (transform_state_trace next_uniform a t g)
      & forall a noise_std g,
          ~~ raises_assertion (corrupt_state_trace next_normal a noise_std g)]].
Proof.
split.
- move=> n_states n_inputs z_min z_max mhr mhc ccf g.
  have [le|lt] := leqP n_states (size mhr + 2 * size mhc).
    by rewrite make_random_system_assert.
  suff nA : raises_assertion (mrs n_states n_inputs z_min z_max mhr mhc ccf g)
            = false.
    by split=> //; split=> // E; move: nA; rewrite E.
  case: ccf.
    have [z [g' [_ ->]]] :=
      make_random_system_ccf n_inputs z_min z_max g lt.
    apply: no_assert_bind; first exact: no_assert_make_ccf.
    by case.
  have [zr [zc [g' [_ ->]]]] :=
    make_random_system_general n_inputs z_min z_max g lt.
  exact: no_assert_make_random_system_from_eigenvalues.
- by move=> *; rewrite no_assert_make_state_trace.
- by move=> *; rewrite no_assert_identify_system.
- by move=> *; rewrite no_assert_make_random_system_from_eigenvalues.
split=> *.
- by rewrite no_assert_make_ccf.
- by rewrite no_assert_transform_state_trace.
by rewrite no_assert_corrupt_state_trace.
Qed.

Lemma is_mat_shape m n a : is_mat m n a -> shape a = [:: m; n].
Proof. by case: a => [?|?|c rows] //= /and3P[/eqP-> /eqP-> _]. Qed.

Lemma size_roots2coeffs (R : comNzRingType) (roots : seq R) :
  size (roots2coeffs roots) = size roots.
Proof. by rewrite roots2coeffsE size_map size_iota. Qed.

(** What a call in canonical form returns once the assertion holds: a
    system of dimension [k], the number of entries of the eigenvalue list,
    which counts every conjugate pair once. *)
Lemma make_random_system_ccf_form n_states n_inputs z_min z_max mhr
    (mhc : seq (complex F)) g :
  let count := (size mhr + 2 * size mhc)%N in
  (count < n_states)%N ->
  exists (z : seq (complex F)) a b g',
    [/\ mrs n_states n_inputs z_min z_max mhr mhc true g = Ok (a, b, g'),
        make_ccf_system_from_eigenvalues z = Ok (a, b),
        companion_form (roots2coeffs z) a b
      & (size z + ((n_states - count) %/ 2 + size mhc))%N = n_states].
Proof.
move=> count cn.
have [z [g' [sz E]]] := make_random_system_ccf n_inputs z_min z_max g cn.
have nz : z != [::].
  apply/eqP => z0; move: sz (eigenvalue_count_ccf cn) (cn).
  rewrite z0 /= /count; move: (_ %/ 2)%N (_ %% 2)%N => p q.
  by rewrite -!plusE -!multE => H1 H2 /ssrnat.ltP; lia.
have [a [b [E2 form]]] := make_ccf_system_from_eigenvalues_form nz.
by exists z, a, b, g'; split=> //; rewrite E E2.
Qed.


(** C6, amended.  For every valid call the canonical-form generator returns
    a state-transition matrix whose super-diagonal entries (not the
    sub-diagonal ones) are all 1, whose last row is the negated
    coefficients of roots2coeffs in reverse order and whose other entries
    are 0, and an input matrix equal to the unit vector selecting the last
    state; make_random_system with ccf=True returns such a system for the
    eigenvalue list it builds. *)
Theorem canonical_form_generator :
  (forall eigvals : seq (complex F),
     eigvals != [::] ->
     exists a b,
       make_ccf_system_from_eigenvalues eigvals = Ok (a, b)
       /\ companion_form (roots2coeffs eigvals) a b)
  /\ (forall n_states n_inputs z_min z_max mhr (mhc : seq (complex F)) g,
        (size mhr + 2 * size mhc < n_states)%N ->
        exists (z : seq (complex F)) a b g',
          mrs n_states n_inputs z_min z_max mhr mhc true g = Ok (a, b, g')
          /\ companion_form (roots2coeffs z) a b).
Proof.
split; first exact: make_ccf_system_from_eigenvalues_form.
move=> n_states n_inputs z_min z_max mhr mhc g cn.
have [z [a [b [g' [E _ form _]]]]] :=
  make_random_system_ccf_form n_inputs z_min z_max g cn.
by exists z, a, b, g'.
Qed.

(** C5 at a failing input.  With ccf=True and no mandatory eigenvalue, a
    request for two states returns a 1 x 1 state-transition matrix, not a
    2 x 2 one: the conjugate of the one random complex eigenvalue is never
    added to the eigenvalue list. *)
Theorem make_random_system_ccf_dimension z_min z_max g :
  exists a b g',
    mrs 2 1 z_min z_max [::] [::] true g = Ok (a, b, g')
    /\ shape a = [:: 1; 1]%N.
Proof.
have cn : (size (Nil F) + 2 * size (Nil (complex F)) < 2)%N by [].
have [z [a [b [g' [E _ [[ma _] _ _ _ _] /= sz]]]]] :=
  make_random_system_ccf_form 1 z_min z_max g cn.
exists a, b, g'; split=> //; move: ma; rewrite size_roots2coeffs.
by move: sz; rewrite addn0 addn1 => -[->] /is_mat_shape.
Qed.

(** In general form the returned input matrix has n_states rows and one
    column, whatever n_inputs is: make_random_system never hands n_inputs
    over to make_random_system_from_eigenvalues. *)
Lemma make_random_system_one_input n_states n_inputs z_min z_max mhr
    (mhc : seq (complex F)) g :
  match mrs n_states n_inputs z_min z_max mhr mhc false g with
  | Ok (_, b, _) => shape b = [:: n_states; 1%N]
  | Raise _ => True
  end.
Proof.
have [le|cn] := leqP n_states (size mhr + 2 * size mhc).
  by rewrite make_random_system_assert.
have [zr [zc [g' [sz ->]]]] :=
  make_random_system_general n_inputs z_min z_max g cn.
case E: (make_random_system_from_eigenvalues _ _ _ _ _) => [[[a b] g2]|//].
by have /is_mat_shape := make_random_system_from_eigenvalues_b E; rewrite sz.
Qed.

(** *** A generator state under which the general form succeeds *)

Lemma draws_zero (next : rng -> F * rng) k g :
  (forall g, (next g).1 = 0) -> (draws next k g).1 = nseq k 0.
Proof.
move=> next0; elim: k g => [|k IH] g //=.
case E: (next g) (next0 g) => [y g1] /= ->.
by case E2: (draws next k g1) (IH g1) => [ys g2] /= ->.
Qed.

Lemma draws2_zero (next : rng -> F * rng) m n g :
  (forall g, (next g).1 = 0) -> (draws2 next m n g).1 = zeros2 F m n.
Proof.
move=> next0; elim: m g => [|m IH] g //=.
case E: (draws next n g) (draws_zero n g next0) => [r g1] /= ->.
by case E2: (draws2 next m n g1) (IH g1) => [rs g2] /= ->.
Qed.

Lemma rand2_zero m n g :
  (forall g, (next_uniform g).1 = 0) ->
  (rand2 next_uniform m n g).1 = zeros2 F m n.
Proof. exact: draws2_zero. Qed.

Lemma np_add_zeros_identity n :
  np_add (Arr2 n (zeros2 F n n)) (identity F n) = Ok (identity F n).
Proof.
rewrite /np_add /= /bdim eqxx /= /bcast_rows size_nseq size_mkseq eqxx.
set rows := mkseq _ n.
rewrite (mapM_ok (g := fun q : seq F * seq F => q.2)); last first.
  by rewrite [map _ _](@unzip2_zip _ _ (zeros2 F n n)) // size_nseq size_mkseq.
case=> r1 r2 /(nthP ([::], [::]))[i].
rewrite size_zip size_nseq size_mkseq minnn.
move=> lt; rewrite nth_zip ?size_nseq ?size_mkseq // nth_nseq lt nth_mkseq //.
case=> <- <-; rewrite /bcast1 size_nseq size_mkseq eqxx /=; congr Ok.
apply: (@eq_from_nth _ 0).
  by rewrite size_map size_zip size_nseq size_mkseq minnn.
rewrite size_map size_zip size_nseq size_mkseq minnn => j jn.
rewrite (nth_map (0, 0)) ?size_zip ?size_nseq ?size_mkseq ?minnn //.
by rewrite nth_zip ?size_nseq ?size_mkseq //= nth_nseq jn add0r.
Qed.

Lemma size_block_diag_rows total left (blocks : seq (nat * seq (seq F))) :
  size (block_diag_rows total left blocks) = sumn [seq size q.2 | q <- blocks].
Proof.
elim: blocks left => [|[c rows] blocks IH] left //=.
by rewrite size_cat size_map IH.
Qed.

Lemma make_random_system_from_eigenvalues_zero zr (zc : seq (complex F)) k g :
  (forall g, (next_uniform g).1 = 0) -> (0 < size zr + 2 * size zc)%N ->
  exists a b g',
    make_random_system_from_eigenvalues next_uniform zr zc k g = Ok (a, b, g').
Proof.
move=> next0 npos; rewrite /make_random_system_from_eigenvalues.
set n := (size zr + 2 * size zc)%N in npos *.
case: (rand2 _ _ _ _) (rand2_zero n n g next0) => [r g1] r0.
rewrite /= in r0; rewrite {r}r0.
rewrite np_add_zeros_identity bindOk /np_inv /identity size_mkseq eqxx.
have -> : mx_of_rows n n (mkseq (fun i => mkseq (fun j => (i == j)%:R) n) n)
          = 1%:M :> 'M[F]_n.
  by apply/matrixP => i j; rewrite !mxE /= nth_mkseq // nth_mkseq.
rewrite unitmx1 bindOk; set blocks := (_ ++ _).
have sb : sumn [seq size q.2 | q <- [seq atleast_2d d | d <- blocks]] = n.
  rewrite /blocks !map_cat sumn_cat -!map_comp /= /n.
  congr (_ + _)%N; first by elim: (zr) => //= ? ? ->.
  by elim: (zc) => //= ? s ->; rewrite mulnS.
have sc : sumn [seq q.1 | q <- [seq atleast_2d d | d <- blocks]] = n.
  rewrite /blocks !map_cat sumn_cat -!map_comp /= /n.
  congr (_ + _)%N; first by elim: (zr) => //= ? ? ->.
  by elim: (zc) => //= ? s ->; rewrite mulnS.
have -> : block_diag blocks
          = Arr2 n (block_diag_rows n 0 [seq atleast_2d d | d <- blocks]).
  rewrite /block_diag sc; case Eb: blocks => [|d ds] //.
  by move: sb; rewrite Eb /= => n0; move: npos; rewrite -n0.
rewrite /matmul size_block_diag_rows sb eqxx bindOk size_mkseq eqxx bindOk.
by case: (rand2 _ _ _ _) => rb g2; eexists; eexists; eexists.
Qed.

End RandomSystems.

End Generator.

(** ** A worked example over the rationals *)

Section Example.

Local Notation Q := rat.

Lemma example_recurrence : linear_recurrence exA exB ex0 exU = exX.
Proof.
rewrite /= /next_state /= /dot /= !big_cons !big_nil /=.
by apply/eqP.
Qed.

Lemma example_trace :
  make_state_trace (Arr2 2 exA) (Arr2 1 exB) (Arr2 1 exU) (Some (Arr1 ex0))
  = Ok (Arr2 2 exX).
Proof.
by rewrite (@make_state_trace_single_input _ 2 3) // example_recurrence.
Qed.

Lemma mx_of_rows_identity (F : realFieldType) n :
  mx_of_rows n n (rows_of (identity F n)) = 1%:M.
Proof.
by apply/matrixP => i j; rewrite !mxE /= nth_mkseq // nth_mkseq.
Qed.

Lemma example_regressors : regressors 3 2 1 exX exU = 1%:M.
Proof.
rewrite /regressors -mx_of_rows_cat // -(mx_of_rows_identity _ 3).
by congr mx_of_rows; apply/eqP.
Qed.

Lemma example_full : row_full (regressors 3 2 1 exX exU).
Proof. by rewrite example_regressors row_full_unit unitmx1. Qed.

Lemma example_step i :
  (i < 3)%N ->
  nth [::] exX i.+1 = next_state exA exB (nth [::] exX i) (nth [::] exU i).
Proof.
by rewrite -example_recurrence => lt; rewrite nth_linear_recurrence.
Qed.

Lemma example_identified :
  identify_system (Arr2 2 exX) (Arr2 1 exU)
  = Ok (Arr2 2 [:: [:: 0; 1]; [:: 0; 0]], Arr2 2 [:: [:: 0; 1]]).
Proof.
rewrite (@identify_system_exact _ 3 2 1 exA exB) //; first last.
- exact: example_full.
- exact: example_step.
Qed.



Lemma example_np_T :
  np_T (Arr2 2 exA) = Arr2 2 [:: [:: 0; 1]; [:: 0; 0]]
  /\ np_T (Arr2 1 exB) = Arr2 2 [:: [:: 0; 1]].
Proof. by []. Qed.

Lemma rat_1_neq0 : (1 : Q) <> 0.
Proof. by move/eqP. Qed.

(** C1 fails as stated: on this trace (T = 3 = n + p, regressors of full
    rank) identify_system does not return (A, B) but their transposes. *)
Lemma round_trip_counterexample :
  [/\ make_state_trace (Arr2 2 exA) (Arr2 1 exB) (Arr2 1 exU)
        (Some (Arr1 ex0)) = Ok (Arr2 2 exX),
      row_full (regressors 3 2 1 exX exU)
    & identify_system (Arr2 2 exX) (Arr2 1 exU)
      <> Ok (Arr2 2 exA, Arr2 1 exB)].
Proof.
split; [exact: example_trace | exact: example_full |].
rewrite example_identified => E.
by have /rat_1_neq0 : (1 : Q) = 0 by case: E.
Qed.

Lemma round_trip_identification_witness :
  [/\ is_mat 2 2 (Arr2 2 exA), is_mat 2 1 (Arr2 1 exB),
      is_mat 3 1 (Arr2 1 exU),
      make_state_trace (Arr2 2 exA) (Arr2 1 exB) (Arr2 1 exU)
        (Some (Arr1 ex0)) = Ok (Arr2 2 exX)
    & row_full (regressors 3 2 1 (rows_of (Arr2 2 exX)) exU)]
  /\ identify_system (Arr2 2 exX) (Arr2 1 exU)
     = Ok (np_T (Arr2 2 exA), np_T (Arr2 1 exB)).
Proof.
have full := example_full; have tr := example_trace.
split; first by split.
exact: (@round_trip_identification _ 2 1 3 exA exB exU (Some (Arr1 ex0))
          (Arr2 2 exX) isT isT isT tr full).
Defined.

(** C3 fails as stated: the second returned array has shape p x n = (1, 2),
    not n x p = (2, 1). *)
Lemma identify_system_shape_counterexample :
  ~ exists a b : ndarray Q,
      [/\ identify_system (Arr2 2 exX) (Arr2 1 exU) = Ok (a, b),
          shape a = [:: 2; 2]%N & shape b = [:: 2; 1]%N].
Proof. by rewrite example_identified => -[a [b [[_ <-]]]]. Qed.

Lemma identify_system_least_squares_witness :
  (is_mat 4 2 (Arr2 2 exX) /\ is_mat 3 1 (Arr2 1 exU))
  /\ exists a_identified b_identified : ndarray Q,
    [/\ identify_system (Arr2 2 exX) (Arr2 1 exU)
        = Ok (a_identified, b_identified),
        shape a_identified = [:: 2; 2]%N /\ shape b_identified = [:: 1; 2]%N,
        forall (Ahat : 'M[Q]_(2, 2)) (Bhat : 'M[Q]_(2, 1)),
          recurrence_residual2 3 exX exU
            (as_mx 2 2 a_identified)^T (as_mx 1 2 b_identified)^T
          <= recurrence_residual2 3 exX exU Ahat Bhat
      & forall (Ahat : 'M[Q]_(2, 2)) (Bhat : 'M[Q]_(2, 1)),
          recurrence_residual2 3 exX exU Ahat Bhat
          <= recurrence_residual2 3 exX exU
               (as_mx 2 2 a_identified)^T (as_mx 1 2 b_identified)^T ->
          frob2 (as_mx 2 2 a_identified) + frob2 (as_mx 1 2 b_identified)
          <= frob2 Ahat + frob2 Bhat].
Proof.
split; first by [].
exact: (@identify_system_least_squares _ 3 2 1 exX exU isT isT).
Defined.

Lemma identify_system_transposed_blocks_witness :
  (is_mat 4 2 (Arr2 2 exX) /\ is_mat 3 1 (Arr2 1 exU))
  /\ exists a_identified b_identified : ndarray Q,
    [/\ identify_system (Arr2 2 exX) (Arr2 1 exU)
        = Ok (a_identified, b_identified),
        shape a_identified = [:: 2; 2]%N /\ shape b_identified = [:: 1; 2]%N,
        forall M' : 'M[Q]_(2 + 1, 2),
          residual2 3 exX exU
            (col_mx (as_mx 2 2 a_identified) (as_mx 1 2 b_identified))
          <= residual2 3 exX exU M'
      & forall rowsA rowsB,
          is_mat 2 2 (Arr2 2 rowsA) -> is_mat 2 1 (Arr2 1 rowsB) ->
          (forall i, (i < 3)%N ->
             nth [::] exX i.+1
             = next_state rowsA rowsB (nth [::] exX i) (nth [::] exU i)) ->
          row_full (regressors 3 2 1 exX exU) ->
          a_identified = np_T (Arr2 2 rowsA)
          /\ b_identified = np_T (Arr2 1 rowsB)].
Proof.
split; first by [].
exact: (@identify_system_transposed_blocks _ 3 2 1 exX exU isT isT).
Defined.


Lemma example_P : mx_of_rows 2 2 exP = 1%:M.
Proof. by rewrite -(mx_of_rows_identity _ 2). Qed.

Lemma example_P_unit : mx_of_rows 2 2 exP \in unitmx.
Proof. by rewrite example_P unitmx1. Qed.

Lemma example_transformed :
  transform_state_trace next0 (Arr2 2 exX) (Some (Arr2 2 exP)) tt
  = Ok (Arr2 2 exX, tt).
Proof.
rewrite (@transform_state_traceE _ _ _ 4) // example_P trmx1 mulmx1.
by rewrite mx_of_rowsK.
Qed.

Lemma example_conjugate :
  rows_of_mx
    (mx_of_rows 2 2 exP *m mx_of_rows 2 2 exA *m invmx (mx_of_rows 2 2 exP))
  = exA.
Proof. by rewrite example_P invmx1 mulmx1 mul1mx mx_of_rowsK. Qed.

(** C4 fails as stated: with P the identity, the recovered array is not
    P A P^-1 = A but its transpose. *)
Lemma similarity_counterexample :
  let A := mx_of_rows 2 2 exA in
  let P := mx_of_rows 2 2 exP in
  [/\ P \in unitmx,
      make_state_trace (Arr2 2 exA) (Arr2 1 exB) (Arr2 1 exU)
        (Some (Arr1 ex0)) = Ok (Arr2 2 exX),
      row_full (regressors 3 2 1 exX exU),
      transform_state_trace next0 (Arr2 2 exX) (Some (Arr2 2 exP)) tt
      = Ok (Arr2 2 exX, tt)
    & forall a b,
        identify_system (Arr2 2 exX) (Arr2 1 exU) = Ok (a, b) ->
        a <> Arr2 2 (rows_of_mx (P *m A *m invmx P))].
Proof.
split; [exact: example_P_unit | exact: example_trace | exact: example_full
       | exact: example_transformed |].
move=> a b; rewrite example_identified example_conjugate => -[<- _] E.
by have /rat_1_neq0 : (1 : Q) = 0 by case: E.
Qed.

Lemma similarity_invariance_witness :
  let A := mx_of_rows 2 2 exA in
  let B := mx_of_rows 2 1 exB in
  let P := mx_of_rows 2 2 exP in
  [/\ is_mat 2 2 (Arr2 2 exA), is_mat 2 1 (Arr2 1 exB),
      is_mat 3 1 (Arr2 1 exU), is_mat 2 2 (Arr2 2 exP) & P \in unitmx]
  /\ (make_state_trace (Arr2 2 exA) (Arr2 1 exB) (Arr2 1 exU)
        (Some (Arr1 ex0)) = Ok (Arr2 2 exX)
      /\ row_full (regressors 3 2 1 (rows_of (Arr2 2 exX)) exU))
  /\ exists tx_trace a_identified b_identified : ndarray Q,
      [/\ transform_state_trace next0 (Arr2 2 exX) (Some (Arr2 2 exP)) tt
          = Ok (tx_trace, tt),
          identify_system tx_trace (Arr2 1 exU)
          = Ok (a_identified, b_identified),
          a_identified = Arr2 2 (rows_of_mx (P *m A *m invmx P)^T),
          b_identified = Arr2 2 (rows_of_mx (P *m B)^T)
        & char_poly (as_mx 2 2 a_identified) = char_poly A].
Proof.
have full := example_full; have tr := example_trace.
have uP := example_P_unit.
split; first by split.
split; first by split.
exact: (@similarity_invariance _ unit next0 2 1 3 exA exB exU exP
          (Some (Arr1 ex0)) (Arr2 2 exX) tt isT isT isT isT uP tr full).
Defined.

(** C6 fails as stated: for the eigenvalues 2 and 3 the matrix is
    [[0, 1], [-6, 5]], whose sub-diagonal entry is -6, not 1. *)
Lemma canonical_form_counterexample :
  exists a b : ndarray Q,
    make_ccf_system_from_eigenvalues [:: of_real 2; of_real 3] = Ok (a, b)
    /\ nth 0 (nth [::] (rows_of a) 1) 0 = - 6 /\ (- 6 : Q) <> 1.
Proof.
have nz : [:: of_real (2 : Q); of_real 3] != [::] by [].
have [a [b [E [_ _ _ /(_ 1%N) last _]]]] :=
  make_ccf_system_from_eigenvalues_form nz.
exists a, b; split=> //; split; last by move/eqP.
move: last; rewrite size_roots2coeffs => /(_ isT) /= ->.
by rewrite !big_cons !big_nil /=; apply/eqP.
Qed.

Lemma canonical_form_generator_witness :
  [:: of_real (2 : Q); of_real 3] != [::]
  /\ exists a b : ndarray Q,
       make_ccf_system_from_eigenvalues [:: of_real 2; of_real 3] = Ok (a, b)
       /\ companion_form (roots2coeffs [:: of_real (2 : Q); of_real 3]) a b.
Proof.
split; first by [].
exact: (proj1 (@canonical_form_generator _ unit next0 id id id 0)
          [:: of_real 2; of_real 3] isT).
Defined.


(** C9 fails on the code.  make_random_system(3, 2) in general form, on
    a generator that always draws 0 (the change of basis is then the
    identity), succeeds and returns a 3 x 1 input matrix, not a 3 x 2 one.
    For every generator and every argument list, a successful call in
    general form returns an input matrix with n_states rows and a single
    column. *)
Theorem make_random_system_input_matrix :
  (forall (sqrt cos sin : Q -> Q) (pi z_min z_max : Q),
     exists a b g',
       make_random_system next0 sqrt cos sin pi 3 2 z_min z_max [::] [::]
         false tt = Ok (a, b, g')
       /\ shape b = [:: 3; 1]%N)
  /\ (forall (F : realFieldType) (rng : Type) (next_uniform : rng -> F * rng)
        (sqrt cos sin : F -> F) (pi : F) n_states n_inputs z_min z_max
        mhr mhc g,
        match make_random_system next_uniform sqrt cos sin pi n_states
                n_inputs z_min z_max mhr mhc false g with
        | Ok (_, b, _) => shape b = [:: n_states; 1%N]
        | Raise _ => True
        end).
Proof.
split; last by move=> *; exact: make_random_system_one_input.
move=> sqrt cos sin pi z_min z_max.
have cn : (size (Nil Q) + 2 * size (Nil (complex Q)) < 3)%N by [].
have [zr [zc [g [sz E]]]] :=
  make_random_system_general next0 sqrt cos sin pi 2 z_min z_max tt cn.
have [|a [b [g' E2]]] :=
  @make_random_system_from_eigenvalues_zero _ _ next0 zr zc 1 g (fun=> erefl).
  by rewrite sz.
exists a, b, g'; rewrite E E2; split=> //.
by have /is_mat_shape := make_random_system_from_eigenvalues_b E2; rewrite sz.
Qed.

End Example.

(** ** The trajectory simulator: what every call does *)

Section Simulation.

Variable F : realFieldType.
Implicit Types (x u v w : seq F).
Implicit Types (rows rowsA rowsB rowsU st : seq (seq F)).
Implicit Types (a b inpt : ndarray F).

Lemma foldM_inv (T : eqType) S (P : S -> Prop) (f : S -> T -> result S)
    (s : seq T) (q0 q1 : S) :
  (forall q y q', y \in s -> P q -> f q y = Ok q' -> P q') ->
  P q0 -> foldM f q0 s = Ok q1 -> P q1.
Proof.
elim: s q0 => [|y s IH] q0 step Pst /=; first by case=> <-.
case E: (f q0 y) => [q|//] /=; apply: IH.
  by move=> qa y1 qb y1s; apply: step; rewrite in_cons y1s orbT.
by apply: step E; rewrite ?mem_head.
Qed.

Lemma wf_set_nth n st i (r : seq F) :
  wf_rows n st -> size r = n -> (i < size st)%N ->
  wf_rows n (set_nth [::] st i r).
Proof.
move=> wfst sr lt; apply/wf_rowsP => r' /(nthP [::])[k].
rewrite size_set_nth nth_set_nth /= (maxn_idPr lt) => kst <-.
by case: eqP => // _; apply: wf_rows_nth.
Qed.

Lemma trace_step_store n a b inpt st i st' :
  trace_step n a b inpt st i = Ok st' ->
  exists2 r, size r = n & st' = set_nth [::] st i.+1 r.
Proof.
rewrite /trace_step.
case: (matmul_vec _ _) => [ax|//] /=; case: (getitem _ _) => [u0|//] /=.
case: (np_mul _ _) => [bu|//] /=; case: (np_add _ _) => [s|//] /=.
case: (broadcast_to_row_error n s) => [[r -> sr] /= [<-]|-> //].
by exists r.
Qed.

(** X1. Every successful call returns a well-formed array with one row
    more than the input has and as many columns as a_matrix has rows, and
    its first row is the initial state as numpy stores it into a row (the
    zero vector when no initial state is given). *)
Theorem make_state_trace_shape a b inpt (initial_state : option (ndarray F))
    (Xarr : ndarray F) :
  make_state_trace a b inpt initial_state = Ok Xarr ->
  exists n T rows,
    [/\ shape0 a = Ok n, shape0 inpt = Ok T, Xarr = Arr2 n rows,
        is_mat T.+1 n (Arr2 n rows)
      & broadcast_to_row n
          (if initial_state is Some x then x else Arr1 (zeros1 F n))
        = Ok (nth [::] rows 0)].
Proof.
rewrite /make_state_trace.
case: (shape0 a) => [n|//] /=; case: (shape0 inpt) => [T|//] /=.
set init := (X in broadcast_to_row n X).
case: (broadcast_to_row_error n init) => [[x0 E sx0]|-> //].
rewrite E /=.
set st0 := (X in foldM _ X _).
pose P st := [/\ size st = T.+1, wf_rows n st & nth [::] st 0 = x0].
have P0 : P st0.
  split; rewrite /st0 //= ?size_nseq //.
  by rewrite sx0 eqxx /=; apply: wf_zeros2.
case E2: (foldM _ _ _) => [rows|//] /= [<-].
have [sr wfr r0] : P rows.
  apply: (foldM_inv _ P0 E2) => q i q'; rewrite mem_iota add0n /= => iT.
  case=> sq wfq q0 /trace_step_store[r sr ->]; split.
  - by rewrite size_set_nth sq; apply/maxn_idPr.
  - by apply: wf_set_nth; rewrite ?sq.
  - by rewrite nth_set_nth.
exists n, T, rows; split=> //; last by rewrite r0.
by rewrite /is_mat eqxx sr eqxx.
Qed.

(** The loop of make_state_trace, for any arrays on which one iteration
    stores the next state of the recurrence. *)
Lemma trace_loop n a b inpt rowsA rowsB rowsU T m k st :
  size rowsA = n -> size rowsB = n -> size rowsU = T ->
  (forall q i, (i < T)%N -> size (nth [::] q i) = n ->
     trace_step n a b inpt q i
     = Ok (set_nth [::] q i.+1
             (next_state rowsA rowsB (nth [::] q i) (nth [::] rowsU i)))) ->
  (k + m = T)%N -> size st = T.+1 -> size (nth [::] st k) = n ->
  foldM (trace_step n a b inpt) st (iota k m)
  = Ok (take k.+1 st
        ++ behead (linear_recurrence rowsA rowsB (nth [::] st k)
                     (drop k rowsU))).
Proof.
move=> sA sB sU step; elim: m k st => [|m IH] k st kT sst sx.
  move: kT; rewrite addn0 => ->; rewrite /= take_oversize ?sst //.
  by rewrite drop_oversize ?sU //= cats0.
have kltT : (k < T)%N by rewrite -kT -addSnnS leq_addr.
rewrite /= step //=.
set r := next_state _ _ _ _.
have sr : size r = n by rewrite size_next_state sA sB minnn.
have sst' : size (set_nth [::] st k.+1 r) = T.+1.
  by rewrite size_set_nth sst; apply/maxn_idPr; rewrite ltnS.
have kT' : (k.+1 + m = T)%N by rewrite addSnnS.
have nr : nth [::] (set_nth [::] st k.+1 r) k.+1 = r.
  by rewrite nth_set_nth /= eqxx.
rewrite (IH _ _ kT' sst') nr //; congr Ok.
rewrite [drop k rowsU](drop_nth [::]) ?sU //= -/r.
rewrite [linear_recurrence _ _ r _]linear_recurrence_head.
rewrite set_nthE sst ltnS kltT take_cat size_take sst ltnS kltT.
by rewrite ltnNge leqnSn /= subSnn /= take0 -catA.
Qed.

(** One iteration for an input matrix given as a 1-d array of length n. *)
Lemma trace_step_vector n T rowsA (bvec : seq F) rowsU st k :
  is_mat n n (Arr2 n rowsA) -> size bvec = n ->
  is_mat T 1 (Arr2 1 rowsU) ->
  (k < T)%N -> size (nth [::] st k) = n ->
  trace_step n (Arr2 n rowsA) (Arr1 bvec) (Arr2 1 rowsU) st k
  = Ok (set_nth [::] st k.+1
          (next_state rowsA [seq [:: y] | y <- bvec] (nth [::] st k)
             (nth [::] rowsU k))).
Proof.
move=> /and3P[_ /eqP sA wfA] sb /and3P[_ /eqP sU wfU] kT sx.
have su : size (nth [::] rowsU k) = 1%N by apply: wf_rows_nth; rewrite ?sU.
rewrite /trace_step matmul_vec_mat // bindOk getitem_row ?sU // bindOk.
rewrite (size1P 0 su); set u0 := head 0 _; set ax := map _ rowsA.
have sax : size ax = n by rewrite size_map.
have -> : np_mul (Arr1 bvec) (Arr1 [:: u0])
          = Ok (Arr1 [seq y * u0 | y <- bvec]).
  rewrite /np_mul /= /bcast1 /=; case: eqP => [s1|_] //.
  by rewrite (size1P 0 s1).
rewrite bindOk.
have -> : np_add (Arr1 ax) (squeeze (Arr1 [seq y * u0 | y <- bvec]))
          = Ok (Arr1 [seq p.1 + p.2 | p <- zip ax [seq y * u0 | y <- bvec]]).
  rewrite /squeeze size_map sb; case: eqP => [n1|_].
    rewrite /np_add /=; congr (Ok (Arr1 _)).
    move: sax sb; rewrite n1.
    by case: ax => [|a0 [|? ?]] //; case: bvec => [|b0 [|? ?]].
  by rewrite /np_add /= /bcast1 sax size_map sb eqxx.
have sz : size [seq p.1 + p.2 | p <- zip ax [seq y * u0 | y <- bvec]] = n.
  by rewrite size_map size_zip sax size_map sb minnn.
rewrite bindOk (broadcast_to_row_vec sz) bindOk; congr (Ok (set_nth _ _ _ _)).
rewrite /next_state /ax {wfA sA sb sax sz}.
by elim: (rowsA) (bvec) => [|r rs IH] [|y ys] //=; rewrite dot1 IH.
Qed.

(** The rows of [linear_recurrence], entry by entry. *)
Lemma linear_recurrence_entries n T rowsA rowsB rowsU x0 :
  is_mat n n (Arr2 n rowsA) -> is_mat n 1 (Arr2 1 rowsB) ->
  is_mat T 1 (Arr2 1 rowsU) -> size x0 = n ->
  let X := linear_recurrence rowsA rowsB x0 rowsU in
  [/\ is_mat T.+1 n (Arr2 n X), nth [::] X 0 = x0
    & forall i j, (i < T)%N -> (j < n)%N ->
        nth 0 (nth [::] X i.+1) j
        = \sum_(k < n) nth 0 (nth [::] rowsA j) k * nth 0 (nth [::] X i) k
          + nth 0 (nth [::] rowsB j) 0 * nth 0 (nth [::] rowsU i) 0].
Proof.
move=> mA mB mU sx0 X.
case/and3P: (mU) => _ /eqP sU wfU.
have mX : is_mat T.+1 n (Arr2 n X) by apply: is_mat_linear_recurrence mB _ _.
split=> //; first by rewrite /X linear_recurrence_head.
move=> i j iT jn; rewrite /X nth_linear_recurrence ?sU // -/X.
case/and3P: mX => _ /eqP sX wfX.
have sxi : size (nth [::] X i) = n.
  by apply: wf_rows_nth wfX _; rewrite sX ltnS ltnW.
have sui : size (nth [::] rowsU i) = 1%N.
  by apply: wf_rows_nth wfU _; rewrite sU.
rewrite (nth_next_state (Ordinal jn) mA mB sxi sui) /= big_ord1 /=.
rewrite [nth 0 (nth [::] rowsU i) 0 * _]mulrC.
by congr (_ + _); apply: eq_bigr => k _; rewrite mulrC.
Qed.

Lemma make_state_trace_loopE n T a b inpt rowsA rowsB rowsU
    (x0opt : option (seq F)) :
  shape0 a = Ok n -> shape0 inpt = Ok T ->
  size rowsA = n -> size rowsB = n -> size rowsU = T ->
  (forall q i, (i < T)%N -> size (nth [::] q i) = n ->
     trace_step n a b inpt q i
     = Ok (set_nth [::] q i.+1
             (next_state rowsA rowsB (nth [::] q i) (nth [::] rowsU i)))) ->
  size (odflt (zeros1 F n) x0opt) = n ->
  make_state_trace a b inpt (omap (@Arr1 F) x0opt)
  = Ok (Arr2 n (linear_recurrence rowsA rowsB (odflt (zeros1 F n) x0opt)
                  rowsU)).
Proof.
move=> sa si sA sB sU step sx0; rewrite /make_state_trace sa si !bindOk.
have -> : (if omap (@Arr1 F) x0opt is Some x then x else Arr1 (zeros1 F n))
          = Arr1 (odflt (zeros1 F n) x0opt) by case: x0opt {sx0}.
rewrite (broadcast_to_row_vec sx0) bindOk.
rewrite (trace_loop (T := T) sA sB sU step) //= ?size_nseq //.
by rewrite take0 drop0 /= -linear_recurrence_head.
Qed.

(** X2. A system with a single input, given by an n x n array A, an n x 1
    array B and a T x 1 input: the call returns the T+1 states of the
    recurrence, x[0] the initial state (the origin by default) and
    x[i+1] = A x[i] + B u[i]. *)
Theorem make_state_trace_single_input_recurrence n T rowsA rowsB rowsU
    (x0opt : option (seq F)) :
  is_mat n n (Arr2 n rowsA) -> is_mat n 1 (Arr2 1 rowsB) ->
  is_mat T 1 (Arr2 1 rowsU) ->
  size (odflt (zeros1 F n) x0opt) = n ->
  exists X,
    [/\ make_state_trace (Arr2 n rowsA) (Arr2 1 rowsB) (Arr2 1 rowsU)
          (omap (@Arr1 F) x0opt) = Ok (Arr2 n X),
        is_mat T.+1 n (Arr2 n X),
        nth [::] X 0 = odflt (zeros1 F n) x0opt
      & forall i j, (i < T)%N -> (j < n)%N ->
          nth 0 (nth [::] X i.+1) j
          = \sum_(k < n) nth 0 (nth [::] rowsA j) k * nth 0 (nth [::] X i) k
            + nth 0 (nth [::] rowsB j) 0 * nth 0 (nth [::] rowsU i) 0].
Proof.
move=> mA mB mU sx0.
have [mX X0 rec] := linear_recurrence_entries mA mB mU sx0.
eexists; split; [|exact: mX|exact: X0|exact: rec].
case/and3P: (mA) => _ /eqP sA _; case/and3P: (mB) => _ /eqP sB _.
case/and3P: (mU) => _ /eqP sU _.
apply: (make_state_trace_loopE (T := T)); rewrite /= ?sA ?sU //.
by move=> q i iT sq; apply: (trace_step_single_input mA mB mU).
Qed.

Lemma is_mat_col n (bvec : seq F) :
  size bvec = n -> is_mat n 1 (Arr2 1 [seq [:: y] | y <- bvec]).
Proof.
move=> sb; rewrite /is_mat eqxx size_map sb eqxx /=.
by apply/allP => r /mapP[y _ ->].
Qed.

(** X3. The input matrix given as a 1-d array b of length n, as the
    notebook passes it (b_known = np.array([0, 1])), with a T x 1 input:
    the call returns the states of x[i+1] = A x[i] + b u[i]. *)
Theorem make_state_trace_vector_input_matrix n T rowsA (bvec : seq F) rowsU
    (x0opt : option (seq F)) :
  is_mat n n (Arr2 n rowsA) -> size bvec = n ->
  is_mat T 1 (Arr2 1 rowsU) ->
  size (odflt (zeros1 F n) x0opt) = n ->
  exists X,
    [/\ make_state_trace (Arr2 n rowsA) (Arr1 bvec) (Arr2 1 rowsU)
          (omap (@Arr1 F) x0opt) = Ok (Arr2 n X),
        is_mat T.+1 n (Arr2 n X),
        nth [::] X 0 = odflt (zeros1 F n) x0opt
      & forall i j, (i < T)%N -> (j < n)%N ->
          nth 0 (nth [::] X i.+1) j
          = \sum_(k < n) nth 0 (nth [::] rowsA j) k * nth 0 (nth [::] X i) k
            + nth 0 bvec j * nth 0 (nth [::] rowsU i) 0].
Proof.
move=> mA sb mU sx0; have mB := is_mat_col sb.
have [mX X0 rec] := linear_recurrence_entries mA mB mU sx0.
eexists; split; [|exact: mX|exact: X0|].
  case/and3P: (mA) => _ /eqP sA _; case/and3P: (mU) => _ /eqP sU _.
  apply: (make_state_trace_loopE (T := T)); rewrite /= ?sA ?sU ?size_map //.
  by move=> q i iT sq; apply: (trace_step_vector mA sb mU).
move=> i j iT jn; rewrite rec // (nth_map 0) ?sb //.
Qed.

(** X4. An initial state that numpy cannot store into a row of the trace
    raises ValueError before any step is simulated: a 2-d array with
    other than one row (so the n x 1 column of the docstring, for n > 1),
    or a 1-d array whose length is neither n nor 1. *)
Theorem make_state_trace_initial_state_raises a b inpt n T :
  shape0 a = Ok n -> shape0 inpt = Ok T ->
  (forall c col, size col != 1%N ->
     make_state_trace a b inpt (Some (Arr2 c col)) = Raise ValueError)
  /\ (forall w, size w != n -> size w != 1%N ->
        make_state_trace a b inpt (Some (Arr1 w)) = Raise ValueError).
Proof.
move=> sa si; split.
  by move=> c col /negbTE sc; rewrite /make_state_trace sa si /= sc.
move=> w /negbTE sn /negbTE s1.
by rewrite /make_state_trace sa si /= sn s1.
Qed.

(** X5. With an input of no row nothing is simulated, and b_matrix is not
    looked at: the trace is the single row holding the initial state. *)
Theorem make_state_trace_empty_input a b n p (x0opt : option (seq F)) :
  shape0 a = Ok n -> size (odflt (zeros1 F n) x0opt) = n ->
  make_state_trace a b (Arr2 p [::]) (omap (@Arr1 F) x0opt)
  = Ok (Arr2 n [:: odflt (zeros1 F n) x0opt]).
Proof.
move=> sa sx0; rewrite /make_state_trace sa /=.
have -> : (if omap (@Arr1 F) x0opt is Some x then x else Arr1 (zeros1 F n))
          = Arr1 (odflt (zeros1 F n) x0opt) by case: x0opt {sx0}.
by rewrite (broadcast_to_row_vec sx0).
Qed.

End Simulation.

(** ** Restarting and superposing simulations *)

Section Superposition.

Variable F : realFieldType.
Implicit Types (x u v w : seq F).
Implicit Types (rows rowsA rowsB rowsU st X Y : seq (seq F)).
Implicit Types (a b inpt : ndarray F).

Lemma last_linear_recurrence rowsA rowsB x y us :
  last y (linear_recurrence rowsA rowsB x us)
  = last x (linear_recurrence rowsA rowsB x us).
Proof. by rewrite linear_recurrence_head. Qed.

Lemma linear_recurrence_cat rowsA rowsB x us1 us2 :
  linear_recurrence rowsA rowsB x (us1 ++ us2)
  = linear_recurrence rowsA rowsB x us1
    ++ behead (linear_recurrence rowsA rowsB
                 (last x (linear_recurrence rowsA rowsB x us1)) us2).
Proof.
elim: us1 x => [|u us1 IH] x /=; first exact: linear_recurrence_head.
by rewrite IH (last_linear_recurrence _ _ _ x).
Qed.

Lemma is_mat_cat m1 m2 c rows1 rows2 :
  is_mat m1 c (Arr2 c rows1) -> is_mat m2 c (Arr2 c rows2) ->
  is_mat (m1 + m2) c (Arr2 c (rows1 ++ rows2)).
Proof.
move=> /and3P[_ /eqP s1 wf1] /and3P[_ /eqP s2 wf2].
rewrite /is_mat eqxx size_cat s1 s2 eqxx /= /wf_rows all_cat.
exact/andP.
Qed.

(** X6. Simulating over two inputs laid end to end is simulating over the
    first, then over the second from the state the first run ends in. *)
Theorem make_state_trace_restart n T1 T2 rowsA rowsB rowsU1 rowsU2 x0 :
  is_mat n n (Arr2 n rowsA) -> is_mat n 1 (Arr2 1 rowsB) ->
  is_mat T1 1 (Arr2 1 rowsU1) -> is_mat T2 1 (Arr2 1 rowsU2) ->
  size x0 = n ->
  exists X1 X2,
    [/\ make_state_trace (Arr2 n rowsA) (Arr2 1 rowsB) (Arr2 1 rowsU1)
          (Some (Arr1 x0)) = Ok (Arr2 n X1),
        make_state_trace (Arr2 n rowsA) (Arr2 1 rowsB) (Arr2 1 rowsU2)
          (Some (Arr1 (last x0 X1))) = Ok (Arr2 n X2)
      & make_state_trace (Arr2 n rowsA) (Arr2 1 rowsB)
          (Arr2 1 (rowsU1 ++ rowsU2)) (Some (Arr1 x0))
        = Ok (Arr2 n (X1 ++ behead X2))].
Proof.
move=> mA mB mU1 mU2 sx0.
pose X1 := linear_recurrence rowsA rowsB x0 rowsU1.
have sl : size (last x0 X1) = n.
  have /and3P[_ _ /wf_rowsP wfX] :=
    is_mat_linear_recurrence mA mB (erefl (size rowsU1)) sx0.
  by apply: wfX; rewrite /X1 linear_recurrence_head /= mem_last.
exists X1, (linear_recurrence rowsA rowsB (last x0 X1) rowsU2); split.
- exact: make_state_trace_single_input mA mB mU1 sx0.
- exact: make_state_trace_single_input mA mB mU2 sl.
rewrite (make_state_trace_single_input mA mB (is_mat_cat mU1 mU2) sx0).
by rewrite linear_recurrence_cat.
Qed.

(** *** Superposition *)

Lemma addv_cons (y z : F) x w : addv (y :: x) (z :: w) = (y + z) :: addv x w.
Proof. by []. Qed.

Lemma size_addv x y : size x = size y -> size (addv x y) = size x.
Proof. by move=> e; rewrite size_map size_zip -e minnn. Qed.

Lemma np_add_vec x y :
  size x = size y -> np_add (Arr1 x) (Arr1 y) = Ok (Arr1 (addv x y)).
Proof. by move=> e; rewrite /np_add /= /bcast1 e eqxx. Qed.

Lemma mem_zipl (A B : eqType) (s : seq A) (t : seq B) y z :
  (y, z) \in zip s t -> y \in s.
Proof.
elim: s t => [|y0 s IH] [|z0 t] //=; rewrite !in_cons.
by case/orP=> [/eqP[-> _]|/IH->]; rewrite ?eqxx ?orbT.
Qed.

Lemma np_add_mat m c X Y :
  is_mat m c (Arr2 c X) -> is_mat m c (Arr2 c Y) ->
  np_add (Arr2 c X) (Arr2 c Y) = Ok (Arr2 c (addm X Y)).
Proof.
move=> /and3P[_ /eqP sX /wf_rowsP wfX] /and3P[_ /eqP sY /wf_rowsP wfY].
rewrite /np_add /= /bdim eqxx /= /bcast_rows sX sY eqxx.
rewrite (mapM_ok (g := fun p => addv p.1 p.2)) // => -[r1 r2] mem /=.
rewrite /bcast1 (wfX _ (mem_zipl mem)) (wfY _ (mem_zipr mem)) eqxx.
by [].
Qed.

Lemma dot_addv r x y :
  size x = size y -> dot r (addv x y) = dot r x + dot r y.
Proof.
rewrite /dot /addv; elim: r x y => [|c r IH] [|a x] [|b y] //= e;
  rewrite ?big_nil ?addr0 //.
by case: e => e; rewrite !big_cons IH //= mulrDr addrACA.
Qed.

Lemma next_state_addv rowsA rowsB x y u1 u2 :
  size x = size y -> size u1 = size u2 ->
  next_state rowsA rowsB (addv x y) (addv u1 u2)
  = addv (next_state rowsA rowsB x u1) (next_state rowsA rowsB y u2).
Proof.
move=> exy eu; rewrite /next_state.
elim: (zip rowsA rowsB) => [|p s IH] //.
by rewrite !map_cons addv_cons IH !dot_addv // addrACA.
Qed.

Lemma linear_recurrence_addv rowsA rowsB x y us1 us2 :
  size x = size y -> size us1 = size us2 ->
  all (fun p => size p.1 == size p.2) (zip us1 us2) ->
  linear_recurrence rowsA rowsB (addv x y) (addm us1 us2)
  = addm (linear_recurrence rowsA rowsB x us1)
      (linear_recurrence rowsA rowsB y us2).
Proof.
elim: us1 us2 x y => [|u1 us1 IH] [|u2 us2] x y //= exy [es] /andP[/eqP eu al].
rewrite next_state_addv // IH ?size_next_state //.
Qed.

Lemma is_mat_addm m c X Y :
  is_mat m c (Arr2 c X) -> is_mat m c (Arr2 c Y) ->
  is_mat m c (Arr2 c (addm X Y)).
Proof.
move=> /and3P[_ /eqP sX /wf_rowsP wfX] /and3P[_ /eqP sY /wf_rowsP wfY].
rewrite /is_mat eqxx size_map size_zip sX sY minnn eqxx /=.
apply/wf_rowsP => r /mapP[[r1 r2] mem ->] /=.
by rewrite size_addv (wfX _ (mem_zipl mem)) // (wfY _ (mem_zipr mem)).
Qed.

Lemma same_row_sizes m c X Y :
  is_mat m c (Arr2 c X) -> is_mat m c (Arr2 c Y) ->
  all (fun p => size p.1 == size p.2) (zip X Y).
Proof.
move=> /and3P[_ _ /wf_rowsP wfX] /and3P[_ _ /wf_rowsP wfY].
apply/allP => -[r1 r2] mem /=.
by rewrite (wfX _ (mem_zipl mem)) (wfY _ (mem_zipr mem)).
Qed.

(** X7. Superposition.  For a single-input system the trace of the sum of
    two initial states under the sum of two inputs is the sum of the two
    traces. *)
Theorem make_state_trace_superposition n T rowsA rowsB rowsU1 rowsU2 x1 x2 :
  is_mat n n (Arr2 n rowsA) -> is_mat n 1 (Arr2 1 rowsB) ->
  is_mat T 1 (Arr2 1 rowsU1) -> is_mat T 1 (Arr2 1 rowsU2) ->
  size x1 = n -> size x2 = n ->
  exists Xa Xb usum xsum Xs : ndarray F,
    [/\ make_state_trace (Arr2 n rowsA) (Arr2 1 rowsB) (Arr2 1 rowsU1)
          (Some (Arr1 x1)) = Ok Xa,
        make_state_trace (Arr2 n rowsA) (Arr2 1 rowsB) (Arr2 1 rowsU2)
          (Some (Arr1 x2)) = Ok Xb,
        np_add (Arr2 1 rowsU1) (Arr2 1 rowsU2) = Ok usum
        /\ np_add (Arr1 x1) (Arr1 x2) = Ok xsum,
        make_state_trace (Arr2 n rowsA) (Arr2 1 rowsB) usum (Some xsum)
        = Ok Xs
      & np_add Xa Xb = Ok Xs].
Proof.
move=> mA mB mU1 mU2 sx1 sx2.
have sx : size x1 = size x2 by rewrite sx1 sx2.
have sxs : size (addv x1 x2) = n by rewrite size_addv.
have mUs := is_mat_addm mU1 mU2.
case/and3P: (mU1) => _ /eqP sU1 _; case/and3P: (mU2) => _ /eqP sU2 _.
exists (Arr2 n (linear_recurrence rowsA rowsB x1 rowsU1)),
       (Arr2 n (linear_recurrence rowsA rowsB x2 rowsU2)),
       (Arr2 1 (addm rowsU1 rowsU2)), (Arr1 (addv x1 x2)),
       (Arr2 n (linear_recurrence rowsA rowsB (addv x1 x2)
                  (addm rowsU1 rowsU2))).
split.
- exact: make_state_trace_single_input mA mB mU1 sx1.
- exact: make_state_trace_single_input mA mB mU2 sx2.
- by rewrite (np_add_mat mU1 mU2) np_add_vec.
- exact: make_state_trace_single_input mA mB mUs sxs.
rewrite (np_add_mat (m := T.+1)); try exact: is_mat_linear_recurrence mA mB _ _.
by rewrite linear_recurrence_addv ?sU1 ?sU2 ?(same_row_sizes mU1 mU2).
Qed.

End Superposition.

(** ** The random input, the noise and the change of coordinates *)

Section RandomTraces.

Variable F : realFieldType.
Variable rng : Type.
Variables (next_uniform next_normal : rng -> F * rng).
Implicit Types (x u v w : seq F) (rows X Y P Q : seq (seq F)).
Implicit Types (a b : ndarray F) (g : rng).

Lemma is_mat_normal2 loc scale m n g :
  is_mat m n (Arr2 n (normal2 next_normal loc scale m n g).1).
Proof.
rewrite /normal2.
case E: (draws2 _ _ _ _) (draws2_mat next_normal m n g) => [zs g'] /=.
case/and3P=> _ /eqP sz /wf_rowsP wfz.
rewrite /is_mat eqxx size_map sz eqxx /=.
by apply/wf_rowsP => r /mapP[z /wfz sr ->]; rewrite size_map.
Qed.

Lemma normal2_scale0 loc m n g :
  (normal2 next_normal loc 0 m n g).1 = nseq m (nseq n loc).
Proof.
rewrite /normal2.
case E: (draws2 _ _ _ _) (draws2_mat next_normal m n g) => [zs g'] /=.
case/and3P=> _ /eqP sz /wf_rowsP wfz.
apply: (@eq_from_nth _ [::]); rewrite size_map ?size_nseq // sz => i im.
rewrite (nth_map [::]) ?sz // nth_nseq im.
have sr : size (nth [::] zs i) = n by apply: wfz; rewrite mem_nth ?sz.
apply: (@eq_from_nth _ 0); rewrite size_map ?size_nseq // sr => j jn.
by rewrite (nth_map 0) ?sr // nth_nseq jn mul0r addr0.
Qed.


Lemma addm_zeros m n X :
  is_mat m n (Arr2 n X) -> addm X (nseq m (nseq n 0)) = X.
Proof.
move=> /and3P[_ /eqP sX /wf_rowsP wfX].
apply: (@eq_from_nth _ [::]).
  by rewrite size_map size_zip size_nseq sX minnn.
rewrite size_map size_zip size_nseq sX minnn => i im.
rewrite (nth_map ([::], [::])) ?size_zip ?size_nseq ?sX ?minnn //.
rewrite nth_zip ?size_nseq //= nth_nseq im.
have sr : size (nth [::] X i) = n by apply: wfX; rewrite mem_nth ?sX.
apply: (@eq_from_nth _ 0); rewrite size_addv ?size_nseq // sr => j jn.
rewrite (nth_map (0, 0)) ?size_zip ?size_nseq ?sr ?minnn //.
by rewrite nth_zip ?size_nseq //= nth_nseq jn addr0.
Qed.


(** X10. Noise of standard deviation zero leaves the trace as it is. *)
Theorem corrupt_state_trace_no_noise a g :
  wf a -> exists g', corrupt_state_trace next_normal a 0 g = Ok (a, g').
Proof.
case: a => [y|v|c rows] wfa; rewrite /corrupt_state_trace.
- case: (next_normal g) => z g' /=; exists g'.
  by rewrite /np_add /= mul0r addr0 addr0.
- case E: (draws _ _ _) (size_draws next_normal (size v) g) => [zs g'] sz.
  rewrite /= in sz.
  rewrite np_add_vec ?size_map ?sz //=; exists g'; congr (Ok (Arr1 _, _)).
  apply: (@eq_from_nth _ 0); rewrite size_addv ?size_map ?sz // => j jn.
  rewrite (nth_map (0, 0)) ?size_zip ?size_map ?sz ?minnn //.
  rewrite nth_zip ?size_map ?sz //= (nth_map 0) ?sz //.
  by rewrite mul0r !addr0.
have mr : is_mat (size rows) c (Arr2 c rows) by rewrite /is_mat !eqxx.
have := normal2_scale0 0 (size rows) c g.
case E: (normal2 _ _ _ _ _ _) (is_mat_normal2 0 0 (size rows) c g)
  => [zs g'] mz ez; rewrite /= in mz ez.
by rewrite (np_add_mat mr mz) /= ez (addm_zeros mr); exists g'.
Qed.

End RandomTraces.

Section Transform.

Variable F : realFieldType.
Variable rng : Type.
Variable next_uniform : rng -> F * rng.
Implicit Types (x u v w : seq F) (rows X Y P Q : seq (seq F)).
Implicit Types (a b : ndarray F) (g : rng).

Local Notation transform := (transform_state_trace next_uniform).

Lemma is_mat_transpose k n P :
  is_mat k n (Arr2 n P) -> is_mat n k (Arr2 k (transpose n P)).
Proof.
move=> /and3P[_ /eqP sP _].
by rewrite /is_mat eqxx size_transpose eqxx /= -sP wf_transpose.
Qed.

(** With a k x n matrix the call is the matrix product of the trace and
    the transposed matrix, and the generator is left alone. *)
Lemma transform_state_trace_mx m n k X P g :
  is_mat m n (Arr2 n X) -> is_mat k n (Arr2 n P) ->
  transform (Arr2 n X) (Some (Arr2 n P)) g
  = Ok (Arr2 k (rows_of_mx (mx_of_rows m n X *m (mx_of_rows k n P)^T)), g).
Proof.
move=> mX mP; case/and3P: (mP) => _ /eqP sP _.
rewrite /transform_state_trace /shape1 !bindOk /np_T sP.
by rewrite (matmulE mX (is_mat_transpose mP)) bindOk mx_of_rows_transpose.
Qed.

(** X11. transform_state_trace with a k x n matrix P maps every state x
    of the trace to P x (row i of the result is P times row i of the
    trace), whatever the generator is, which it leaves untouched. *)
Theorem transform_state_trace_rows m n k X P g :
  is_mat m n (Arr2 n X) -> is_mat k n (Arr2 n P) ->
  exists Y,
    [/\ transform (Arr2 n X) (Some (Arr2 n P)) g = Ok (Arr2 k Y, g),
        is_mat m k (Arr2 k Y)
      & forall i j, (i < m)%N -> (j < k)%N ->
          nth 0 (nth [::] Y i) j
          = \sum_(l < n) nth 0 (nth [::] P j) l * nth 0 (nth [::] X i) l].
Proof.
move=> mX mP; eexists; split.
- exact: transform_state_trace_mx mX mP.
- exact: is_mat_rows_of_mx.
move=> i j im jk.
rewrite (nth_rows_of_mx _ (Ordinal im) (Ordinal jk)) mxE.
by apply: eq_bigr => l _; rewrite !mxE mulrC.
Qed.

(** X12. The transformation matrix must have as many columns as the
    trace: any other 2-d matrix raises ValueError, and a trace that is
    not 2-d raises IndexError. *)
Theorem transform_state_trace_errors :
  (forall n c X P g, c != n ->
     transform (Arr2 n X) (Some (Arr2 c P)) g = Raise ValueError)
  /\ (forall v (t : option (ndarray F)) g,
        transform (Arr1 v) t g = Raise IndexError)
  /\ (forall (y : F) (t : option (ndarray F)) g,
        transform (Arr0 y) t g = Raise IndexError).
Proof.
split=> [n c X P g ne|]; last by [].
rewrite /transform_state_trace /shape1 !bindOk /np_T /matmul.
by rewrite size_transpose eq_sym (negbTE ne).
Qed.

Lemma mx_of_rowsK_mat m n X :
  is_mat m n (Arr2 n X) -> rows_of_mx (mx_of_rows m n X) = X.
Proof. by move=> /and3P[_ /eqP sX wfX]; apply: mx_of_rowsK. Qed.

(** X13. Round trip: transforming with an invertible matrix and then
    with its inverse, as numpy.linalg.inv returns it, gives the trace
    back. *)
Theorem transform_state_trace_inverse m n X P (Pinv : ndarray F) g :
  is_mat m n (Arr2 n X) -> is_mat n n (Arr2 n P) ->
  np_inv (Arr2 n P) = Ok Pinv ->
  exists tY : ndarray F,
    transform (Arr2 n X) (Some (Arr2 n P)) g = Ok (tY, g)
    /\ transform tY (Some Pinv) g = Ok (Arr2 n X, g).
Proof.
move=> mX mP; case/and3P: (mP) => _ /eqP sP _.
rewrite /np_inv sP eqxx; case: ifP => // uP [<-].
eexists; split; first exact: transform_state_trace_mx mX mP.
rewrite (transform_state_trace_mx _ (is_mat_rows_of_mx _)
           (is_mat_rows_of_mx _)).
rewrite !rows_of_mxK -mulmxA -trmx_mul mulVmx // trmx1 mulmx1.
by rewrite (mx_of_rowsK_mat mX).
Qed.

(** X14. Composition: transforming with P and then with Q is
    transforming with the matrix product Q @ P. *)
Theorem transform_state_trace_compose m n k l X P Q (QP : ndarray F) g :
  is_mat m n (Arr2 n X) -> is_mat k n (Arr2 n P) -> is_mat l k (Arr2 k Q) ->
  matmul (Arr2 k Q) (Arr2 n P) = Ok QP ->
  exists tY : ndarray F,
    transform (Arr2 n X) (Some (Arr2 n P)) g = Ok (tY, g)
    /\ transform tY (Some (Arr2 k Q)) g = transform (Arr2 n X) (Some QP) g.
Proof.
move=> mX mP mQ; rewrite (matmulE mQ mP) => -[<-].
eexists; split; first exact: transform_state_trace_mx mX mP.
rewrite (transform_state_trace_mx _ (is_mat_rows_of_mx _) mQ).
rewrite (transform_state_trace_mx _ mX (is_mat_rows_of_mx _)).
by rewrite !rows_of_mxK trmx_mul mulmxA.
Qed.

End Transform.

(** ** The identifier: which calls fail *)

Section IdentifierErrors.

Variable F : realFieldType.
Implicit Types (x u v w : seq F) (rows X U : seq (seq F)).

(** X15. identify_system succeeds exactly when the input has one row
    less than the trace (none for a trace of no row), the two being 2-d:
    it then returns arrays of shapes (n, n) and (p, n).  An input with
    another number of rows, or a 1-d input, raises ValueError, and a 1-d
    trace raises IndexError. *)
Theorem identify_system_errors :
  [/\ forall n X p U, size U = (size X).-1 ->
        exists a b : ndarray F,
          [/\ identify_system (Arr2 n X) (Arr2 p U) = Ok (a, b),
              shape a = [:: n; n] & shape b = [:: p; n]],
      forall n X p U, size U != (size X).-1 ->
        identify_system (Arr2 n X) (Arr2 p U) = Raise ValueError,
      forall n X u, identify_system (Arr2 n X) (Arr1 u) = Raise ValueError
    & forall v (inpt : ndarray F),
        identify_system (Arr1 v) inpt = Raise IndexError].
Proof.
have st X : size (take (size X).-1 X) = (size X).-1.
  by rewrite size_takel // leq_pred.
split=> //.
- move=> n X p U sU; rewrite /identify_system /= st sU eqxx /=.
  rewrite size_map size_zip st sU minnn size_behead eqxx /=.
  eexists; eexists; split; first by reflexivity.
    by rewrite /= size_takel // size_rows_of_mx leq_addr.
  by rewrite /= size_drop size_rows_of_mx addKn.
- move=> n X p U sU; rewrite /identify_system /= st.
  by rewrite eq_sym (negbTE sU).
Qed.

End IdentifierErrors.

(** ** More on the coefficient extractor *)

Section VietaMore.

Variable R : comNzRingType.
Implicit Types (roots s : seq R) (k i n : nat).

Lemma signr_sq k : (-1) ^+ k * (-1) ^+ k = 1 :> R.
Proof. by rewrite -exprD addnn -mul2n exprM sqrrN expr1n expr1n. Qed.

Lemma elem_sym_coef s k :
  (k <= size s)%N ->
  elem_sym k s = (-1) ^+ k * (\prod_(r <- s) ('X - r%:P))`_(size s - k).
Proof.
move=> le; rewrite (@coef_prod_XsubC_esym _ _ _ k) ?subnK //.
by rewrite mulrA signr_sq mul1r.
Qed.

Lemma elem_sym_perm s1 s2 k :
  perm_eq s1 s2 -> elem_sym k s1 = elem_sym k s2.
Proof.
move=> p12; have es := perm_size p12.
have [le|lt] := leqP k (size s1); last first.
  by rewrite !elem_sym_oversize -?es.
by rewrite !elem_sym_coef -?es // (perm_big _ p12).
Qed.

(** X16. The coefficients do not depend on the order in which the roots
    are listed. *)
Theorem roots2coeffs_perm roots1 roots2 :
  perm_eq roots1 roots2 -> roots2coeffs roots1 = roots2coeffs roots2.
Proof.
move=> p12; rewrite !roots2coeffsE (perm_size p12).
by apply: eq_map => i; rewrite (elem_sym_perm _ p12).
Qed.

Lemma horner_prod_XsubC_root s (r : R) :
  r \in s -> (\prod_(z <- s) ('X - z%:P)).[r] = 0.
Proof.
elim: s => [|z s IH] //; rewrite in_cons big_cons hornerM.
case/orP=> [/eqP->|/IH->]; last by rewrite mulr0.
by rewrite hornerXsubC subrr mul0r.
Qed.

(** X17. Round trip: every root given to roots2coeffs is a zero of the
    monic polynomial X^n + a_1 X^(n-1) + ... + a_n that the returned
    coefficients a_1 .. a_n stand for. *)
Theorem roots2coeffs_root roots (r : R) :
  r \in roots ->
  let n := size roots in
  r ^+ n + \sum_(i < n) nth 0 (roots2coeffs roots) i * r ^+ (n - i.+1) = 0.
Proof.
move=> rin n; rewrite -[RHS](horner_prod_XsubC_root rin).
set p := \prod_(z <- roots) _.
have sp : size p = n.+1 by rewrite size_prod_XsubC.
have mp : p \is monic by rewrite monic_prod_XsubC.
rewrite horner_coef sp big_ord_recr /= [RHS]addrC.
have -> : p`_n = 1 by move/monicP: mp; rewrite /lead_coef sp.
rewrite mul1r; congr (_ + _).
rewrite [RHS](reindex_inj rev_ord_inj) /=; apply: eq_bigr => i _.
rewrite nth_roots2coeffs // (@coef_prod_XsubC_esym _ _ _ i.+1) //.
by rewrite subnK.
Qed.

End VietaMore.

(** ** Real and complex eigenvalue lists *)

Section CoefficientMaps.

Variables (R S : comNzRingType) (f : {rmorphism R -> S}).

Lemma elem_sym_map k (s : seq R) :
  elem_sym k [seq f x | x <- s] = f (elem_sym k s).
Proof.
elim: s k => [|x s IH] [|k] /=;
  rewrite ?elem_sym0 ?rmorph1 ?elem_sym_nil ?rmorph0 //.
by rewrite !elem_sym_cons rmorphD rmorphM !IH.
Qed.

Lemma roots2coeffs_map (roots : seq R) :
  roots2coeffs [seq f x | x <- roots] = [seq f c | c <- roots2coeffs roots].
Proof.
rewrite !roots2coeffsE size_map -map_comp; apply: eq_map => i /=.
by rewrite elem_sym_map rmorphM rmorph_sign.
Qed.

End CoefficientMaps.

Section CanonicalEigenvalues.

Variable F : realFieldType.
Local Notation C := (complex F).
Implicit Types (eigvals : seq C) (xs : seq F).

(** X18. For a list of roots closed under complex conjugation (each
    complex root listed with its conjugate), the coefficients are real:
    taking np.real of them, as the canonical-form generator does, loses
    nothing. *)
Theorem roots2coeffs_conjugate_closed eigvals :
  perm_eq [seq conjc z | z <- eigvals] eigvals ->
  forall c, c \in roots2coeffs eigvals -> np_imag c = 0.
Proof.
move=> closed c cin; apply: conjc_fixed.
have E : [seq conjc c | c <- roots2coeffs eigvals] = roots2coeffs eigvals.
  rewrite -(roots2coeffs_map (@conjc F)) !roots2coeffsE (perm_size closed).
  by apply: eq_map => i; rewrite (elem_sym_perm _ closed).
case/(nthP 0): cin => i ilt <-.
by rewrite -{2}E (nth_map 0).
Qed.

Lemma char_poly_castmx m n (e : m = n) (A : 'M[F]_m) :
  char_poly (castmx (e, e) A) = char_poly A.
Proof. by case: n / e; rewrite castmx_id. Qed.

(** A matrix laid out as the code lays it out (ones above the diagonal,
    the negated coefficients of p in the last row) has p as its
    characteristic polynomial. *)
Lemma char_poly_companion_layout n (M : 'M[F]_n) (p : {poly F}) :
  p \is monic -> size p = n.+1 ->
  (forall i j : 'I_n,
     M i j = if (i : nat) == n.-1 then - p`_j else ((i.+1 == j :> nat)%:R)) ->
  char_poly M = p.
Proof.
move=> mp sp HM; have e : (size p).-1 = n by rewrite sp.
rewrite -[RHS](companionmxK mp) -(char_poly_castmx e); congr char_poly.
apply/matrixP => i j; rewrite castmxE !mxE /= HM.
by rewrite sp.
Qed.

Lemma real_part_poly n (P : {poly C}) :
  P \is monic -> size P = n.+1 ->
  let p := \poly_(j < n.+1) np_real P`_j in
  [/\ p \is monic, size p = n.+1 & forall j, p`_j = np_real P`_j].
Proof.
move=> mP sP p.
have lead : np_real P`_n = 1.
  by move/monicP: mP; rewrite /lead_coef sP /= => ->.
have sp : size p = n.+1 by rewrite size_poly_eq // lead oner_eq0.
split=> //.
  by apply/monicP; rewrite /lead_coef sp /= coef_poly ltnSn.
move=> j; rewrite coef_poly; case: ltnP => // le.
by rewrite nth_default ?sP.
Qed.

(** The canonical form built from an eigenvalue list: the coefficients
    of its characteristic polynomial are the real parts of those of
    prod (X - z). *)
Lemma ccf_char_poly_coef eigvals :
  eigvals != [::] ->
  let n := size eigvals in
  exists a b : ndarray F,
    [/\ make_ccf_system_from_eigenvalues eigvals = Ok (a, b),
        is_mat n n a /\ is_mat n 1 b
      & forall j, (char_poly (as_mx n n a))`_j
                  = np_real (\prod_(z <- eigvals) ('X - z%:P))`_j].
Proof.
move=> nz n.
have [a [b [E [[ma mb] super zero last _]]]] :=
  make_ccf_system_from_eigenvalues_form nz.
have sc : size (roots2coeffs eigvals) = n by rewrite size_roots2coeffs.
exists a, b; split=> //; first by rewrite -sc.
set P := \prod_(z <- eigvals) _.
have sP : size P = n.+1 by rewrite size_prod_XsubC.
have mP : P \is monic by rewrite monic_prod_XsubC.
have [mp sp cp] := real_part_poly mP sP.
have n0 : (0 < n)%N by rewrite lt0n size_eq0.
suff -> : char_poly (as_mx n n a) = \poly_(j < n.+1) np_real P`_j by [].
apply: char_poly_companion_layout => // i j; rewrite mxE cp.
case: eqP => [ei|ne].
  have jle : (j <= n.-1)%N by rewrite -ltnS (prednK n0).
  have klt : (n.-1 - j < n)%N.
    by rewrite (leq_ltn_trans (leq_subr _ _)) // (prednK n0).
  have := last (n.-1 - j)%N; rewrite sc subKn // ei => -> //.
  rewrite nth_roots2coeffs // (@coef_prod_XsubC_esym _ _ j (n.-1 - j).+1) //.
  by rewrite addnS subnKC ?prednK.
have lt : (i.+1 < n)%N.
  move: (ltn_ord i) ne; move: (nat_of_ord i) => k klt kne.
  by rewrite ltn_neqAle klt andbT; apply/eqP => e; apply: kne; rewrite -e.
have [->|ne2] := eqVneq (j : nat) i.+1.
  by rewrite super ?sc.
by rewrite zero ?sc.
Qed.

(** X19. The canonical form has the characteristic polynomial whose
    coefficients are the real parts of the coefficients of
    prod (X - z), z ranging over the eigenvalue list. *)
Theorem make_ccf_system_char_poly eigvals :
  eigvals != [::] ->
  let n := size eigvals in
  exists a b : ndarray F,
    make_ccf_system_from_eigenvalues eigvals = Ok (a, b)
    /\ char_poly (as_mx n n a)
       = \poly_(j < n.+1) np_real (\prod_(z <- eigvals) ('X - z%:P))`_j.
Proof.
move=> nz n; have [a [b [E _ H]]] := ccf_char_poly_coef nz.
exists a, b; split=> //; apply/polyP => j; rewrite H coef_poly.
case: ltnP => // le.
by rewrite nth_default // size_prod_XsubC.
Qed.

(** For real eigenvalues the canonical form has exactly these
    eigenvalues. *)
Lemma ccf_real_char_poly xs :
  xs != [::] ->
  let n := size xs in
  exists a b : ndarray F,
    [/\ make_ccf_system_from_eigenvalues [seq of_real x | x <- xs]
        = Ok (a, b),
        is_mat n n a /\ is_mat n 1 b
      & char_poly (as_mx n n a) = \prod_(x <- xs) ('X - x%:P)].
Proof.
move=> nz n.
have nz' : [seq @of_real F x | x <- xs] != [::] by case: (xs) nz.
have [a [b [E]]] := ccf_char_poly_coef nz'.
rewrite size_map -/n => mab H; exists a, b; split=> //.
apply/polyP => j; rewrite H big_map.
have -> : \prod_(x <- xs) ('X - (of_real x)%:P)
          = map_poly (@of_real F) (\prod_(x <- xs) ('X - x%:P)).
  by rewrite rmorph_prod; apply: eq_bigr => x _ /=; rewrite map_polyXsubC.
by rewrite coef_map.
Qed.

(** X20. For real eigenvalues the canonical form has exactly these
    eigenvalues: its characteristic polynomial is prod (X - x). *)
Theorem make_ccf_system_real_eigenvalues xs :
  xs != [::] ->
  exists a b : ndarray F,
    make_ccf_system_from_eigenvalues [seq of_real x | x <- xs] = Ok (a, b)
    /\ char_poly (as_mx (size xs) (size xs) a) = \prod_(x <- xs) ('X - x%:P).
Proof.
by move=> nz; have [a [b [E _ H]]] := ccf_real_char_poly nz; exists a, b.
Qed.

(** X21. For an eigenvalue list closed under conjugation the canonical
    form has exactly these eigenvalues: its characteristic polynomial,
    read over the complex numbers, is prod (X - z). *)
Theorem make_ccf_system_conjugate_closed eigvals :
  eigvals != [::] ->
  perm_eq [seq conjc z | z <- eigvals] eigvals ->
  let n := size eigvals in
  exists a b : ndarray F,
    make_ccf_system_from_eigenvalues eigvals = Ok (a, b)
    /\ map_poly (@of_real F) (char_poly (as_mx n n a))
       = \prod_(z <- eigvals) ('X - z%:P).
Proof.
move=> nz closed n.
have [a [b [E _ H]]] := ccf_char_poly_coef nz.
exists a, b; split=> //; set P := \prod_(z <- eigvals) _.
apply/polyP => j; rewrite coef_map H -/P.
have fixed : map_poly (@conjc F) P = P.
  rewrite rmorph_prod.
  rewrite (eq_bigr (fun z => 'X - (conjc z)%:P)) => [z _|].
    by rewrite /= map_polyXsubC.
  rewrite -(big_map (@conjc F) xpredT (fun w => 'X - w%:P)).
  exact: perm_big closed.
have /conjc_fixed : conjc P`_j = P`_j by rewrite -coef_map fixed.
by case: (P`_j) => re im /= ->.
Qed.

End CanonicalEigenvalues.

(** ** The general form: block-diagonal matrices and their spectrum *)

Section BlockDiagonal.

Variable F : realFieldType.
Implicit Types (x u v w : seq F) (rows : seq (seq F)).
Implicit Types (blocks : seq (nat * seq (seq F))).

Lemma block_diag_rows_shift c total left blocks :
  block_diag_rows (c + total) (c + left) blocks
  = [seq nseq c 0 ++ r | r <- block_diag_rows total left blocks].
Proof.
elim: blocks left => [|[d rows] blocks IH] left //=.
rewrite map_cat -addnA IH -map_comp; congr (_ ++ _).
apply: eq_map => r /=.
by rewrite subnDl nseqD -catA.
Qed.

Lemma size_square_blocks blocks :
  square_blocks blocks ->
  sumn [seq size q.2 | q <- blocks] = sumn [seq q.1 | q <- blocks].
Proof.
by elim: blocks => [|[d rows] blocks IH] //= /andP[/andP[/eqP-> _] /IH->].
Qed.

Lemma nth_cat_nseq (r : seq F) k j : nth 0 (r ++ nseq k 0) j = nth 0 r j.
Proof.
rewrite nth_cat; case: ltnP => // le.
by rewrite nth_nseq if_same nth_default.
Qed.

Lemma block_diag_rows_mx c rows blocks :
  size rows = c -> wf_rows c rows -> square_blocks blocks ->
  let N := sumn [seq q.1 | q <- blocks] in
  mx_of_rows (c + N) (c + N) (block_diag_rows (c + N) 0 ((c, rows) :: blocks))
  = block_mx (mx_of_rows c c rows) 0
             0 (mx_of_rows N N (block_diag_rows N 0 blocks)).
Proof.
move=> sr wfr sq N /=.
have -> : (0 + c = c + 0)%N by rewrite addn0.
rewrite block_diag_rows_shift subn0 addKn.
have sB : size (block_diag_rows N 0 blocks) = N.
  by rewrite size_block_diag_rows size_square_blocks.
apply/matrixP => i j; rewrite mxE -[i]splitK -[j]splitK.
case: (split i) => i'; case: (split j) => j' /=.
- rewrite block_mxEul mxE nth_cat size_map sr ltn_ord.
  rewrite (nth_map [::]) ?sr // nth_cat_nseq.
  by [].
- rewrite block_mxEur mxE nth_cat size_map sr ltn_ord.
  rewrite (nth_map [::]) ?sr // nth_cat (wf_rows_nth wfr) ?sr //.
  by rewrite ltnNge leq_addr /= addKn nth_nseq if_same.
- rewrite block_mxEdl mxE nth_cat size_map sr ltnNge leq_addr /= addKn.
  rewrite (nth_map [::]) ?sB // nth_cat size_nseq ltn_ord nth_nseq ltn_ord.
  by [].
rewrite block_mxEdr mxE nth_cat size_map sr ltnNge leq_addr /= addKn.
rewrite (nth_map [::]) ?sB // nth_cat size_nseq ltnNge leq_addr /= addKn.
by [].
Qed.

Lemma char_poly_block n1 n2 (A : 'M[F]_n1) (B : 'M[F]_n2) :
  char_poly (block_mx A 0 0 B) = char_poly A * char_poly B.
Proof. by rewrite /char_poly char_block_diag_mx det_ublock. Qed.

Lemma char_poly_block_diag blocks :
  square_blocks blocks ->
  let N := sumn [seq q.1 | q <- blocks] in
  char_poly (mx_of_rows N N (block_diag_rows N 0 blocks))
  = \prod_(q <- blocks) char_poly (mx_of_rows q.1 q.1 q.2).
Proof.
elim: blocks => [|[c rows] blocks IH] /=.
  by move=> _; rewrite big_nil /char_poly det_mx00.
case/andP=> /andP[/eqP sr wfr] sq.
by rewrite big_cons block_diag_rows_mx // char_poly_block IH.
Qed.

Lemma det_mx22 (R : comNzRingType) (M : 'M[R]_2) :
  \det M = M 0 0 * M 1 1 - M 0 1 * M 1 0.
Proof.
rewrite (expand_det_row _ ord0) !big_ord_recl big_ord0 addr0.
rewrite /cofactor !det_mx11 !mxE /= !expr0 expr1 mul1r mulN1r.
have -> : lift ord0 ord0 = 1 :> 'I_2 by apply: val_inj.
have -> : lift (1 : 'I_2) (0 : 'I_1) = 0 :> 'I_2 by apply: val_inj.
by rewrite mulrN.
Qed.

Lemma char_poly_real_block (x : F) :
  char_poly (mx_of_rows 1 1 [:: [:: x]]) = 'X - x%:P.
Proof. by rewrite /char_poly det_mx11 !mxE /= mulr1n. Qed.

Lemma char_poly_pair_block (z : complex F) :
  char_poly
    (mx_of_rows 2 2 [:: [:: np_real z; np_imag z];
                        [:: - np_imag z; np_real z]])
  = pair_poly z.
Proof.
rewrite /char_poly det_mx22 !mxE /= /pair_poly.
rewrite mulr1n mulr0n !sub0r polyCN opprK polyCD !exprS !expr0 !mulr1.
rewrite -mul_polyC !polyCM.
set a := (np_real z)%:P; set b := (np_imag z)%:P.
by rewrite polyCD; ring.
Qed.

End BlockDiagonal.

Section GeneralForm.

Variable F : realFieldType.
Variable rng : Type.
Variable next_uniform : rng -> F * rng.
Implicit Types (rows X Y : seq (seq F)).
Implicit Types (blocks : seq (nat * seq (seq F))) (g : rng).
Implicit Types (zr : seq F) (zc : seq (complex F)).

Lemma modal_blocks_square zr zc : square_blocks (modal_blocks zr zc).
Proof.
rewrite /square_blocks /modal_blocks all_cat; apply/andP; split.
  by apply/allP => q /mapP[x _ ->].
by apply/allP => q /mapP[z _ ->].
Qed.

Lemma modal_blocks_sumn zr zc :
  sumn [seq q.1 | q <- modal_blocks zr zc] = (size zr + 2 * size zc)%N.
Proof.
rewrite /modal_blocks map_cat sumn_cat -!map_comp /=.
congr (_ + _)%N; first by elim: zr => //= ? ? ->.
by elim: zc => //= ? s ->; rewrite mulnS.
Qed.

Lemma modal_blocks_char_poly zr zc :
  \prod_(q <- modal_blocks zr zc) char_poly (mx_of_rows q.1 q.1 q.2)
  = \prod_(x <- zr) ('X - x%:P) * \prod_(z <- zc) pair_poly z.
Proof.
rewrite /modal_blocks big_cat !big_map /=; congr (_ * _).
  by apply: eq_bigr => x _; rewrite char_poly_real_block.
by apply: eq_bigr => z _; rewrite char_poly_pair_block.
Qed.

Lemma wf_block_diag_rows total left blocks :
  square_blocks blocks ->
  (left + sumn [seq q.1 | q <- blocks] <= total)%N ->
  wf_rows total (block_diag_rows total left blocks).
Proof.
elim: blocks left => [|[c rows] blocks IH] left //=.
case/andP=> /andP[_ /wf_rowsP wfr] sq le.
rewrite /wf_rows all_cat; apply/andP; split; last first.
  by apply: IH => //; rewrite -addnA.
apply/allP => r' /mapP[r /wfr sr ->]; rewrite !size_cat !size_nseq sr.
rewrite -subnDA addnA subnKC //.
by apply: leq_trans le; rewrite addnA leq_addr.
Qed.

Lemma char_poly_modal n zr zc :
  (size zr + 2 * size zc)%N = n ->
  char_poly (mx_of_rows n n (block_diag_rows n 0 (modal_blocks zr zc)))
  = \prod_(x <- zr) ('X - x%:P) * \prod_(z <- zc) pair_poly z.
Proof.
rewrite -modal_blocks_sumn => <-.
by rewrite char_poly_block_diag ?modal_blocks_square // modal_blocks_char_poly.
Qed.

Lemma is_mat_modal n zr zc :
  (size zr + 2 * size zc)%N = n ->
  is_mat n n (Arr2 n (block_diag_rows n 0 (modal_blocks zr zc))).
Proof.
move=> e; rewrite /is_mat eqxx size_block_diag_rows.
rewrite size_square_blocks ?modal_blocks_square // modal_blocks_sumn e eqxx /=.
by rewrite wf_block_diag_rows ?modal_blocks_square // modal_blocks_sumn e.
Qed.

Lemma is_mat_identity n : is_mat n n (identity F n).
Proof.
rewrite /is_mat /identity eqxx size_mkseq eqxx /=.
by apply/allP => r /mapP[i _ ->]; rewrite size_mkseq.
Qed.

(** What a successful call of make_random_system_from_eigenvalues
    computes: a change of basis of the modal form. *)
Lemma make_random_system_from_eigenvalues_ok zr zc k g a b g' :
  make_random_system_from_eigenvalues next_uniform zr zc k g = Ok (a, b, g') ->
  let n := (size zr + 2 * size zc)%N in
  exists2 T : 'M[F]_n, T \in unitmx
    & a = Arr2 n (rows_of_mx
                    (invmx T
                     *m mx_of_rows n n
                          (block_diag_rows n 0 (modal_blocks zr zc))
                     *m T)).
Proof.
move=> H; set n := (size zr + 2 * size zc)%N.
move: H; rewrite /make_random_system_from_eigenvalues -/n.
case Er: (rand2 _ _ _ _) => [r g1].
have mr : is_mat n n (Arr2 n r).
  by have := draws2_mat next_uniform n n g; rewrite -/(rand2 _ _ _ _) Er.
rewrite /identity (np_add_mat mr (is_mat_identity n)) bindOk.
set T := addm r _.
have mT : is_mat n n (Arr2 n T) := is_mat_addm mr (is_mat_identity n).
case/and3P: (mT) => _ /eqP sT _.
rewrite /np_inv sT eqxx; case: ifP => [uT|//]; rewrite bindOk.
set blocks := (_ ++ _).
have Eb : [seq atleast_2d d | d <- blocks] = modal_blocks zr zc.
  by rewrite /blocks /modal_blocks map_cat -!map_comp.
have [n0|npos] := posnP n.
  have /eqP := n0; rewrite /n addn_eq0 muln_eq0 /= !size_eq0.
  case/andP=> /eqP zr0 /eqP zc0.
  by rewrite /blocks zr0 zc0 /=.
have -> : block_diag blocks
          = Arr2 n (block_diag_rows n 0 (modal_blocks zr zc)).
  rewrite /block_diag Eb modal_blocks_sumn -/n; case E: blocks => [|d ds] //.
  move: (modal_blocks_sumn zr zc); rewrite -Eb E /= -/n => n0.
  by rewrite -n0 in npos.
rewrite (matmulE (is_mat_rows_of_mx _) (is_mat_modal (erefl n))) bindOk.
rewrite (matmulE (is_mat_rows_of_mx _) mT) bindOk !rows_of_mxK.
case: (rand2 _ _ _ _) => rb g2 [<- _ _].
by exists (mx_of_rows n n T).
Qed.

(** X22. The general form has the eigenvalues it was asked for.  A
    successful call returns an n x n state matrix, n the number of real
    eigenvalues plus twice the number of complex ones, and an n x
    n_inputs input matrix; the characteristic polynomial of the state
    matrix is the product of X - x over the real eigenvalues x and of
    X^2 - 2 Re(z) X + |z|^2 over the complex ones. *)
Theorem make_random_system_from_eigenvalues_char_poly zr zc k g a b g' :
  make_random_system_from_eigenvalues next_uniform zr zc k g = Ok (a, b, g') ->
  let n := (size zr + 2 * size zc)%N in
  [/\ is_mat n n a, is_mat n k b
    & char_poly (as_mx n n a)
      = \prod_(x <- zr) ('X - x%:P) * \prod_(z <- zc) pair_poly z].
Proof.
move=> H n; have [T uT Ea] := make_random_system_from_eigenvalues_ok H.
split; first by rewrite Ea is_mat_rows_of_mx.
  exact: make_random_system_from_eigenvalues_b H.
rewrite Ea as_mx_rows_of_mx -{2}[T]invmxK char_poly_conj ?unitmx_inv //.
exact: char_poly_modal.
Qed.

(** X23. Without any eigenvalue the call fails: block_diag of no block
    has shape (1, 0) and cannot be multiplied with the 0 x 0 change of
    basis. *)
Theorem make_random_system_from_eigenvalues_empty k g :
  make_random_system_from_eigenvalues next_uniform [::] [::] k g
  = Raise ValueError.
Proof.
rewrite /make_random_system_from_eigenvalues /=.
case: ifP => [//|/negP[]].
by rewrite unitmxE det_mx00 unitr1.
Qed.

End GeneralForm.

Section GeneralSystems.

Variable F : realFieldType.
Variable rng : Type.
Variable next_uniform : rng -> F * rng.
Variables (sqrt cos sin : F -> F) (pi : F).
Implicit Types (g : rng) (mhr : seq F) (mhc : seq (complex F)).

Local Notation mrs := (make_random_system next_uniform sqrt cos sin pi).
Local Notation pairs := (random_pairs sqrt cos sin pi).

Lemma all_draws (P : pred F) (next : rng -> F * rng) k g :
  (forall g0, P (next g0).1) -> all P (draws next k g).1.
Proof.
move=> Pn; elim: k g => [|k IH] g //=.
case E: (next g) (Pn g) => [y g1] /= Py.
by case E2: (draws next k g1) (IH g1) => [ys g2] /= ->; rewrite Py.
Qed.

(** The eigenvalue lists that make_random_system hands over in general
    form: the mandatory real eigenvalues followed by at most one random
    one, and the random complex eigenvalues followed by the mandatory
    ones. *)
Lemma make_random_system_general_lists n_states n_inputs z_min z_max mhr
    mhc g :
  (size mhr + 2 * size mhc < n_states)%N ->
  let m := (n_states - (size mhr + 2 * size mhc))%N in
  exists (r1 r2 r3 : seq F) (g3 : rng),
    [/\ size r1 = (m %/ 2)%N /\ size r2 = (m %/ 2)%N, size r3 = (m %% 2)%N,
        forall P : pred F, (forall g0, P (next_uniform g0).1) ->
          all P r1 /\ all P r3
      & mrs n_states n_inputs z_min z_max mhr mhc false g
        = make_random_system_from_eigenvalues next_uniform
            (mhr ++ [seq z_min + r * (z_max - z_min) | r <- r3])
            (pairs z_min z_max r1 r2 ++ mhc) 1 g3].
Proof.
move=> lt m; rewrite /make_random_system n_random_pos lt /=.
rewrite n_random_abs // -/m.
case E1: (rand _ _ g) (size_rand next_uniform (m %/ 2) g) => [r1 g1] /= s1.
case E2: (rand _ _ g1) (size_rand next_uniform (m %/ 2) g1) => [r2 g2] /= s2.
have P1 (P : pred F) : (forall g0, P (next_uniform g0).1) -> all P r1.
  by move=> Pn; have := all_draws (m %/ 2) g Pn; rewrite -/(rand _ _ _) E1.
rewrite zip_map2 -map_comp.
case: ifP => [_|/negbFE/eqP m0].
  case E3: (rand _ _ g2) (size_rand next_uniform (m %% 2) g2) => [r3 g3] /= s3.
  exists r1, r2, r3, g3; split=> // P Pn; split; first exact: P1.
  by have := all_draws (m %% 2) g2 Pn; rewrite -/(rand _ _ _) E3.
exists r1, r2, [::], g2; split; rewrite ?cats0 ?m0 // => P Pn.
by split=> //; apply: P1.
Qed.

(** X24. In general form make_random_system returns, when it succeeds,
    an n_states x n_states state matrix and an n_states x 1 input matrix.
    The characteristic polynomial of the state matrix has a factor X - x
    for every mandatory real eigenvalue x and a factor
    X^2 - 2 Re(z) X + |z|^2 for every mandatory complex eigenvalue z; the
    other factors come from at most one random real eigenvalue and from
    random conjugate pairs. *)
Theorem make_random_system_general_spectrum n_states n_inputs z_min z_max
    mhr mhc g (a b : ndarray F) g' :
  mrs n_states n_inputs z_min z_max mhr mhc false g = Ok (a, b, g') ->
  exists (zr_rand : seq F) (zc_rand : seq (complex F)),
    [/\ (size mhr + size zr_rand + 2 * (size zc_rand + size mhc))%N
        = n_states /\ (size zr_rand <= 1)%N,
        is_mat n_states n_states a /\ is_mat n_states 1 b
      & char_poly (as_mx n_states n_states a)
        = \prod_(x <- mhr ++ zr_rand) ('X - x%:P)
          * \prod_(z <- zc_rand ++ mhc) pair_poly z].
Proof.
have [le|lt] := leqP n_states (size mhr + 2 * size mhc).
  by rewrite make_random_system_assert.
have [r1 [r2 [r3 [g3 [[s1 s2] s3 _ ->]]]]] :=
  make_random_system_general_lists n_inputs z_min z_max g lt.
set zr_rand := map _ r3; set zc_rand := pairs _ _ _ _ => H.
have szc : size zc_rand = ((n_states - (size mhr + 2 * size mhc)) %/ 2)%N.
  by rewrite size_map size_zip s1 s2 minnn.
have [T uT Ea] := make_random_system_from_eigenvalues_ok H.
have mb := make_random_system_from_eigenvalues_b H.
have e : (size (mhr ++ zr_rand) + 2 * size (zc_rand ++ mhc))%N = n_states.
  by rewrite !size_cat size_map s3 szc; apply: eigenvalue_count_general.
exists zr_rand, zc_rand; split.
- by rewrite -e !size_cat size_map s3 -ltnS ltn_mod.
- by rewrite -e Ea is_mat_rows_of_mx.
rewrite -e Ea as_mx_rows_of_mx -{2}[T]invmxK char_poly_conj ?unitmx_inv //.
exact: char_poly_modal.
Qed.

Lemma random_pair_modulus (mag theta : F) :
  cos theta ^+ 2 + sin theta ^+ 2 = 1 ->
  let z := of_real mag * exp_i cos sin theta in
  np_real z ^+ 2 + np_imag z ^+ 2 = mag ^+ 2.
Proof.
move=> trig /=; rewrite -[RHS]mulr1 -trig.
by rewrite !mul0r subr0 addr0; ring.
Qed.

(** X25. The random eigenvalues of the general form lie where they were
    asked to lie.  When the uniform samples are between 0 and 1, sqrt is
    a square root on [z_min^2, z_max^2], cos^2 + sin^2 = 1 and
    0 <= z_min <= z_max: the random real eigenvalue is between z_min and
    z_max, and every random complex eigenvalue has a modulus between
    z_min and z_max (stated on the squares). *)
Theorem make_random_system_annulus n_states n_inputs z_min z_max
    mhr mhc g (a b : ndarray F) g' :
  (forall g0, 0 <= (next_uniform g0).1 <= 1) ->
  (forall v, z_min ^+ 2 <= v <= z_max ^+ 2 -> sqrt v ^+ 2 = v) ->
  (forall theta, cos theta ^+ 2 + sin theta ^+ 2 = 1) ->
  0 <= z_min <= z_max ->
  mrs n_states n_inputs z_min z_max mhr mhc false g = Ok (a, b, g') ->
  exists (zr_rand : seq F) (zc_rand : seq (complex F)),
    [/\ char_poly (as_mx n_states n_states a)
        = \prod_(x <- mhr ++ zr_rand) ('X - x%:P)
          * \prod_(z <- zc_rand ++ mhc) pair_poly z,
        all (fun x => z_min <= x <= z_max) zr_rand
      & all (fun z => z_min ^+ 2 <= np_real z ^+ 2 + np_imag z ^+ 2
                      <= z_max ^+ 2) zc_rand].
Proof.
move=> unif sqrtK trig /andP[z0 zle].
have [le|lt] := leqP n_states (size mhr + 2 * size mhc).
  by rewrite make_random_system_assert.
have [r1 [r2 [r3 [g3 [[s1 s2] s3 range ->]]]]] :=
  make_random_system_general_lists n_inputs z_min z_max g lt.
have [/allP u1 /allP u3] := range (fun r => 0 <= r <= 1) unif.
set zr_rand := map _ r3; set zc_rand := pairs _ _ _ _ => H.
have szc : size zc_rand = ((n_states - (size mhr + 2 * size mhc)) %/ 2)%N.
  by rewrite size_map size_zip s1 s2 minnn.
have [T uT Ea] := make_random_system_from_eigenvalues_ok H.
have e : (size (mhr ++ zr_rand) + 2 * size (zc_rand ++ mhc))%N = n_states.
  by rewrite !size_cat size_map s3 szc; apply: eigenvalue_count_general.
have between (lo hi r : F) : lo <= hi -> 0 <= r <= 1 ->
    lo <= lo + r * (hi - lo) <= hi.
  move=> le /andP[r0 r1le]; have d0 : 0 <= hi - lo by rewrite subr_ge0.
  rewrite lerDl mulr_ge0 //= -lerBrDl.
  by rewrite -{2}[hi - lo]mul1r ler_wpM2r.
exists zr_rand, zc_rand; split.
- rewrite -e Ea as_mx_rows_of_mx -{2}[T]invmxK char_poly_conj ?unitmx_inv //.
  exact: char_poly_modal.
- by apply/allP => x /mapP[r /u3 rin ->]; apply: between.
apply/allP => z /mapP[[q1 q2] /mem_zipl/u1 qin ->].
have sq : z_min ^+ 2 <= z_max ^+ 2.
  by rewrite ler_pXn2r // nnegrE ?(le_trans z0).
by rewrite random_pair_modulus // sqrtK between.
Qed.

(** X26. Canonical form without complex eigenvalues.  Asked for one
    state more than there are mandatory real eigenvalues, and for no
    complex one, make_random_system with ccf=True always succeeds: it
    draws one real eigenvalue x = z_min + r (z_max - z_min) from the
    first uniform sample r, and returns an n_states x n_states state
    matrix whose characteristic polynomial is the product of X - y over
    the mandatory eigenvalues y and x, with an n_states x 1 input
    matrix. *)
Theorem make_random_system_ccf_real_spectrum n_inputs z_min z_max mhr g :
  let n := (size mhr).+1 in
  let x := z_min + (next_uniform g).1 * (z_max - z_min) in
  exists (a b : ndarray F) g',
    [/\ mrs n n_inputs z_min z_max mhr [::] true g = Ok (a, b, g'),
        is_mat n n a /\ is_mat n 1 b
      & char_poly (as_mx n n a) = \prod_(y <- mhr ++ [:: x]) ('X - y%:P)].
Proof.
move=> n x; rewrite /x {x} /make_random_system n_random_pos muln0 addn0.
rewrite ltnSn /= n_random_abs ?muln0 ?addn0 // subSnn /=.
case: (next_uniform g) => r g1 /=; set x := z_min + _.
have nz : mhr ++ [:: x] != [::] by case: (mhr).
have e : size (mhr ++ [:: x]) = n by rewrite size_cat addn1.
have [a [b [E]]] := ccf_real_char_poly nz; rewrite e => mab H.
by exists a, b, g1; rewrite /rand /= E.
Qed.

End GeneralSystems.

(** ** The cells of the notebook: simulate, corrupt, identify *)

Section Notebook.

Variable F : realFieldType.
Variable rng : Type.
Variable next_normal : rng -> F * rng.
Implicit Types (rows rowsA X U : seq (seq F)) (bvec : seq F) (g : rng).




Lemma shapes_of_blocks n p (a b : ndarray F) :
  is_mat n n a -> is_mat p n b ->
  shape a = [:: n; n] /\ shape b = [:: p; n].
Proof. by move=> /is_mat_shape-> /is_mat_shape->. Qed.


Lemma is_mat_slice_cols m n q X :
  is_mat m n (Arr2 n X) -> (q <= n)%N ->
  is_mat m q (Arr2 (minn q n) [seq take q r | r <- X]).
Proof.
move=> /and3P[_ /eqP sX /wf_rowsP wfX] qn.
rewrite /is_mat (minn_idPl qn) eqxx size_map sX eqxx /=.
by apply/wf_rowsP => r' /mapP[r /wfX sr ->]; rewrite size_takel ?sr.
Qed.

(** X29. Under-modelling, as in the last cells of the notebook: keeping
    the first q of the n state variables (x_trace[:, :q], q at most n)
    and identifying from them succeeds, and returns arrays of shapes
    (q, q) and (p, q) that minimise the residual on the truncated
    trace. *)
Theorem undermodelled_identification T n p q X U :
  is_mat T.+1 n (Arr2 n X) -> is_mat T p (Arr2 p U) -> (q <= n)%N ->
  exists um_x_trace a_um b_um : ndarray F,
    [/\ slice_cols q (Arr2 n X) = Ok um_x_trace,
        identify_system um_x_trace (Arr2 p U) = Ok (a_um, b_um),
        shape um_x_trace = [:: T.+1; q],
        shape a_um = [:: q; q] /\ shape b_um = [:: p; q]
      & forall M' : 'M[F]_(q + p, q),
          residual2 T (rows_of um_x_trace) U
            (col_mx (as_mx q q a_um) (as_mx p q b_um))
          <= residual2 T (rows_of um_x_trace) U M'].
Proof.
move=> mX mU qn; have mXq := is_mat_slice_cols mX qn.
move: mXq; rewrite (minn_idPl qn) => mXq.
have [a [b [idE ma mb abE]]] := identify_system_blocks mXq mU.
exists (Arr2 q [seq take q r | r <- X]), a, b; split=> //.
- by rewrite /slice_cols (minn_idPl qn).
- exact: is_mat_shape.
- exact: shapes_of_blocks.
by move=> M'; rewrite abE /residual2 lstsq_le.
Qed.

End Notebook.

(** ** Instances *)

Section Instances.

Local Notation Q := rat.

Lemma make_state_trace_shape_witness :
  make_state_trace (Arr2 2 exA) (Arr2 1 exB) (Arr2 1 exU) (Some (Arr1 ex0))
  = Ok (Arr2 2 exX)
  /\ exists n T rows,
       [/\ shape0 (Arr2 2 exA) = Ok n, shape0 (Arr2 1 exU) = Ok T,
           Arr2 2 exX = Arr2 n rows, is_mat T.+1 n (Arr2 n rows)
         & broadcast_to_row n (Arr1 ex0) = Ok (nth [::] rows 0)].
Proof.
have tr := example_trace; split; first exact: tr.
exact: (make_state_trace_shape tr).
Defined.

Lemma make_state_trace_single_input_recurrence_witness :
  [/\ is_mat 2 2 (Arr2 2 exA), is_mat 2 1 (Arr2 1 exB),
      is_mat 3 1 (Arr2 1 exU) & size ex0 = 2%N]
  /\ exists X,
       [/\ make_state_trace (Arr2 2 exA) (Arr2 1 exB) (Arr2 1 exU)
             (Some (Arr1 ex0)) = Ok (Arr2 2 X),
           is_mat 4 2 (Arr2 2 X),
           nth [::] X 0 = ex0
         & forall i j, (i < 3)%N -> (j < 2)%N ->
             nth 0 (nth [::] X i.+1) j
             = \sum_(k < 2) nth 0 (nth [::] exA j) k * nth 0 (nth [::] X i) k
               + nth 0 (nth [::] exB j) 0 * nth 0 (nth [::] exU i) 0].
Proof.
split; first by [].
exact: (@make_state_trace_single_input_recurrence _ 2 3 exA exB exU
          (Some ex0) isT isT isT erefl).
Defined.

Lemma make_state_trace_vector_input_matrix_witness :
  [/\ is_mat 2 2 (Arr2 2 exA), size exb = 2%N & is_mat 3 1 (Arr2 1 exU)]
  /\ exists X,
       [/\ make_state_trace (Arr2 2 exA) (Arr1 exb) (Arr2 1 exU) None
           = Ok (Arr2 2 X),
           is_mat 4 2 (Arr2 2 X),
           nth [::] X 0 = zeros1 Q 2
         & forall i j, (i < 3)%N -> (j < 2)%N ->
             nth 0 (nth [::] X i.+1) j
             = \sum_(k < 2) nth 0 (nth [::] exA j) k * nth 0 (nth [::] X i) k
               + nth 0 exb j * nth 0 (nth [::] exU i) 0].
Proof.
split; first by [].
exact: (@make_state_trace_vector_input_matrix _ 2 3 exA exb exU None
          isT erefl isT erefl).
Defined.

Lemma make_state_trace_initial_state_raises_witness :
  (shape0 (Arr2 2 exA) = Ok 2%N /\ shape0 (Arr2 1 exU) = Ok 3%N)
  /\ (forall c col, size col != 1%N ->
        make_state_trace (Arr2 2 exA) (Arr2 1 exB) (Arr2 1 exU)
          (Some (Arr2 c col)) = Raise ValueError)
  /\ (forall w : seq Q, size w != 2%N -> size w != 1%N ->
        make_state_trace (Arr2 2 exA) (Arr2 1 exB) (Arr2 1 exU)
          (Some (Arr1 w)) = Raise ValueError).
Proof.
split; first by [].
exact: (@make_state_trace_initial_state_raises _ (Arr2 2 exA) (Arr2 1 exB)
          (Arr2 1 exU) 2 3 erefl erefl).
Defined.

Lemma make_state_trace_empty_input_witness :
  (shape0 (Arr2 2 exA) = Ok 2%N /\ size ex0 = 2%N)
  /\ make_state_trace (Arr2 2 exA) (Arr0 0) (Arr2 1 [::]) (Some (Arr1 ex0))
     = Ok (Arr2 2 [:: ex0]).
Proof.
split; first by [].
exact: (@make_state_trace_empty_input _ (Arr2 2 exA) (Arr0 0) 2 1 (Some ex0)
          erefl erefl).
Defined.

Lemma make_state_trace_restart_witness :
  [/\ is_mat 2 2 (Arr2 2 exA), is_mat 2 1 (Arr2 1 exB),
      is_mat 3 1 (Arr2 1 exU) & size ex0 = 2%N]
  /\ exists X1 X2,
       [/\ make_state_trace (Arr2 2 exA) (Arr2 1 exB) (Arr2 1 exU)
             (Some (Arr1 ex0)) = Ok (Arr2 2 X1),
           make_state_trace (Arr2 2 exA) (Arr2 1 exB) (Arr2 1 exU)
             (Some (Arr1 (last ex0 X1))) = Ok (Arr2 2 X2)
         & make_state_trace (Arr2 2 exA) (Arr2 1 exB)
             (Arr2 1 (exU ++ exU)) (Some (Arr1 ex0))
           = Ok (Arr2 2 (X1 ++ behead X2))].
Proof.
split; first by [].
exact: (@make_state_trace_restart _ 2 3 3 exA exB exU exU ex0
          isT isT isT isT erefl).
Defined.

Lemma make_state_trace_superposition_witness :
  [/\ is_mat 2 2 (Arr2 2 exA), is_mat 2 1 (Arr2 1 exB),
      is_mat 3 1 (Arr2 1 exU) & size ex0 = 2%N]
  /\ exists Xa Xb usum xsum Xs : ndarray Q,
       [/\ make_state_trace (Arr2 2 exA) (Arr2 1 exB) (Arr2 1 exU)
             (Some (Arr1 ex0)) = Ok Xa,
           make_state_trace (Arr2 2 exA) (Arr2 1 exB) (Arr2 1 exU)
             (Some (Arr1 ex0)) = Ok Xb,
           np_add (Arr2 1 exU) (Arr2 1 exU) = Ok usum
           /\ np_add (Arr1 ex0) (Arr1 ex0) = Ok xsum,
           make_state_trace (Arr2 2 exA) (Arr2 1 exB) usum (Some xsum)
           = Ok Xs
         & np_add Xa Xb = Ok Xs].
Proof.
split; first by [].
exact: (@make_state_trace_superposition _ 2 3 exA exB exU exU ex0 ex0
          isT isT isT isT erefl erefl).
Defined.


Lemma corrupt_state_trace_no_noise_witness :
  wf (Arr2 2 exX)
  /\ exists g', corrupt_state_trace next0 (Arr2 2 exX) 0 tt
                = Ok (Arr2 2 exX, g').
Proof.
split; first by [].
exact: (@corrupt_state_trace_no_noise _ unit next0 (Arr2 2 exX) tt isT).
Defined.

Lemma transform_state_trace_rows_witness :
  (is_mat 4 2 (Arr2 2 exX) /\ is_mat 2 2 (Arr2 2 exP))
  /\ exists Y,
       [/\ transform_state_trace next0 (Arr2 2 exX) (Some (Arr2 2 exP)) tt
           = Ok (Arr2 2 Y, tt),
           is_mat 4 2 (Arr2 2 Y)
         & forall i j, (i < 4)%N -> (j < 2)%N ->
             nth 0 (nth [::] Y i) j
             = \sum_(l < 2) nth 0 (nth [::] exP j) l
                            * nth 0 (nth [::] exX i) l].
Proof.
split; first by [].
exact: (@transform_state_trace_rows _ unit next0 4 2 2 exX exP tt isT isT).
Defined.

Lemma example_inv :
  np_inv (Arr2 2 exP)
  = Ok (Arr2 2 (rows_of_mx (invmx (mx_of_rows 2 2 exP)))).
Proof. by rewrite /np_inv /= example_P_unit. Qed.

Lemma transform_state_trace_inverse_witness :
  [/\ is_mat 4 2 (Arr2 2 exX), is_mat 2 2 (Arr2 2 exP)
    & np_inv (Arr2 2 exP)
      = Ok (Arr2 2 (rows_of_mx (invmx (mx_of_rows 2 2 exP))))]
  /\ exists tY : ndarray Q,
       transform_state_trace next0 (Arr2 2 exX) (Some (Arr2 2 exP)) tt
       = Ok (tY, tt)
       /\ transform_state_trace next0 tY
            (Some (Arr2 2 (rows_of_mx (invmx (mx_of_rows 2 2 exP))))) tt
          = Ok (Arr2 2 exX, tt).
Proof.
have inv := example_inv; split; first by split.
exact: (@transform_state_trace_inverse _ unit next0 4 2 exX exP _ tt
          isT isT inv).
Defined.

Lemma example_square :
  matmul (Arr2 2 exP) (Arr2 2 exP)
  = Ok (Arr2 2 (rows_of_mx (mx_of_rows 2 2 exP *m mx_of_rows 2 2 exP))).
Proof. exact: (@matmulE _ 2 2 2). Qed.

Lemma transform_state_trace_compose_witness :
  [/\ is_mat 4 2 (Arr2 2 exX), is_mat 2 2 (Arr2 2 exP)
    & matmul (Arr2 2 exP) (Arr2 2 exP)
      = Ok (Arr2 2 (rows_of_mx (mx_of_rows 2 2 exP *m mx_of_rows 2 2 exP)))]
  /\ exists tY : ndarray Q,
       transform_state_trace next0 (Arr2 2 exX) (Some (Arr2 2 exP)) tt
       = Ok (tY, tt)
       /\ transform_state_trace next0 tY (Some (Arr2 2 exP)) tt
          = transform_state_trace next0 (Arr2 2 exX)
              (Some (Arr2 2 (rows_of_mx
                               (mx_of_rows 2 2 exP *m mx_of_rows 2 2 exP))))
              tt.
Proof.
have sq := example_square; split; first by split.
exact: (@transform_state_trace_compose _ unit next0 4 2 2 2 exX exP exP _ tt
          isT isT isT sq).
Defined.

Lemma roots2coeffs_perm_witness :
  perm_eq [:: 2; 3 : Q] [:: 3; 2]
  /\ roots2coeffs [:: 2; 3 : Q] = roots2coeffs [:: 3; 2].
Proof.
have p : perm_eq [:: 2; 3 : Q] [:: 3; 2] by [].
by split; [exact: p | exact: (roots2coeffs_perm p)].
Defined.

Lemma roots2coeffs_root_witness :
  (2 : Q) \in [:: 2; 3 : Q]
  /\ (2 : Q) ^+ 2
     + \sum_(i < 2) nth 0 (roots2coeffs [:: 2; 3 : Q]) i * 2 ^+ (2 - i.+1)
     = 0.
Proof.
have rin : (2 : Q) \in [:: 2; 3 : Q] by [].
by split; [exact: rin | exact: (roots2coeffs_root rin)].
Defined.

Lemma example_conjugates : perm_eq [seq conjc z | z <- exI] exI.
Proof.
have -> : [seq conjc z | z <- exI] = rev exI.
  by rewrite /exI /= /conjc /= opprK.
by rewrite perm_rev.
Qed.

Lemma roots2coeffs_conjugate_closed_witness :
  perm_eq [seq conjc z | z <- exI] exI
  /\ forall c, c \in roots2coeffs exI -> np_imag c = 0.
Proof.
have closed := example_conjugates.
by split; [exact: closed | exact: (roots2coeffs_conjugate_closed closed)].
Defined.

Lemma make_ccf_system_char_poly_witness :
  [:: of_real (2 : Q); of_real 3] != [::]
  /\ exists a b : ndarray Q,
       make_ccf_system_from_eigenvalues [:: of_real 2; of_real 3] = Ok (a, b)
       /\ char_poly (as_mx 2 2 a)
          = \poly_(j < 3)
              np_real (\prod_(z <- [:: of_real (2 : Q); of_real 3])
                          ('X - z%:P))`_j.
Proof.
split; first by [].
exact: (@make_ccf_system_char_poly _ [:: of_real 2; of_real 3] isT).
Defined.

Lemma make_ccf_system_real_eigenvalues_witness :
  [:: 2; 3 : Q] != [::]
  /\ exists a b : ndarray Q,
       make_ccf_system_from_eigenvalues [:: of_real 2; of_real 3] = Ok (a, b)
       /\ char_poly (as_mx 2 2 a) = \prod_(x <- [:: 2; 3 : Q]) ('X - x%:P).
Proof.
split; first by [].
exact: (@make_ccf_system_real_eigenvalues _ [:: 2; 3] isT).
Defined.

Lemma make_ccf_system_conjugate_closed_witness :
  (exI != [::] /\ perm_eq [seq conjc z | z <- exI] exI)
  /\ exists a b : ndarray Q,
       make_ccf_system_from_eigenvalues exI = Ok (a, b)
       /\ map_poly (@of_real Q) (char_poly (as_mx 2 2 a))
          = \prod_(z <- exI) ('X - z%:P).
Proof.
have closed := example_conjugates; split; first by split.
exact: (@make_ccf_system_conjugate_closed _ exI isT closed).
Defined.

Lemma make_random_system_from_eigenvalues_char_poly_witness :
  exists (a b : ndarray Q) g',
    make_random_system_from_eigenvalues next0 [:: 2] [:: Complex 0 1] 1 tt
    = Ok (a, b, g')
    /\ [/\ is_mat 3 3 a, is_mat 3 1 b
         & char_poly (as_mx 3 3 a)
           = \prod_(x <- [:: 2 : Q]) ('X - x%:P)
             * \prod_(z <- [:: Complex (0 : Q) 1]) pair_poly z].
Proof.
have [|a [b [g' E]]] :=
  @make_random_system_from_eigenvalues_zero _ _ next0 [:: 2]
    [:: Complex 0 1] 1 tt (fun=> erefl).
  by [].
exists a, b, g'; split; first exact: E.
exact: (make_random_system_from_eigenvalues_char_poly E).
Defined.

Lemma example_general_system :
  exists (a b : ndarray Q) g',
    make_random_system next0 id (fun=> 1) (fun=> 0) 0 3 1 1 1 [::] [::]
      false tt = Ok (a, b, g').
Proof.
have cn : (size (Nil Q) + 2 * size (Nil (complex Q)) < 3)%N by [].
have [zr [zc [g [sz E]]]] :=
  make_random_system_general next0 id (fun=> 1) (fun=> 0) 0 1 1 1 tt cn.
have [|a [b [g' E2]]] :=
  @make_random_system_from_eigenvalues_zero _ _ next0 zr zc 1 g (fun=> erefl).
  by rewrite sz.
by exists a, b, g'; rewrite E E2.
Qed.

Lemma make_random_system_general_spectrum_witness :
  exists (a b : ndarray Q) g',
    make_random_system next0 id (fun=> 1) (fun=> 0) 0 3 1 1 1 [::] [::]
      false tt = Ok (a, b, g')
    /\ exists (zr_rand : seq Q) (zc_rand : seq (complex Q)),
         [/\ (size (Nil Q) + size zr_rand
              + 2 * (size zc_rand + size (Nil (complex Q))))%N = 3%N
             /\ (size zr_rand <= 1)%N,
             is_mat 3 3 a /\ is_mat 3 1 b
           & char_poly (as_mx 3 3 a)
             = \prod_(x <- [::] ++ zr_rand) ('X - x%:P)
               * \prod_(z <- zc_rand ++ [::]) pair_poly z].
Proof.
have [a [b [g' E]]] := example_general_system.
exists a, b, g'; split; first exact: E.
exact: (make_random_system_general_spectrum E).
Defined.

Lemma make_random_system_annulus_witness :
  [/\ forall g0, 0 <= (next0 g0).1 <= 1,
      forall v : Q, 1 ^+ 2 <= v <= 1 ^+ 2 -> id v ^+ 2 = v,
      forall theta : Q, (fun=> 1) theta ^+ 2 + (fun=> 0) theta ^+ 2 = 1 :> Q
    & 0 <= (1 : Q) <= 1]
  /\ exists (a b : ndarray Q) g',
    make_random_system next0 id (fun=> 1) (fun=> 0) 0 3 1 1 1 [::] [::]
      false tt = Ok (a, b, g')
    /\ exists (zr_rand : seq Q) (zc_rand : seq (complex Q)),
         [/\ char_poly (as_mx 3 3 a)
             = \prod_(x <- [::] ++ zr_rand) ('X - x%:P)
               * \prod_(z <- zc_rand ++ [::]) pair_poly z,
             all (fun x => 1 <= x <= 1) zr_rand
           & all (fun z => 1 ^+ 2 <= np_real z ^+ 2 + np_imag z ^+ 2
                           <= 1 ^+ 2) zc_rand].
Proof.
have unif : forall g0 : unit, 0 <= (next0 g0).1 <= 1 by [].
have sqrtK : forall v : Q, 1 ^+ 2 <= v <= 1 ^+ 2 -> id v ^+ 2 = v.
  by move=> v; rewrite expr1n -eq_le => /eqP <-; rewrite expr1n.
have trig : forall theta : Q,
    (fun=> 1) theta ^+ 2 + (fun=> 0) theta ^+ 2 = 1 :> Q.
  by move=> _; rewrite expr1n expr0n addr0.
have range : 0 <= (1 : Q) <= 1 by [].
split; first by split.
have [a [b [g' E]]] := example_general_system.
exists a, b, g'; split; first exact: E.
exact: (make_random_system_annulus unif sqrtK trig range E).
Defined.



Lemma undermodelled_identification_witness :
  [/\ is_mat 4 2 (Arr2 2 exX), is_mat 3 1 (Arr2 1 exU) & (1 <= 2)%N]
  /\ exists um_x_trace a_um b_um : ndarray Q,
       [/\ slice_cols 1 (Arr2 2 exX) = Ok um_x_trace,
           identify_system um_x_trace (Arr2 1 exU) = Ok (a_um, b_um),
           shape um_x_trace = [:: 4; 1]%N,
           shape a_um = [:: 1; 1]%N /\ shape b_um = [:: 1; 1]%N
         & forall M' : 'M[Q]_(1 + 1, 1),
             residual2 3 (rows_of um_x_trace) exU
               (col_mx (as_mx 1 1 a_um) (as_mx 1 1 b_um))
             <= residual2 3 (rows_of um_x_trace) exU M'].
Proof.
split; first by [].
exact: (@undermodelled_identification _ 3 2 1 1 exX exU isT isT isT).
Defined.

End Instances.
